(** * Weather-API: the cache-aside temperature lookup of [main.go]

    A shallow embedding of [main.go] and a verification of its
    specification.  The program answers "what is the temperature at
    LOCATION?" from a Redis cache and, on a miss, from the Visual Crossing
    API, whose answer it stores under every alias the provider reports.

    The Go standard library and the two collaborators are not part of the
    repository; they are modelled here by their documented contracts:

    - [strconv]: single-precision numbers are [spec_float] values of the
      Standard Library's IEEE-754 specification, with precision 24 and
      maximal exponent 128; decimal literals are rounded to the nearest
      value, ties to even, by that specification's division;
    - [json]: a document is a syntax tree, decoded into [APIResponse] the
      way [encoding/json] decodes into that struct, nesting limit included;
    - Redis and the HTTP client: a [World] holding the store, the outcome
      of the upcoming Redis commands (each runs, or is answered by an error
      reply), the provider's replies and the record of the calls made.  The
      client's errors are strings compared by their text, [redis.Nil] being
      one of them. *)

From Stdlib Require Import ZArith Ascii String Floats.SpecFloat.
From Stdlib Require Import Decimal DecimalString DecimalN DecimalPos DecimalFacts.
From stdpp Require Import gmap strings list.

Open Scope Z_scope.

(** ** [strconv]: single-precision numbers and their decimal form *)

Module strconv.

Definition float32 : Type := spec_float.
Definition prec32 : Z := 24.
Definition emax32 : Z := 128.

Definition is_finite (f : float32) : bool :=
  match f with
  | S754_zero _ | S754_finite _ _ _ => true
  | _ => false
  end.

Definition float32_eqb (f g : float32) : bool :=
  match f, g with
  | S754_zero s, S754_zero t => Bool.eqb s t
  | S754_infinity s, S754_infinity t => Bool.eqb s t
  | S754_nan, S754_nan => true
  | S754_finite s m e, S754_finite t n k =>
      Bool.eqb s t && Pos.eqb m n && Z.eqb e k
  | _, _ => false
  end.

(** The float32 nearest to [(-1)^neg * c * 10^x], ties to even: what
    [ParseFloat(s, 32)] computes from a decimal literal ([S754_infinity]
    when the literal is out of range). *)
Definition round_decimal (neg : bool) (c x : Z) : float32 :=
  match c with
  | Zpos p =>
      let num := Z.to_pos (Zpos p * 10 ^ Z.max x 0) in
      let den := Z.to_pos (10 ^ Z.max (- x) 0) in
      SFdiv prec32 emax32 (S754_finite neg num 0) (S754_finite false den 0)
  | _ => S754_zero neg
  end.

Definition digits (c : Z) : string :=
  NilEmpty.string_of_uint (N.to_uint (Z.to_N c)).

Definition nb_digits (c : Z) : nat :=
  Decimal.nb_digits (N.to_uint (Z.to_N c)).

(** [m * 2^e] written as [c * 10^x], exactly. *)
Definition exact_decimal (m : positive) (e : Z) : Z * Z :=
  if 0 <=? e then (Zpos m * 2 ^ e, 0) else (Zpos m * 5 ^ (- e), e).

(** Trailing zeros of the digit string move into the exponent. *)
Fixpoint trim (fuel : nat) (c x : Z) : Z * Z :=
  match fuel with
  | O => (c, x)
  | S k => if c mod 10 =? 0 then trim k (c / 10) (x + 1) else (c, x)
  end.

(** Does the decimal [c * 10^x], as it will be written, read back as
    [f]? *)
Definition reads_back (f : float32) (neg : bool) (c x : Z) : bool :=
  let '(c', x') := trim (nb_digits c) c x in
  float32_eqb (round_decimal neg c' x') f.

(** The exact decimal [c0 * 10^x0] cut [drop] digits short: rounded down
    and rounded up.  A cut is acceptable when it still reads back as
    [f]; when both directions are, the nearer one is taken and a tie
    goes to the even digit. *)
Definition candidate (f : float32) (neg : bool) (c0 x0 drop : Z)
  : option (Z * Z) :=
  let p := 10 ^ drop in
  let lo := c0 / p in
  let rem := c0 mod p in
  let hi := lo + 1 in
  let x := x0 + drop in
  let okdown := reads_back f neg lo x in
  let okup := reads_back f neg hi x in
  let up := (p <? 2 * rem) || ((p =? 2 * rem) && Z.odd lo) in
  match okdown, okup with
  | true, true => Some (if up then hi else lo, x)
  | true, false => Some (lo, x)
  | false, true => Some (hi, x)
  | false, false => None
  end.

(** The fewest digits first: one digit, then two, ... and, when no cut
    reads back, all the digits of the exact decimal. *)
Fixpoint shortest (steps : nat) (f : float32) (neg : bool) (c0 x0 drop : Z)
  : Z * Z :=
  match steps with
  | O => (c0, x0)
  | S k =>
      match candidate f neg c0 x0 drop with
      | Some d => d
      | None => shortest k f neg c0 x0 (drop - 1)
      end
  end.

Fixpoint zeros (n : nat) : string :=
  match n with
  | O => EmptyString
  | S k => String "0"%char (zeros k)
  end.

Definition pad (w : nat) (s : string) : string :=
  zeros (w - String.length s) +:+ s.

(** The ['f'] format with as many fraction digits as the decimal has:
    sign, integer part, and a point and a fraction when there is one. *)
Definition fmtF (neg : bool) (c x : Z) : string :=
  let sign := if neg then "-" else "" in
  if 0 <=? x then sign +:+ digits (c * 10 ^ x)
  else
    let p := 10 ^ (- x) in
    sign +:+ digits (c / p) +:+ "." +:+ pad (Z.to_nat (- x)) (digits (c mod p)).

(** [strconv.FormatFloat(float64(f), 'f', -1, 32)]: the shortest decimal
    that reads back as [f], in fixed-point notation. *)
Definition FormatFloat32 (f : float32) : string :=
  match f with
  | S754_nan => "NaN"
  | S754_infinity false => "+Inf"
  | S754_infinity true => "-Inf"
  | S754_zero neg => if neg then "-0" else "0"
  | S754_finite neg m e =>
      let '(c0, x0) := exact_decimal m e in
      let n0 := nb_digits c0 in
      let '(c, x) := shortest (n0 - 1) f neg c0 x0 (Z.of_nat n0 - 1) in
      let '(c, x) := trim (nb_digits c) c x in
      fmtF neg c x
  end.

(** Reading a fixed-point decimal back ([strconv.ParseFloat(s, 32)] on
    the strings ['f'] formatting writes): an optional sign, digits, and
    optionally a point and more digits.  [None] is a syntax or range
    error. *)
Fixpoint split_point (s : string) : string * option string :=
  match s with
  | EmptyString => (EmptyString, None)
  | String c rest =>
      if Ascii.eqb c "."%char then (EmptyString, Some rest)
      else let '(i, f) := split_point rest in (String c i, f)
  end.

Definition parse_unsigned (neg : bool) (s : string) : option float32 :=
  let '(i, f) := split_point s in
  let f := default EmptyString f in
  match (String.length i + String.length f)%nat with
  | O => None
  | _ =>
      match NilEmpty.uint_of_string (i +:+ f) with
      | Some d =>
          let r := round_decimal neg (Z.of_N (N.of_uint d))
                     (- Z.of_nat (String.length f)) in
          if is_finite r then Some r else None
      | None => None
      end
  end.

Definition ParseFloat32 (s : string) : option float32 :=
  if String.eqb s "NaN" then Some S754_nan
  else if String.eqb s "+Inf" then Some (S754_infinity false)
  else if String.eqb s "-Inf" then Some (S754_infinity true)
  else
    match s with
    | String "-"%char rest => parse_unsigned true rest
    | String "+"%char rest => parse_unsigned false rest
    | _ => parse_unsigned false s
    end.

Arguments round_decimal : simpl never.
Arguments FormatFloat32 : simpl never.
Arguments ParseFloat32 : simpl never.

End strconv.

Import strconv.

(** ** The data of [main.go] *)

Module Weather.
Record t := mk { Locations : list string; Temp : float32 }.
End Weather.

Module CurrentConditions.
Record t := mk { Temp : float32; Stations : list string }.
End CurrentConditions.

Module APIResponse.
Record t := mk {
  Address : string;
  ResolvedAddress : string;
  CurrentConditions : CurrentConditions.t
}.
End APIResponse.

(** Go's [error] values that reach the handler: the two sentinels of
    [main.go], which equal nothing but themselves, and what the Redis
    client reports.  The client's [RedisError] is a string type: an error
    reply of the server is the [RedisError] of its text, and [redis.Nil] is
    the [RedisError] of "redis: nil".  Go's [==] compares two of them by
    their text. *)
Inductive error :=
| ErrAPIConnect
| ErrAPIResponse
| redis_Error (msg : string).

Definition redis_Nil : error := redis_Error "redis: nil".

Definition Error (e : error) : string :=
  match e with
  | ErrAPIConnect => "failed to connect to the Visual Crossing API"
  | ErrAPIResponse =>
      "something happened with the response from the Visual Crossing API"
  | redis_Error msg => msg
  end.

#[global] Instance error_eq_dec : EqDecision error.
Proof. solve_decision. Defined.

(** A pointer result paired with an error: [(&v, nil)] or [(nil, err)]. *)
Inductive result (A : Type) :=
| Ok (a : A)
| Err (e : error).
Arguments Ok {A} a.
Arguments Err {A} e.

(** ** [encoding/json]: decoding a document into [APIResponse] *)

Module json.

#[warnings="-register-all"] Inductive value :=
| JNull
| JBool (b : bool)
| JNumber (neg : bool) (c : N) (x : Z)   (* (-1)^neg * c * 10^x *)
| JString (s : string)
| JArray (items : list value)
| JObject (members : list (string * value)).

(** The bytes of a body: not JSON at all, or the text of a document. *)
Inductive text :=
| Malformed
| Document (v : value).

Inductive failure :=
| SyntaxError
| UnmarshalTypeError.

(** Member names are matched to struct fields by their folded form:
    ASCII letters in upper case, and the two runes that fold to an ASCII
    letter (U+017F to S, U+212A to K) replaced by it.  Other bytes stay:
    they can never equal a field name of [APIResponse]. *)
Definition upper (c : ascii) : ascii :=
  let n := nat_of_ascii c in
  if ((97 <=? n) && (n <=? 122))%nat then ascii_of_nat (n - 32) else c.

Fixpoint foldName (s : string) : string :=
  match s with
  | EmptyString => EmptyString
  | String c1 s1 =>
      match nat_of_ascii c1, s1 with
      | 197%nat, String c2 s2 =>
          if (nat_of_ascii c2 =? 191)%nat then String "S"%char (foldName s2)
          else String c1 (foldName s1)
      | 226%nat, String c2 (String c3 s3) =>
          if ((nat_of_ascii c2 =? 132) && (nat_of_ascii c3 =? 170))%nat
          then String "K"%char (foldName s3)
          else String c1 (foldName s1)
      | _, _ => String (upper c1) (foldName s1)
      end
  end.

Definition names (key field : string) : bool :=
  String.eqb (foldName key) (foldName field).

(** A literal stored into a string or a float32: [null] leaves the
    destination as it is, a value of another kind is a type error, and so
    is a number out of the range of float32. *)
Definition literal_string (v : value) (old : string) : option string :=
  match v with
  | JNull => Some old
  | JString s => Some s
  | _ => None
  end.

Definition literal_float32 (v : value) (old : float32) : option float32 :=
  match v with
  | JNull => Some old
  | JNumber neg c x =>
      let f := round_decimal neg (Z.of_N c) x in
      if is_finite f then Some f else None
  | _ => None
  end.

(** A slice under decoding: its backing array and its length.  An array
    is decoded element by element into the slice it finds, which is then
    cut to the number of elements read. *)
Record slice := { mem : list string; len : nat }.

Definition elems (s : slice) : list string := take (len s) (mem s).

Fixpoint array_items (items : list value) (i : nat) (mem : list string)
  : option (list string) :=
  match items with
  | [] => Some mem
  | v :: rest =>
      match literal_string v (default EmptyString (mem !! i)) with
      | Some s =>
          array_items rest (S i)
            (if decide (i < length mem)%nat then <[i := s]> mem
             else mem ++ [s])
      | None => None
      end
  end.

Definition array (v : value) (old : slice) : option slice :=
  match v with
  | JNull => Some {| mem := []; len := 0 |}
  | JArray [] => Some {| mem := []; len := 0 |}
  | JArray items =>
      match array_items items 0 (mem old) with
      | Some mem' => Some {| mem := mem'; len := length items |}
      | None => None
      end
  | _ => None
  end.

(** The destination struct, by its JSON tags. *)
Record conditions := { temp : float32; stations : slice }.

Record target := {
  address : string;
  resolvedAddress : string;
  currentConditions : conditions
}.

Definition member_conditions (acc : option conditions) (kv : string * value)
  : option conditions :=
  match acc with
  | None => None
  | Some cc =>
      let '(key, v) := kv in
      if names key "temp" then
        match literal_float32 v (temp cc) with
        | Some f => Some {| temp := f; stations := stations cc |}
        | None => None
        end
      else if names key "stations" then
        match array v (stations cc) with
        | Some s => Some {| temp := temp cc; stations := s |}
        | None => None
        end
      else Some cc
  end.

Definition object_conditions (v : value) (old : conditions)
  : option conditions :=
  match v with
  | JNull => Some old
  | JObject members => foldl member_conditions (Some old) members
  | _ => None
  end.

Definition member_target (acc : option target) (kv : string * value)
  : option target :=
  match acc with
  | None => None
  | Some t =>
      let '(key, v) := kv in
      if names key "address" then
        match literal_string v (address t) with
        | Some s =>
            Some {| address := s; resolvedAddress := resolvedAddress t;
                    currentConditions := currentConditions t |}
        | None => None
        end
      else if names key "resolvedAddress" then
        match literal_string v (resolvedAddress t) with
        | Some s =>
            Some {| address := address t; resolvedAddress := s;
                    currentConditions := currentConditions t |}
        | None => None
        end
      else if names key "currentConditions" then
        match object_conditions v (currentConditions t) with
        | Some cc =>
            Some {| address := address t;
                    resolvedAddress := resolvedAddress t;
                    currentConditions := cc |}
        | None => None
        end
      else Some t
  end.

Definition object_target (v : value) (old : target) : option target :=
  match v with
  | JNull => Some old
  | JObject members => foldl member_target (Some old) members
  | _ => None
  end.

(** [var apiResponse APIResponse]: every field at its zero value. *)
Definition zero : target :=
  {| address := EmptyString; resolvedAddress := EmptyString;
     currentConditions :=
       {| temp := S754_zero false; stations := {| mem := []; len := 0 |} |} |}.

Definition loaded (t : target) : APIResponse.t :=
  APIResponse.mk (address t) (resolvedAddress t)
    (CurrentConditions.mk (temp (currentConditions t))
       (elems (stations (currentConditions t)))).

(** How deep the document nests: one level for each array or object
    entered.  The scanner checks the whole text before anything is decoded
    and refuses, as a syntax error, a document that nests deeper than
    [maxNestingDepth], wherever the nesting is. *)
Fixpoint depth (v : value) : Z :=
  match v with
  | JArray items => 1 + foldr (λ item d, Z.max (depth item) d) 0 items
  | JObject members => 1 + foldr (λ kv d, Z.max (depth kv.2) d) 0 members
  | _ => 0
  end.

Definition maxNestingDepth : Z := 10000.

(** [json.Unmarshal(body, &apiResponse)] on a fresh [apiResponse].  Any
    error makes [callWeatherAPI] drop the struct, so a failure carries no
    partial result. *)
Definition Unmarshal (data : text) : APIResponse.t + failure :=
  match data with
  | Malformed => inr SyntaxError
  | Document v =>
      if maxNestingDepth <? depth v then inr SyntaxError
      else
        match object_target v zero with
        | Some t => inl (loaded t)
        | None => inr UnmarshalTypeError
        end
  end.

End json.

(** ** The collaborators: Redis, the provider, the process *)

(** A cached entry: the value and the expiration it was written with
    (a [time.Duration], in nanoseconds). *)
Record entry := { cached : string; ttl : Z }.

Definition time_Hour : Z := 3600000000000.

(** What io.ReadAll gets from a response body. *)
Inductive payload :=
| Unreadable
| Bytes (data : json.text).

(** What [http.Get] comes back with. *)
Inductive reply :=
| GetError
| Response (StatusCode : Z) (Body : payload).

Inductive call :=
| RedisGet (key : string)
| RedisSet (key val : string) (expiration : Z)
| HttpGet (url : string).

Inductive logged :=
| Failure (e : error)
| ReadFailure
| DecodeFailure (c : json.failure).

(** The world the handler runs in.  [faults] is the outcome of the
    upcoming Redis commands, one per command: [None] lets the command run,
    [Some msg] makes it fail with the error reply [msg] and leave the store
    alone; past the end of the list every command runs.  A key whose entry
    has expired is simply not in [store]. *)
Record World := {
  store : gmap string entry;
  faults : list (option string);
  env : gmap string string;
  provider : string → reply;
  calls : list call;
  logs : list logged
}.

Definition IO (A : Type) : Type := World → A * World.

#[global] Instance IO_ret : MRet IO := λ A a w, (a, w).
#[global] Instance IO_bind : MBind IO :=
  λ A B f m w, let '(a, w') := m w in f a w'.

Definition record (c : call) (w : World) : World :=
  {| store := store w; faults := faults w; env := env w;
     provider := provider w; calls := calls w ++ [c]; logs := logs w |}.

Definition next_fault (w : World) : option string * World :=
  (mjoin (head (faults w)),
   {| store := store w; faults := tail (faults w); env := env w;
      provider := provider w; calls := calls w; logs := logs w |}).

Definition put (key : string) (e : entry) (w : World) : World :=
  {| store := <[key := e]> (store w); faults := faults w; env := env w;
     provider := provider w; calls := calls w; logs := logs w |}.

(** [redisClient.Get(key).Result()]: the value, or [redis.Nil] when the
    key is not there, or the error reply. *)
Definition redis_Get (key : string) : IO (string * option error) := λ w,
  let '(fault, w) := next_fault (record (RedisGet key) w) in
  match fault with
  | Some msg => ((EmptyString, Some (redis_Error msg)), w)
  | None =>
      match store w !! key with
      | Some e => ((cached e, None), w)
      | None => ((EmptyString, Some redis_Nil), w)
      end
  end.

(** [redisClient.Set(key, val, expiration).Err()] *)
Definition redis_Set (key val : string) (expiration : Z) : IO (option error) :=
  λ w,
  let '(fault, w) := next_fault (record (RedisSet key val expiration) w) in
  match fault with
  | Some msg => (Some (redis_Error msg), w)
  | None => (None, put key {| cached := val; ttl := expiration |} w)
  end.

Definition http_Get (url : string) : IO reply := λ w,
  (provider w url, record (HttpGet url) w).

Definition os_Getenv (name : string) : IO string := λ w,
  (default EmptyString (env w !! name), w).

Definition log_Print (l : logged) : IO unit := λ w,
  (tt, {| store := store w; faults := faults w; env := env w;
          provider := provider w; calls := calls w; logs := logs w ++ [l] |}).

(** ** [main.go] *)

Definition convertFloat32ToString (f : float32) : string :=
  FormatFloat32 f.
Arguments convertFloat32ToString : simpl never.

(** [locations] as [Handle] fills it: a slice of [2 + len(Stations)] empty
    strings, then the assignments by index. *)
Definition Handle_locations (r : APIResponse.t) : list string :=
  let Stations := CurrentConditions.Stations (APIResponse.CurrentConditions r) in
  let locations := replicate (2 + length Stations) EmptyString in
  let locations := <[0%nat := APIResponse.Address r]> locations in
  let locations := <[1%nat := APIResponse.ResolvedAddress r]> locations in
  if decide (0 < length Stations)%nat then
    foldl (λ locations i,
             <[(2 + i)%nat := default EmptyString (Stations !! i)]> locations)
      locations (seq 0 (length Stations))
  else locations.

(** The [for _, key := range locations] loop: the first failing [Set]
    returns its error at once. *)
Fixpoint Handle_range (locations : list string) (weather : Weather.t)
  : IO (option error) :=
  match locations with
  | [] => mret None
  | key :: rest =>
      err ← redis_Set key (convertFloat32ToString (Weather.Temp weather))
              time_Hour;
      match err with
      | Some e => mret (Some e)
      | None => Handle_range rest weather
      end
  end.

Definition Handle (r : APIResponse.t) : IO (result Weather.t) :=
  let locations := Handle_locations r in
  let weather :=
    Weather.mk locations
      (CurrentConditions.Temp (APIResponse.CurrentConditions r)) in
  err ← Handle_range locations weather;
  match err with
  | Some e => mret (Err e)
  | None => mret (Ok weather)
  end.

Definition timeline_url (location key : string) : string :=
  "https://weather.visualcrossing.com/VisualCrossingWebServices/rest/services/timeline/"
    +:+ location +:+ "?unitGroup=uk&key=" +:+ key +:+ "&contentType=json".

Definition callWeatherAPI (location : string) : IO (result APIResponse.t) :=
  key ← os_Getenv "VISUAL_CROSSING_API_KEY";
  response ← http_Get (timeline_url location key);
  match response with
  | GetError => mret (Err ErrAPIConnect)
  | Response _ Unreadable =>
      log_Print ReadFailure;; mret (Err ErrAPIResponse)
  | Response _ (Bytes body) =>
      match json.Unmarshal body with
      | inr c => log_Print (DecodeFailure c);; mret (Err ErrAPIResponse)
      | inl apiResponse => mret (Ok apiResponse)
      end
  end.

(** [r.URL.Query()] and [url.Values.Get]. *)
Record Request := { Query : gmap string (list string) }.

Definition Values_Get (v : gmap string (list string)) (key : string) : string :=
  match v !! key with
  | Some (first :: _) => first
  | _ => EmptyString
  end.

(** What the handler wrote to its [http.ResponseWriter]. *)
Record Written := { StatusCode : Z; Body : string }.

Definition StatusOK : Z := 200.
Definition StatusBadRequest : Z := 400.
Definition StatusInternalServerError : Z := 500.

Definition fail (err : error) : IO Written :=
  log_Print (Failure err);;
  mret {| StatusCode := StatusInternalServerError; Body := Error err |}.

Definition weatherHandler (r : Request) : IO Written :=
  let queryParams := Query r in
  let location := Values_Get queryParams "location" in
  if decide (String.length location = 0%nat) then
    mret {| StatusCode := StatusBadRequest;
            Body := "missing location query parameter" |}
  else
    '(val, err) ← redis_Get location;
    if decide (err = Some redis_Nil) then
      apiResponse ← callWeatherAPI location;
      match apiResponse with
      | Err err => fail err
      | Ok apiResponse =>
          weather ← Handle apiResponse;
          match weather with
          | Err err => fail err
          | Ok weather =>
              let val := convertFloat32ToString (Weather.Temp weather) in
              mret {| StatusCode := StatusOK; Body := val |}
          end
      end
    else
      match err with
      | Some err => fail err
      | None => mret {| StatusCode := StatusOK; Body := val |}
      end.

(** ** Vocabulary of the statements *)

(** The first [n] upcoming Redis commands run. *)
Definition clean (n : nat) (fs : list (option string)) : Prop :=
  Forall (λ o, o = None) (take n fs).

(** [Get] reports [redis.Nil]: the key is not in the store, or the
    server replied with an error of that very text. *)
Definition misses (w : World) (location : string) : Prop :=
  head (faults w) = Some (Some "redis: nil") ∨
  (mjoin (head (faults w)) = None ∧ store w !! location = None).

(** The store after [val] is written under each of [keys], in order. *)
Definition writes (keys : list string) (val : string) (m : gmap string entry)
  : gmap string entry :=
  foldl (λ m key, <[key := {| cached := val; ttl := time_Hour |}]> m) m keys.

Definition sets (keys : list string) (val : string) : list call :=
  (λ key, RedisSet key val time_Hour) <$> keys.

(** One step of the loop that copies the stations into [locations]. *)
Definition fill (St l : list string) (i : nat) : list string :=
  <[(2 + i)%nat := default EmptyString (St !! i)]> l.

(** The address [callWeatherAPI] requests for [location]. *)
Definition provider_url (w : World) (location : string) : string :=
  timeline_url location
    (default EmptyString (env w !! "VISUAL_CROSSING_API_KEY")).

(** ** Sample data *)

Definition sample_request (location : string) : Request :=
  {| Query := {[ "location" := [location] ]} |}.

Definition sample_document : json.value :=
  json.JObject
    [("queryCost", json.JNumber false 1 0);
     ("address", json.JString "London");
     ("resolvedAddress", json.JString "London, England, United Kingdom");
     ("currentConditions",
      json.JObject
        [("temp", json.JNumber false 75 (-1));
         ("stations", json.JArray [json.JString "EGLC"; json.JString "EGLL"])])].

Definition sample_reply : reply :=
  Response 200 (Bytes (json.Document sample_document)).

(** [n] arrays, one inside the other, around [v]. *)
Fixpoint nested (n : nat) (v : json.value) : json.value :=
  match n with
  | O => v
  | S k => json.JArray [nested k v]
  end.

(** An error reply of the server. *)
Definition sample_error : string := "NOAUTH Authentication required.".

Definition sample_world (m : gmap string entry) (fs : list (option string))
    (answer : reply) : World :=
  {| store := m; faults := fs;
     env := {[ "VISUAL_CROSSING_API_KEY" := "secret" ]};
     provider := λ _, answer; calls := []; logs := [] |}.

(** ** Vocabulary of the decoder *)

(** No member of the object is named [field], in any letter case. *)
Definition absent (field : string) (members : list (string * json.value))
  : Prop :=
  Forall (λ kv, json.names kv.1 field = false) members.

(** A document that carries none of the fields of [APIResponse]: [null],
    or an object in which the three of them are absent. *)
Definition bare (v : json.value) : Prop :=
  v = json.JNull ∨
  ∃ members,
    v = json.JObject members ∧
    absent "address" members ∧ absent "resolvedAddress" members ∧
    absent "currentConditions" members.

Definition zero_response : APIResponse.t :=
  APIResponse.mk EmptyString EmptyString
    (CurrentConditions.mk (S754_zero false) []).

(** The last sentence of claim C10 as it is written: every reply whose
    body is valid JSON is answered with "0", stored under the empty key. *)
Definition every_valid_json_answers_zero : Prop :=
  ∀ (r : Request) (w : World) (location : string) (status : Z)
    (v : json.value),
    Values_Get (Query r) "location" = location →
    location ≠ EmptyString →
    store w !! location = None →
    clean 3 (faults w) →
    provider w (provider_url w location) =
      Response status (Bytes (json.Document v)) →
    ∃ w',
      weatherHandler r w = ({| StatusCode := StatusOK; Body := "0" |}, w') ∧
      store w' !! EmptyString = Some {| cached := "0"; ttl := time_Hour |}.

(** The temperatures of the round-trip property: the float32 values
    nearest to 0, -3.25, 100, 7.5 and -0.1. *)
Definition representative : list float32 :=
  [round_decimal false 0 0; round_decimal true 325 (-2);
   round_decimal false 100 0; round_decimal false 75 (-1);
   round_decimal true 1 (-1)].

(** ** The outcomes of a lookup *)

(** The provider call fails with [err], having logged [causes]. *)
Definition provider_fails (w : World) (location : string) (err : error)
    (causes : list logged) : Prop :=
  (provider w (provider_url w location) = GetError ∧
     err = ErrAPIConnect ∧ causes = []) ∨
  (∃ status,
     provider w (provider_url w location) = Response status Unreadable ∧
     err = ErrAPIResponse ∧ causes = [ReadFailure]) ∨
  (∃ status body c,
     provider w (provider_url w location) = Response status (Bytes body) ∧
     json.Unmarshal body = inr c ∧
     err = ErrAPIResponse ∧ causes = [DecodeFailure c]).

(** [run r w out w']: the handler, given request [r] in world [w], writes
    [out] and leaves world [w'].  One rule per path through
    [weatherHandler]; the three that go to the provider are taken when
    [Get] reports [redis.Nil]. *)
Inductive run (r : Request) (w : World) : Written → World → Prop :=
| run_rejected :
    Values_Get (Query r) "location" = EmptyString →
    run r w
      {| StatusCode := StatusBadRequest;
         Body := "missing location query parameter" |}
      w
| run_store_error (msg : string) :
    Values_Get (Query r) "location" ≠ EmptyString →
    head (faults w) = Some (Some msg) →
    redis_Error msg ≠ redis_Nil →
    run r w
      {| StatusCode := StatusInternalServerError;
         Body := Error (redis_Error msg) |}
      {| store := store w; faults := tail (faults w); env := env w;
         provider := provider w;
         calls := calls w ++ [RedisGet (Values_Get (Query r) "location")];
         logs := logs w ++ [Failure (redis_Error msg)] |}
| run_hit (e : entry) :
    Values_Get (Query r) "location" ≠ EmptyString →
    mjoin (head (faults w)) = None →
    store w !! Values_Get (Query r) "location" = Some e →
    run r w
      {| StatusCode := StatusOK; Body := cached e |}
      {| store := store w; faults := tail (faults w); env := env w;
         provider := provider w;
         calls := calls w ++ [RedisGet (Values_Get (Query r) "location")];
         logs := logs w |}
| run_provider_error (err : error) (causes : list logged) :
    Values_Get (Query r) "location" ≠ EmptyString →
    misses w (Values_Get (Query r) "location") →
    provider_fails w (Values_Get (Query r) "location") err causes →
    run r w
      {| StatusCode := StatusInternalServerError; Body := Error err |}
      {| store := store w; faults := tail (faults w); env := env w;
         provider := provider w;
         calls :=
           calls w ++
           [RedisGet (Values_Get (Query r) "location");
            HttpGet (provider_url w (Values_Get (Query r) "location"))];
         logs := logs w ++ causes ++ [Failure err] |}
| run_stored (status : Z) (body : json.text) (api : APIResponse.t) :
    Values_Get (Query r) "location" ≠ EmptyString →
    misses w (Values_Get (Query r) "location") →
    provider w (provider_url w (Values_Get (Query r) "location")) =
      Response status (Bytes body) →
    json.Unmarshal body = inl api →
    clean (length (Handle_locations api)) (tail (faults w)) →
    run r w
      {| StatusCode := StatusOK;
         Body :=
           convertFloat32ToString
             (CurrentConditions.Temp (APIResponse.CurrentConditions api)) |}
      {| store :=
           writes (Handle_locations api)
             (convertFloat32ToString
                (CurrentConditions.Temp (APIResponse.CurrentConditions api)))
             (store w);
         faults := drop (S (length (Handle_locations api))) (faults w);
         env := env w; provider := provider w;
         calls :=
           calls w ++
           RedisGet (Values_Get (Query r) "location") ::
           HttpGet (provider_url w (Values_Get (Query r) "location")) ::
           sets (Handle_locations api)
             (convertFloat32ToString
                (CurrentConditions.Temp (APIResponse.CurrentConditions api)));
         logs := logs w |}
| run_write_error (status : Z) (body : json.text) (api : APIResponse.t)
    (k : nat) (msg : string) :
    Values_Get (Query r) "location" ≠ EmptyString →
    misses w (Values_Get (Query r) "location") →
    provider w (provider_url w (Values_Get (Query r) "location")) =
      Response status (Bytes body) →
    json.Unmarshal body = inl api →
    (k < length (Handle_locations api))%nat →
    clean k (tail (faults w)) →
    tail (faults w) !! k = Some (Some msg) →
    run r w
      {| StatusCode := StatusInternalServerError;
         Body := Error (redis_Error msg) |}
      {| store :=
           writes (take k (Handle_locations api))
             (convertFloat32ToString
                (CurrentConditions.Temp (APIResponse.CurrentConditions api)))
             (store w);
         faults := drop (S (S k)) (faults w);
         env := env w; provider := provider w;
         calls :=
           calls w ++
           RedisGet (Values_Get (Query r) "location") ::
           HttpGet (provider_url w (Values_Get (Query r) "location")) ::
           sets (take (S k) (Handle_locations api))
             (convertFloat32ToString
                (CurrentConditions.Temp (APIResponse.CurrentConditions api)));
         logs := logs w ++ [Failure (redis_Error msg)] |}.

(** ** Vocabulary of the temperature string *)

(** The exponent of the last place of a float32 of magnitude [2^z]. *)
Definition fexp32 (z : Z) : Z := Z.max (z - 24) (-149).

(** A decimal digit, and a string of decimal digits. *)
Definition is_digit (a : ascii) : bool :=
  match uint_of_char a (Some Nil) with
  | Some _ => true
  | None => false
  end.

Fixpoint all_digits (s : string) : bool :=
  match s with
  | EmptyString => true
  | String a rest => is_digit a && all_digits rest
  end.

(** ** Vocabulary of rounding *)

(** The integer nearest to [a / b], ties to even. *)
Definition rne (a b : Z) : Z :=
  match 2 * (a mod b) ?= b with
  | Lt => a / b
  | Eq => if Z.even (a / b) then a / b else a / b + 1
  | Gt => a / b + 1
  end.

(** Where [a / b] lies between [a / b] rounded down and the next
    integer. *)
Definition loc_of (a b : Z) : location :=
  if a mod b =? 0 then loc_Exact else loc_Inexact (2 * (a mod b) ?= b).

(** The magnitude of a float32 in units of [2^-149], the smallest positive
    float32; infinity counts as [2^128]. *)
Definition mag (f : float32) : Z :=
  match f with
  | S754_zero _ => 0
  | S754_finite _ m e => Zpos m * 2 ^ (e + 149)
  | S754_infinity _ => 2 ^ 277
  | S754_nan => -1
  end.

Definition sign_is (s : bool) (f : float32) : Prop :=
  match f with
  | S754_zero t | S754_infinity t | S754_finite t _ _ => t = s
  | S754_nan => False
  end.

(** [j - 149] is the exponent of the last place of the float32 values
    around [X / D * 2^-149]. *)
Definition last_place (X D j : Z) : Prop :=
  0 ≤ j ∧ X < D * 2 ^ (j + 24) ∧ (0 < j → D * 2 ^ (j + 23) ≤ X).

(** [c1 * 10^x1 ≤ c2 * 10^x2], without fractions. *)
Definition dle (c1 x1 c2 x2 : Z) : Prop :=
  c1 * 10 ^ Z.max x1 0 * 10 ^ Z.max (- x2) 0 ≤
  c2 * 10 ^ Z.max x2 0 * 10 ^ Z.max (- x1) 0.

(** ** Vocabulary of the store *)

(** The string is a temperature: it reads as a finite float32. *)
Definition temperature (s : string) : Prop :=
  ∃ f, ParseFloat32 s = Some f ∧ is_finite f = true.

(** Every entry of the store is a temperature kept for one hour, which
    is what the handler writes. *)
Definition well_formed (m : gmap string entry) : Prop :=
  ∀ key e, m !! key = Some e → temperature (cached e) ∧ ttl e = time_Hour.

(** * Verification *)

Ltac io := unfold mbind, IO_bind, mret, IO_ret in *.

Section Primitives.
Implicit Types (w : World) (key val : string).

Lemma clean_0 fs : clean 0 fs.
Proof. unfold clean. rewrite take_0. constructor. Qed.

Lemma clean_S n fs :
  clean (S n) fs ↔ mjoin (head fs) = None ∧ clean n (tail fs).
Proof.
  unfold clean. destruct fs as [|o fs]; simpl.
  - rewrite take_nil. split; [split; [done|constructor]|constructor].
  - rewrite Forall_cons. destruct o; simpl; naive_solver.
Qed.

Lemma clean_le n k fs : (k ≤ n)%nat → clean n fs → clean k fs.
Proof.
  unfold clean. intros Hk H.
  rewrite <- (Nat.min_l k n Hk), <- take_take. by apply Forall_take.
Qed.

Lemma redis_Set_runs key val t w :
  mjoin (head (faults w)) = None →
  redis_Set key val t w =
    (None,
     {| store := <[key := {| cached := val; ttl := t |}]> (store w);
        faults := tail (faults w); env := env w; provider := provider w;
        calls := calls w ++ [RedisSet key val t]; logs := logs w |}).
Proof. intros H. unfold redis_Set, next_fault. simpl. by rewrite H. Qed.

Lemma redis_Set_fails key val t w msg :
  head (faults w) = Some (Some msg) →
  redis_Set key val t w =
    (Some (redis_Error msg),
     {| store := store w;
        faults := tail (faults w); env := env w; provider := provider w;
        calls := calls w ++ [RedisSet key val t]; logs := logs w |}).
Proof. intros H. unfold redis_Set, next_fault. simpl. by rewrite H. Qed.
End Primitives.

Section Locations.
Implicit Types (l St : list string).

Lemma fill_length St l k :
  length (foldl (fill St) l (seq 0 k)) = length l.
Proof.
  induction k as [|k IH]; [done|].
  rewrite seq_S, foldl_app. simpl. unfold fill at 1.
  by rewrite length_insert.
Qed.

Lemma fill_lookup St l k j :
  (k ≤ length St)%nat → length l = (2 + length St)%nat →
  foldl (fill St) l (seq 0 k) !! j =
    if decide (2 ≤ j < 2 + k)%nat then St !! (j - 2)%nat else l !! j.
Proof.
  intros Hk Hl. induction k as [|k IH].
  { simpl. case_decide; [lia|done]. }
  rewrite seq_S, foldl_app. simpl. unfold fill at 1.
  destruct (decide (j = 2 + k)%nat) as [->|Hj].
  - rewrite list_lookup_insert_eq by (rewrite fill_length; lia).
    rewrite decide_True by lia.
    replace (2 + k - 2)%nat with k by lia.
    destruct (lookup_lt_is_Some_2 St k) as [s Hs]; [lia|]. by rewrite Hs.
  - rewrite list_lookup_insert_ne by lia.
    rewrite IH by lia. repeat case_decide; done || lia.
Qed.

Lemma Handle_locations_eq (r : APIResponse.t) :
  Handle_locations r =
    APIResponse.Address r :: APIResponse.ResolvedAddress r ::
    CurrentConditions.Stations (APIResponse.CurrentConditions r).
Proof.
  unfold Handle_locations.
  set (St := CurrentConditions.Stations (APIResponse.CurrentConditions r)).
  case_decide as Hn.
  - apply list_eq. intros j. fold (fill St).
    rewrite fill_lookup; [|lia|by rewrite !length_insert, length_replicate].
    case_decide as Hj.
    + destruct j as [|[|j]]; [lia..|]. simpl. f_equal. lia.
    + destruct j as [|[|j]]; [done..|].
      simpl. rewrite (lookup_ge_None_2 St) by lia.
      rewrite lookup_ge_None_2; [done|]. rewrite length_replicate. lia.
  - destruct St; [done|simpl in Hn; lia].
Qed.
End Locations.

Section Range.
Implicit Types (w : World) (locs : list string) (weather : Weather.t).

Lemma drop_tail {A} (n : nat) (l : list A) : drop n (tail l) = drop (S n) l.
Proof. destruct l; [by destruct n|done]. Qed.

Lemma lookup_tail_S {A} (n : nat) (l : list A) : tail l !! n = l !! S n.
Proof. by destruct l. Qed.

Lemma Handle_range_clean locs weather w :
  clean (length locs) (faults w) →
  Handle_range locs weather w =
    (None,
     {| store :=
          writes locs (convertFloat32ToString (Weather.Temp weather)) (store w);
        faults := drop (length locs) (faults w);
        env := env w; provider := provider w;
        calls :=
          calls w ++ sets locs (convertFloat32ToString (Weather.Temp weather));
        logs := logs w |}).
Proof.
  revert w. induction locs as [|key locs IH]; intros w Hc.
  { simpl. io. rewrite app_nil_r. by destruct w. }
  simpl in Hc. apply clean_S in Hc as [Hh Hc].
  simpl. io. rewrite redis_Set_runs by done.
  rewrite IH by done. simpl.
  by rewrite drop_tail, <- app_assoc.
Qed.

Lemma Handle_range_fault l1 key l2 weather w msg :
  clean (length l1) (faults w) →
  faults w !! length l1 = Some (Some msg) →
  Handle_range (l1 ++ key :: l2) weather w =
    (Some (redis_Error msg),
     {| store :=
          writes l1 (convertFloat32ToString (Weather.Temp weather)) (store w);
        faults := drop (S (length l1)) (faults w);
        env := env w; provider := provider w;
        calls :=
          calls w ++
          sets (l1 ++ [key]) (convertFloat32ToString (Weather.Temp weather));
        logs := logs w |}).
Proof.
  revert w. induction l1 as [|k1 l1 IH]; intros w Hc Hf.
  { simpl in *. io. rewrite (redis_Set_fails _ _ _ _ msg).
    - simpl. by destruct (faults w).
    - by rewrite head_lookup. }
  simpl in Hc. apply clean_S in Hc as [Hh Hc].
  simpl. io. rewrite redis_Set_runs by done.
  rewrite IH; simpl; [|done|by rewrite lookup_tail_S].
  by rewrite drop_tail, <- app_assoc.
Qed.

(** Whatever the faults, the loop touches no key outside [locs], and
    leaves the provider and the environment alone. *)
Lemma Handle_range_frame locs weather w Z :
  Z ∉ locs → store (Handle_range locs weather w).2 !! Z = store w !! Z.
Proof.
  revert w. induction locs as [|key locs IH]; intros w HZ; [done|].
  apply not_elem_of_cons in HZ as [Hne HZ].
  simpl. io. unfold redis_Set, next_fault. simpl.
  destruct (mjoin (head (faults w))); [done|].
  rewrite IH by done. simpl. by rewrite lookup_insert_ne.
Qed.

Lemma Handle_range_world locs weather w :
  let w' := (Handle_range locs weather w).2 in
  provider w' = provider w ∧ env w' = env w ∧
  ∃ rest, calls w' = calls w ++ rest.
Proof.
  revert w. induction locs as [|key locs IH]; intros w; simpl.
  { split_and!; [done..|]. exists []. by rewrite app_nil_r. }
  io. unfold redis_Set, next_fault. simpl.
  destruct (mjoin (head (faults w))).
  { simpl. split_and!; [done..|]. by eexists. }
  match goal with |- context [Handle_range locs weather ?w1] =>
    destruct (IH w1) as (Hp & He & rest & Hr) end.
  simpl in *. rewrite Hp, He, Hr. split_and!; [done..|].
  rewrite <- app_assoc. by eexists.
Qed.

Lemma writes_lookup locs val (m : gmap string entry) key :
  key ∈ locs →
  writes locs val m !! key = Some {| cached := val; ttl := time_Hour |}.
Proof.
  unfold writes. revert m. induction locs as [|k locs IH]; intros m Hin.
  { by apply elem_of_nil in Hin. }
  simpl. destruct (decide (key ∈ locs)) as [Hl|Hl]; [by apply IH|].
  apply elem_of_cons in Hin as [->|?]; [|done].
  clear IH. revert m. induction locs as [|k' locs IH]; intros m.
  { simpl. by rewrite lookup_insert_eq. }
  apply not_elem_of_cons in Hl as [Hne Hl]. simpl.
  rewrite insert_insert_ne by done. by apply IH.
Qed.

Lemma writes_frame locs val (m : gmap string entry) Z :
  Z ∉ locs → writes locs val m !! Z = m !! Z.
Proof.
  unfold writes. revert m. induction locs as [|k locs IH]; intros m HZ; [done|].
  apply not_elem_of_cons in HZ as [Hne HZ]. simpl.
  rewrite IH by done. by rewrite lookup_insert_ne.
Qed.
End Range.

Lemma length_nonempty (s : string) : s ≠ EmptyString → String.length s ≠ 0%nat.
Proof. by destruct s. Qed.

Section Lookup.
Variables (r : Request) (location : string).
Hypothesis query : Values_Get (Query r) "location" = location.
Hypothesis nonempty : location ≠ EmptyString.

(** The handler past the empty-location check, by what [Get] returns. *)
Lemma weatherHandler_Get (w : World) :
  weatherHandler r w =
    let '((val, err), w1) := redis_Get location w in
    if decide (err = Some redis_Nil) then
      let '(apiResponse, w2) := callWeatherAPI location w1 in
      match apiResponse with
      | Err err => fail err w2
      | Ok apiResponse =>
          let '(weather, w3) := Handle apiResponse w2 in
          match weather with
          | Err err => fail err w3
          | Ok weather =>
              ({| StatusCode := StatusOK;
                  Body := convertFloat32ToString (Weather.Temp weather) |},
               w3)
          end
      end
    else
      match err with
      | Some err => fail err w1
      | None => ({| StatusCode := StatusOK; Body := val |}, w1)
      end.
Proof using query nonempty.
  unfold weatherHandler. rewrite query.
  rewrite decide_False by by apply length_nonempty.
  io. destruct (redis_Get location w) as [[val err] w1].
  destruct (decide (err = Some redis_Nil)) as [Hnil|Hnil]; [|by destruct err].
  destruct (callWeatherAPI location w1) as [[api|e] w2]; [|done].
  by destruct (Handle api w2) as [[weather|e] w3].
Qed.

(** The handler past the empty-location check and a [Get] that ran. *)
Lemma weatherHandler_get (w : World) :
  mjoin (head (faults w)) = None →
  weatherHandler r w =
    let w1 := {| store := store w; faults := tail (faults w); env := env w;
                 provider := provider w;
                 calls := calls w ++ [RedisGet location]; logs := logs w |} in
    match store w !! location with
    | Some e => ({| StatusCode := StatusOK; Body := cached e |}, w1)
    | None =>
        let '(apiResponse, w2) := callWeatherAPI location w1 in
        match apiResponse with
        | Err err => fail err w2
        | Ok apiResponse =>
            let '(weather, w3) := Handle apiResponse w2 in
            match weather with
            | Err err => fail err w3
            | Ok weather =>
                ({| StatusCode := StatusOK;
                    Body := convertFloat32ToString (Weather.Temp weather) |},
                 w3)
            end
        end
    end.
Proof using query nonempty.
  intros Hf. rewrite weatherHandler_Get.
  unfold redis_Get, next_fault, record. cbn [faults store]. rewrite Hf.
  destruct (store w !! location) as [e|]; [by rewrite decide_False|].
  by rewrite decide_True.
Qed.

(** The same, past a [Get] that reported [redis.Nil]. *)
Lemma weatherHandler_miss (w : World) :
  misses w location →
  weatherHandler r w =
    let w1 := {| store := store w; faults := tail (faults w); env := env w;
                 provider := provider w;
                 calls := calls w ++ [RedisGet location]; logs := logs w |} in
    let '(apiResponse, w2) := callWeatherAPI location w1 in
    match apiResponse with
    | Err err => fail err w2
    | Ok apiResponse =>
        let '(weather, w3) := Handle apiResponse w2 in
        match weather with
        | Err err => fail err w3
        | Ok weather =>
            ({| StatusCode := StatusOK;
                Body := convertFloat32ToString (Weather.Temp weather) |},
             w3)
        end
    end.
Proof using query nonempty.
  intros [Hnil|[Hrun Hst]].
  - rewrite weatherHandler_Get.
    unfold redis_Get, next_fault, record. cbn [faults store]. rewrite Hnil.
    cbn [mjoin option_join]. by rewrite decide_True.
  - rewrite weatherHandler_get by done. by rewrite Hst.
Qed.

(** A [Get] that failed with anything else. *)
Lemma weatherHandler_fault (w : World) (msg : string) :
  head (faults w) = Some (Some msg) →
  msg ≠ "redis: nil" →
  weatherHandler r w =
    ({| StatusCode := StatusInternalServerError;
        Body := Error (redis_Error msg) |},
     {| store := store w; faults := tail (faults w); env := env w;
        provider := provider w;
        calls := calls w ++ [RedisGet location];
        logs := logs w ++ [Failure (redis_Error msg)] |}).
Proof using query nonempty.
  intros Hf Hmsg. rewrite weatherHandler_Get.
  unfold redis_Get, next_fault, record. cbn [faults store]. rewrite Hf.
  cbn [mjoin option_join].
  rewrite decide_False by (unfold redis_Nil; congruence).
  reflexivity.
Qed.
End Lookup.

Lemma callWeatherAPI_eq (location : string) (w : World) :
  callWeatherAPI location w =
    let w1 := record (HttpGet (provider_url w location)) w in
    match provider w (provider_url w location) with
    | GetError => (Err ErrAPIConnect, w1)
    | Response _ Unreadable => (Err ErrAPIResponse, (log_Print ReadFailure w1).2)
    | Response _ (Bytes body) =>
        match json.Unmarshal body with
        | inr c => (Err ErrAPIResponse, (log_Print (DecodeFailure c) w1).2)
        | inl apiResponse => (Ok apiResponse, w1)
        end
    end.
Proof.
  unfold callWeatherAPI, provider_url. io. simpl.
  destruct (provider w _) as [|status [|body]]; [done..|].
  by destruct (json.Unmarshal body).
Qed.

Section Miss.
Variables (r : Request) (location : string) (w : World).
Variables (status : Z) (body : json.text) (api : APIResponse.t).
Hypothesis query : Values_Get (Query r) "location" = location.
Hypothesis nonempty : location ≠ EmptyString.
Hypothesis miss : misses w location.
Hypothesis answer :
  provider w (provider_url w location) = Response status (Bytes body).
Hypothesis parsed : json.Unmarshal body = inl api.

Let val := convertFloat32ToString
             (CurrentConditions.Temp (APIResponse.CurrentConditions api)).

Lemma miss_lookup_clean :
  clean (length (Handle_locations api)) (tail (faults w)) →
  weatherHandler r w =
    ({| StatusCode := StatusOK; Body := val |},
     {| store := writes (Handle_locations api) val (store w);
        faults := drop (S (length (Handle_locations api))) (faults w);
        env := env w; provider := provider w;
        calls :=
          calls w ++
          RedisGet location :: HttpGet (provider_url w location) ::
          sets (Handle_locations api) val;
        logs := logs w |}).
Proof using All.
  intros Hc.
  rewrite (weatherHandler_miss r location) by done. cbv zeta.
  rewrite callWeatherAPI_eq. unfold provider_url in *. simpl.
  rewrite answer, parsed.
  unfold Handle. io. rewrite Handle_range_clean by done. simpl.
  by rewrite drop_tail, <- !app_assoc.
Qed.

Lemma miss_lookup_fault l1 key l2 msg :
  Handle_locations api = l1 ++ key :: l2 →
  clean (length l1) (tail (faults w)) →
  faults w !! S (length l1) = Some (Some msg) →
  weatherHandler r w =
    ({| StatusCode := StatusInternalServerError; Body := msg |},
     {| store := writes l1 val (store w);
        faults := drop (S (S (length l1))) (faults w);
        env := env w; provider := provider w;
        calls :=
          calls w ++
          RedisGet location :: HttpGet (provider_url w location) ::
          sets (l1 ++ [key]) val;
        logs := logs w ++ [Failure (redis_Error msg)] |}).
Proof using All.
  intros Hl Hc Hf.
  rewrite (weatherHandler_miss r location) by done. cbv zeta.
  rewrite callWeatherAPI_eq. unfold provider_url in *. simpl.
  rewrite answer, parsed.
  unfold Handle. io. rewrite Hl.
  rewrite (Handle_range_fault _ _ _ _ _ msg); simpl;
    [|done|by rewrite lookup_tail_S].
  unfold fail, log_Print. io. simpl.
  by rewrite drop_tail, <- !app_assoc.
Qed.

(** Whatever the faults: the keys outside the aliases keep their entry. *)
Lemma miss_lookup_frame Z :
  Z ∉ Handle_locations api →
  store (weatherHandler r w).2 !! Z = store w !! Z.
Proof using All.
  intros HZ.
  rewrite (weatherHandler_miss r location) by done. cbv zeta.
  rewrite callWeatherAPI_eq. unfold provider_url in *. simpl.
  rewrite answer, parsed.
  unfold Handle. io.
  match goal with |- context [Handle_range ?l ?we ?w1] =>
    pose proof (Handle_range_frame l we w1 Z HZ) as Hfr;
    destruct (Handle_range l we w1) as [[e|] w3] end; simpl in *; done.
Qed.
End Miss.

Section Anywhere.
Variables (r : Request) (location : string).
Hypothesis query : Values_Get (Query r) "location" = location.
Hypothesis nonempty : location ≠ EmptyString.

Lemma Handle_eq (api : APIResponse.t) (w : World) :
  Handle api w =
    let weather :=
      Weather.mk (Handle_locations api)
        (CurrentConditions.Temp (APIResponse.CurrentConditions api)) in
    let '(err, w') := Handle_range (Handle_locations api) weather w in
    (match err with Some e => Err e | None => Ok weather end, w').
Proof using Type.
  unfold Handle. io. cbv zeta.
  by destruct (Handle_range _ _ w) as [[e|] w'].
Qed.

(** A lookup that misses asks the provider, whatever happens next. *)
Lemma miss_lookup_calls (w : World) :
  misses w location →
  ∃ rest,
    calls (weatherHandler r w).2 =
      calls w ++
      RedisGet location :: HttpGet (provider_url w location) :: rest.
Proof using query nonempty.
  intros Hmiss.
  rewrite (weatherHandler_miss r location) by done.
  cbv zeta. rewrite callWeatherAPI_eq.
  unfold provider_url, record, fail, log_Print. io. simpl.
  destruct (provider w _) as [|status [|body]]; simpl.
  - exists []. by rewrite <- app_assoc.
  - exists []. by rewrite <- app_assoc.
  - destruct (json.Unmarshal body) as [api|c]; simpl.
    + rewrite Handle_eq. cbv zeta.
      match goal with |- context [Handle_range ?l ?we ?w1] =>
        destruct (Handle_range_world l we w1) as (_ & _ & rest & Hr);
        destruct (Handle_range l we w1) as [[e|] w3] end;
        simpl in *; rewrite Hr, <- !app_assoc; by eexists.
    + exists []. by rewrite <- app_assoc.
Qed.

(** The handler never changes the provider or the environment. *)
Lemma weatherHandler_world (w : World) :
  provider (weatherHandler r w).2 = provider w ∧
  env (weatherHandler r w).2 = env w.
Proof using Type.
  clear query nonempty.
  unfold weatherHandler. case_decide; [done|].
  io. unfold redis_Get, next_fault, record. cbn [faults store].
  set (location' := Values_Get (Query r) "location").
  assert (∀ w1 : World,
            provider w1 = provider w → env w1 = env w →
            let out := (let '(apiResponse, w2) := callWeatherAPI location' w1 in
                        match apiResponse with
                        | Err err => fail err w2
                        | Ok apiResponse =>
                            let '(weather, w3) := Handle apiResponse w2 in
                            match weather with
                            | Err err => fail err w3
                            | Ok weather =>
                                ({| StatusCode := StatusOK;
                                    Body := convertFloat32ToString
                                              (Weather.Temp weather) |}, w3)
                            end
                        end) in
            provider out.2 = provider w ∧ env out.2 = env w) as Hmiss.
  { intros w1 Hp He. cbv zeta.
    rewrite callWeatherAPI_eq. unfold record, fail, log_Print. io. simpl.
    destruct (provider w1 _) as [|status [|body]]; simpl; [done..|].
    destruct (json.Unmarshal body) as [api|c]; simpl; [|done].
    rewrite Handle_eq. cbv zeta.
    match goal with |- context [Handle_range ?l ?we ?w2] =>
      destruct (Handle_range_world l we w2) as (Hp' & He' & _);
      destruct (Handle_range l we w2) as [[e|] w3] end; simpl in *;
      by rewrite Hp', He'. }
  destruct (mjoin (head (faults w))) as [msg|].
  - case_decide; [|done].
    match goal with |- context [callWeatherAPI location' ?w1] =>
      specialize (Hmiss w1 eq_refl eq_refl) end.
    cbv zeta in Hmiss.
    destruct (callWeatherAPI location' _) as [[api|e] w2]; [|exact Hmiss].
    by destruct (Handle api w2) as [[weather|e] w3].
  - destruct (store w !! location') as [e|]; [by rewrite decide_False|].
    rewrite decide_True by done.
    match goal with |- context [callWeatherAPI location' ?w1] =>
      specialize (Hmiss w1 eq_refl eq_refl) end.
    cbv zeta in Hmiss.
    destruct (callWeatherAPI location' _) as [[api|e] w2]; [|exact Hmiss].
    by destruct (Handle api w2) as [[weather|e] w3].
Qed.
End Anywhere.

(** * The temperature string *)

Section Exact.

Lemma digits2_pos_bounds (p : positive) :
  2 ^ (Zpos (digits2_pos p) - 1) ≤ Zpos p < 2 ^ Zpos (digits2_pos p).
Proof.
  induction p as [p IH|p IH|]; simpl digits2_pos.
  - rewrite Pos2Z.inj_succ, (Pos2Z.inj_xI p).
    replace (Z.succ (Zpos (digits2_pos p)) - 1) with (Z.succ (Zpos (digits2_pos p) - 1)) by lia.
    rewrite !Z.pow_succ_r by lia.
    revert IH. generalize (2 ^ (Zpos (digits2_pos p) - 1)).
    generalize (2 ^ Zpos (digits2_pos p)). lia.
  - rewrite Pos2Z.inj_succ, (Pos2Z.inj_xO p).
    replace (Z.succ (Zpos (digits2_pos p)) - 1) with (Z.succ (Zpos (digits2_pos p) - 1)) by lia.
    rewrite !Z.pow_succ_r by lia.
    revert IH. generalize (2 ^ (Zpos (digits2_pos p) - 1)).
    generalize (2 ^ Zpos (digits2_pos p)). lia.
  - simpl. lia.
Qed.

(** The number of binary digits is determined by the bounds. *)
Lemma digits2_unique (p : positive) (d : Z) :
  2 ^ (d - 1) ≤ Zpos p < 2 ^ d → Zpos (digits2_pos p) = d.
Proof.
  intros [Hl Hu]. pose proof (digits2_pos_bounds p) as [Hl' Hu'].
  assert (0 < d).
  { destruct (Z.le_gt_cases d 0) as [Hd|]; [|done].
    assert (2 ^ d ≤ 2 ^ 0) by (apply Z.pow_le_mono_r; lia). simpl in *. lia. }
  destruct (Z.lt_trichotomy (Zpos (digits2_pos p)) d) as [Hlt|[->|Hgt]]; [|done|].
  - assert (2 ^ Zpos (digits2_pos p) ≤ 2 ^ (d - 1)) by (apply Z.pow_le_mono_r; lia).
    lia.
  - assert (2 ^ d ≤ 2 ^ (Zpos (digits2_pos p) - 1)) by (apply Z.pow_le_mono_r; lia).
    lia.
Qed.

Lemma Zdigits2_mul_pow2 (p : positive) (n : Z) :
  0 ≤ n → Zdigits2 (Zpos p * 2 ^ n) = Zpos (digits2_pos p) + n.
Proof.
  intros Hn. pose proof (digits2_pos_bounds p) as [Hl Hu].
  assert (0 < 2 ^ n) by (apply Z.pow_pos_nonneg; lia).
  destruct (Zpos p * 2 ^ n) as [|q|q] eqn:Hq; [lia| |lia].
  simpl. apply digits2_unique. rewrite <- Hq.
  replace (Zpos (digits2_pos p) + n - 1) with ((Zpos (digits2_pos p) - 1) + n) by lia.
  rewrite !Z.pow_add_r by lia. nia.
Qed.

Lemma iter_pos_nat {A} (f : A → A) (p : positive) (x : A) :
  SpecFloat.iter_pos f p x = Nat.iter (Pos.to_nat p) f x.
Proof.
  revert x. induction p as [p IH|p IH|]; intros x; simpl SpecFloat.iter_pos.
  - rewrite !IH, Pos2Nat.inj_xI.
    replace (S (2 * Pos.to_nat p)) with (Pos.to_nat p + (Pos.to_nat p + 1))%nat
      by lia.
    rewrite !Nat.iter_add. simpl. done.
  - rewrite !IH, Pos2Nat.inj_xO.
    replace (2 * Pos.to_nat p)%nat with (Pos.to_nat p + Pos.to_nat p)%nat by lia.
    by rewrite Nat.iter_add.
  - done.
Qed.

Lemma shr_1_iter (n : nat) (q : positive) :
  Nat.iter n shr_1
    {| shr_m := Zpos q * 2 ^ Z.of_nat n; shr_r := false; shr_s := false |} =
    {| shr_m := Zpos q; shr_r := false; shr_s := false |}.
Proof.
  induction n as [|n IH].
  { simpl. by rewrite Z.mul_1_r. }
  rewrite Nat.iter_succ_r.
  replace (Zpos q * 2 ^ Z.of_nat (S n)) with (Zpos (xO q) * 2 ^ Z.of_nat n).
  2:{ rewrite Nat2Z.inj_succ, Z.pow_succ_r by lia. lia. }
  assert (0 < 2 ^ Z.of_nat n) by (apply Z.pow_pos_nonneg; lia).
  destruct (Zpos q * 2 ^ Z.of_nat n) as [|t|t] eqn:Ht; [lia| |lia].
  replace (Zpos (xO q) * 2 ^ Z.of_nat n) with (Zpos (xO t)) by lia.
  simpl shr_1. exact IH.
Qed.

Lemma shr_exact (q : positive) (k e : Z) :
  0 ≤ k →
  shr {| shr_m := Zpos q * 2 ^ k; shr_r := false; shr_s := false |} (e - k) k =
    ({| shr_m := Zpos q; shr_r := false; shr_s := false |}, e).
Proof.
  intros Hk. unfold shr. destruct k as [|p|p]; [|clear Hk|lia].
  - simpl. rewrite Z.mul_1_r. f_equal. lia.
  - rewrite iter_pos_nat. rewrite <- (positive_nat_Z p) at 1.
    rewrite shr_1_iter. f_equal. lia.
Qed.

Lemma fexp32_eq (z : Z) : fexp prec32 emax32 z = fexp32 z.
Proof. reflexivity. Qed.

(** Rounding a number that is a float already gives that float. *)
Lemma binary_round_aux_exact (s : bool) (m : positive) (e k : Z) :
  bounded prec32 emax32 m e = true → 0 ≤ k →
  binary_round_aux prec32 emax32 s (Zpos m * 2 ^ k) (e - k) loc_Exact =
    S754_finite s m e.
Proof.
  intros [Hcan Hle]%andb_prop Hk.
  unfold canonical_mantissa in Hcan. apply Z.eqb_eq in Hcan.
  unfold binary_round_aux, shr_fexp.
  rewrite Zdigits2_mul_pow2 by done.
  replace (Zpos (digits2_pos m) + k + (e - k)) with (Zpos (digits2_pos m) + e)
    by lia.
  rewrite Hcan. replace (e - (e - k)) with k by lia.
  cbn [shr_record_of_loc]. rewrite shr_exact by done.
  cbn [shr_m loc_of_shr_record round_nearest_even Zdigits2].
  rewrite Hcan, Z.sub_diag. cbn [shr shr_record_of_loc shr_m].
  by rewrite Hle.
Qed.

Lemma div_eucl_exact (q d : Z) : d ≠ 0 → Z.div_eucl (q * d) d = (q, 0).
Proof.
  intros Hd. pose proof (Z.div_mul q d Hd) as Hq.
  pose proof (Z.mod_mul q d Hd) as Hr.
  unfold Z.div, Z.modulo in *. destruct (Z.div_eucl (q * d) d). simpl in *.
  by subst.
Qed.

Lemma new_location_exact (d : Z) : new_location d 0 = loc_Exact.
Proof. unfold new_location. by destruct (Z.even d). Qed.

Lemma pow2_lt_inv (a b : Z) : 0 ≤ b → 2 ^ a < 2 ^ b → a < b.
Proof.
  intros Hb Hlt. destruct (Z.lt_ge_cases a b) as [|Hge]; [done|].
  assert (2 ^ b ≤ 2 ^ a) by (apply Z.pow_le_mono_r; lia). lia.
Qed.

(** The quotient of two integers that is a float already is that float. *)
Lemma SFdiv_exact (s : bool) (N D m : positive) (e : Z) :
  bounded prec32 emax32 m e = true →
  Zpos N * 2 ^ Z.max (- e) 0 = Zpos m * 2 ^ Z.max e 0 * Zpos D →
  SFdiv prec32 emax32 (S754_finite s N 0) (S754_finite false D 0) =
    S754_finite s m e.
Proof.
  intros Hb Hval.
  pose proof Hb as [Hcan _]%andb_prop.
  unfold canonical_mantissa in Hcan. apply Z.eqb_eq in Hcan.
  rewrite fexp32_eq in Hcan. unfold fexp32 in Hcan.
  pose proof (digits2_pos_bounds N) as [HN1 HN2].
  pose proof (digits2_pos_bounds D) as [HD1 HD2].
  pose proof (digits2_pos_bounds m) as [Hm1 Hm2].
  set (d1 := Zpos (digits2_pos N)) in *.
  set (d2 := Zpos (digits2_pos D)) in *.
  set (dm := Zpos (digits2_pos m)) in *.
  set (e' := Z.min (fexp32 (d1 - d2)) 0).
  assert (e' ≤ 0) as He0 by (unfold e'; lia).
  assert (e' ≤ e) as Hee.
  { destruct (Z.le_gt_cases 0 e) as [|Hneg]; [lia|].
    rewrite (Z.max_l (- e) 0), (Z.max_r e 0), Z.pow_0_r, Z.mul_1_r in Hval
      by lia.
    assert (d1 - d2 ≤ dm + e); [|unfold e', fexp32; lia].
    assert (2 ^ (d1 - 1 - e) < 2 ^ (dm + d2)) as Hlt.
    { rewrite (Z.pow_add_r 2 dm d2) by (unfold dm, d2; lia).
      replace (d1 - 1 - e) with ((d1 - 1) + (- e)) by lia.
      rewrite Z.pow_add_r by (unfold d1; lia).
      assert (0 < 2 ^ (- e)) by (apply Z.pow_pos_nonneg; lia).
      assert (0 < 2 ^ dm) by (apply Z.pow_pos_nonneg; unfold dm; lia).
      nia. }
    apply pow2_lt_inv in Hlt; [lia|unfold dm, d2; lia]. }
  set (k := e - e').
  assert (Zpos N * 2 ^ (- e') = Zpos m * 2 ^ k * Zpos D) as Hq.
  { destruct (Z.le_gt_cases 0 e) as [Hpos|Hneg].
    - rewrite (Z.max_r (- e) 0), (Z.max_l e 0), Z.pow_0_r, Z.mul_1_r in Hval
        by lia.
      rewrite Hval. unfold k. replace (e - e') with (e + - e') by lia.
      rewrite Z.pow_add_r by lia. ring.
    - rewrite (Z.max_l (- e) 0), (Z.max_r e 0), Z.pow_0_r, Z.mul_1_r in Hval
        by lia.
      replace (- e') with (- e + k) by (unfold k; lia).
      rewrite Z.pow_add_r by (unfold k; lia).
      rewrite Z.mul_assoc, Hval. ring. }
  assert (SFdiv_core_binary prec32 emax32 (Zpos N) 0 (Zpos D) 0 =
            (Zpos m * 2 ^ k, e - k, loc_Exact)) as Hcore.
  { unfold SFdiv_core_binary. cbn [Zdigits2].
    rewrite fexp32_eq.
    replace (Zpos (digits2_pos N) + 0 - (Zpos (digits2_pos D) + 0))
      with (d1 - d2) by (unfold d1, d2; lia).
    replace (0 - 0) with 0 by lia. fold e'.
    replace (0 - e') with (- e') by lia.
    assert (match - e' with
            | 0 => Zpos N
            | Zpos _ => Z.shiftl (Zpos N) (- e')
            | Zneg _ => 0
            end = Zpos N * 2 ^ (- e')) as ->.
    { destruct (- e') as [|p|p] eqn:Hs; [by rewrite Z.mul_1_r| |lia].
      by rewrite Z.shiftl_mul_pow2. }
    rewrite Hq, div_eucl_exact by done.
    rewrite new_location_exact. f_equal. f_equal. unfold k. lia. }
  unfold SFdiv. rewrite Hcore.
  rewrite binary_round_aux_exact; [by destruct s|done|unfold k; lia].
Qed.

End Exact.

Section Shortest.

Lemma round_decimal_exact (s : bool) (c x : Z) (m : positive) (e : Z) :
  bounded prec32 emax32 m e = true →
  0 < c →
  c * 10 ^ Z.max x 0 * 2 ^ Z.max (- e) 0 =
    Zpos m * 2 ^ Z.max e 0 * 10 ^ Z.max (- x) 0 →
  round_decimal s c x = S754_finite s m e.
Proof.
  intros Hb Hc Hval. unfold round_decimal.
  destruct c as [|p|p]; [lia| |lia].
  assert (0 < 10 ^ Z.max x 0) by (apply Z.pow_pos_nonneg; lia).
  assert (0 < 10 ^ Z.max (- x) 0) by (apply Z.pow_pos_nonneg; lia).
  apply SFdiv_exact; [done|].
  rewrite !Z2Pos.id by lia. exact Hval.
Qed.

Lemma trim_spec (fuel : nat) (c x : Z) :
  0 < c →
  0 < (trim fuel c x).1 ∧ x ≤ (trim fuel c x).2 ∧
  c = (trim fuel c x).1 * 10 ^ ((trim fuel c x).2 - x).
Proof.
  revert c x. induction fuel as [|fuel IH]; intros c x Hc; simpl.
  { rewrite Z.sub_diag. simpl. lia. }
  destruct (c mod 10 =? 0) eqn:Hmod; simpl.
  2:{ rewrite Z.sub_diag. simpl. lia. }
  apply Z.eqb_eq in Hmod.
  assert (c = 10 * (c / 10)) as Hdiv by (apply Z_div_exact_full_2; lia).
  destruct (IH (c / 10) (x + 1)) as (H1 & H2 & H3); [lia|].
  split; [done|]. split; [lia|].
  rewrite Hdiv at 1. rewrite H3 at 1.
  replace ((trim fuel (c / 10) (x + 1)).2 - x)
    with (Z.succ ((trim fuel (c / 10) (x + 1)).2 - (x + 1))) by lia.
  rewrite Z.pow_succ_r by lia. ring.
Qed.

Lemma pow10_split (n : Z) : 0 ≤ n → 10 ^ n = 2 ^ n * 5 ^ n.
Proof. intros Hn. by rewrite <- Z.pow_mul_l. Qed.

(** The exact decimal of a float, trimmed, rounds to that float. *)
Lemma exact_decimal_reads_back (s : bool) (m : positive) (e : Z) (fuel : nat) :
  bounded prec32 emax32 m e = true →
  round_decimal s
    (trim fuel (exact_decimal m e).1 (exact_decimal m e).2).1
    (trim fuel (exact_decimal m e).1 (exact_decimal m e).2).2 =
    S754_finite s m e.
Proof.
  intros Hb. unfold exact_decimal.
  destruct (0 <=? e) eqn:He; [apply Z.leb_le in He|apply Z.leb_gt in He];
    cbn [fst snd].
  - assert (0 < Zpos m * 2 ^ e) as Hc
      by (assert (0 < 2 ^ e) by (apply Z.pow_pos_nonneg; lia); lia).
    destruct (trim_spec fuel _ 0 Hc) as (H1 & H2 & H3).
    set (c' := (trim fuel (Zpos m * 2 ^ e) 0).1) in *.
    set (x' := (trim fuel (Zpos m * 2 ^ e) 0).2) in *.
    apply round_decimal_exact; [done..|].
    rewrite (Z.max_l x' 0), (Z.max_r (- e) 0), (Z.max_l e 0), (Z.max_r (- x') 0)
      by lia.
    rewrite !Z.pow_0_r, !Z.mul_1_r. rewrite Z.sub_0_r in H3. lia.
  - assert (0 < Zpos m * 5 ^ (- e)) as Hc
      by (assert (0 < 5 ^ (- e)) by (apply Z.pow_pos_nonneg; lia); lia).
    destruct (trim_spec fuel _ e Hc) as (H1 & H2 & H3).
    set (c' := (trim fuel (Zpos m * 5 ^ (- e)) e).1) in *.
    set (x' := (trim fuel (Zpos m * 5 ^ (- e)) e).2) in *.
    apply round_decimal_exact; [done..|].
    rewrite (Z.max_l (- e) 0), (Z.max_r e 0) by lia.
    rewrite Z.pow_0_r, Z.mul_1_r.
    assert (0 < 5 ^ (- e)) as H5 by (apply Z.pow_pos_nonneg; lia).
    assert (0 < 2 ^ (- e)) as H2' by (apply Z.pow_pos_nonneg; lia).
    destruct (Z.le_gt_cases x' 0) as [Hx|Hx].
    + rewrite (Z.max_r x' 0), (Z.max_l (- x') 0), Z.pow_0_r, Z.mul_1_r by lia.
      assert (10 ^ (- e) = 10 ^ (- x') * 10 ^ (x' - e)) as Hsplit.
      { rewrite <- Z.pow_add_r by lia. f_equal. lia. }
      assert (0 < 10 ^ (x' - e)) as Hp by (apply Z.pow_pos_nonneg; lia).
      apply (Z.mul_cancel_r _ _ (10 ^ (x' - e))); [lia|].
      transitivity (Zpos m * 5 ^ (- e) * 2 ^ (- e)); [rewrite H3; ring|].
      rewrite <- Z.mul_assoc, (Z.mul_comm (5 ^ _)), <- pow10_split by lia.
      rewrite Hsplit. ring.
    + rewrite (Z.max_l x' 0), (Z.max_r (- x') 0), Z.pow_0_r, Z.mul_1_r by lia.
      apply (Z.mul_cancel_r _ _ (5 ^ (- e))); [lia|].
      rewrite H3.
      replace (x' - e) with (x' + - e) by lia.
      rewrite Z.pow_add_r by lia. rewrite (pow10_split (- e)) by lia. ring.
Qed.

Lemma float32_eqb_eq (f g : float32) : float32_eqb f g = true → f = g.
Proof.
  destruct f as [s|s| |s m e], g as [t|t| |t n k]; simpl; try discriminate.
  - by intros ->%Bool.eqb_prop.
  - by intros ->%Bool.eqb_prop.
  - done.
  - intros [[->%Bool.eqb_prop ->%Pos.eqb_eq]%andb_prop ->%Z.eqb_eq]%andb_prop.
    done.
Qed.

Lemma candidate_reads_back (f : float32) (neg : bool) (c0 x0 drop c x : Z) :
  candidate f neg c0 x0 drop = Some (c, x) → reads_back f neg c x = true.
Proof.
  unfold candidate.
  destruct (reads_back f neg (c0 / 10 ^ drop) (x0 + drop)) eqn:Hd,
           (reads_back f neg (c0 / 10 ^ drop + 1) (x0 + drop)) eqn:Hu;
    try discriminate.
  - destruct (_ || _); by intros [= <- <-].
  - by intros [= <- <-].
  - by intros [= <- <-].
Qed.

Lemma shortest_reads_back (steps : nat) (f : float32) (neg : bool)
    (c0 x0 drop : Z) :
  shortest steps f neg c0 x0 drop = (c0, x0) ∨
  reads_back f neg (shortest steps f neg c0 x0 drop).1
    (shortest steps f neg c0 x0 drop).2 = true.
Proof.
  revert drop. induction steps as [|steps IH]; intros drop; [by left|].
  simpl. destruct (candidate f neg c0 x0 drop) as [[c x]|] eqn:Hc.
  - right. by eapply candidate_reads_back.
  - apply IH.
Qed.

(** The decimal that [FormatFloat32] writes for a finite number rounds to
    that number. *)
Lemma written_decimal_reads_back (neg : bool) (m : positive) (e : Z) :
  bounded prec32 emax32 m e = true →
  let f := S754_finite neg m e in
  let c0 := (exact_decimal m e).1 in
  let x0 := (exact_decimal m e).2 in
  let n0 := nb_digits c0 in
  let d := shortest (n0 - 1) f neg c0 x0 (Z.of_nat n0 - 1) in
  round_decimal neg (trim (nb_digits d.1) d.1 d.2).1
    (trim (nb_digits d.1) d.1 d.2).2 = f.
Proof.
  intros Hb f c0 x0 n0 d.
  destruct (shortest_reads_back (n0 - 1) f neg c0 x0 (Z.of_nat n0 - 1))
    as [Heq|Hrb]; fold d in Heq || fold d in Hrb.
  - rewrite Heq. cbn [fst snd]. by apply exact_decimal_reads_back.
  - unfold reads_back in Hrb.
    destruct (trim (nb_digits d.1) d.1 d.2) as [c' x']. cbn [fst snd].
    by apply float32_eqb_eq.
Qed.

End Shortest.

Section Digits.

Lemma rev_revapp (a b : uint) : Decimal.rev (revapp a b) = revapp b a.
Proof.
  apply to_list_inj.
  rewrite rev_spec, !revapp_spec, !List.rev_append_rev.
  by rewrite List.rev_app_distr, List.rev_involutive.
Qed.

Lemma usize_nb_digits (d : uint) :
  DecimalPos.Unsigned.usize d = N.of_nat (Decimal.nb_digits d).
Proof. induction d; simpl; rewrite ?IHd; lia. Qed.

(** The value of two digit strings written one after the other. *)
Lemma of_uint_app (d1 d2 : uint) :
  (N.of_uint (Decimal.app d1 d2) =
     N.of_uint d1 * 10 ^ N.of_nat (Decimal.nb_digits d2) + N.of_uint d2)%N.
Proof.
  unfold N.of_uint, Decimal.app.
  rewrite !DecimalPos.Unsigned.of_uint_alt, rev_revapp.
  rewrite DecimalPos.Unsigned.of_lu_revapp, usize_nb_digits. lia.
Qed.

Lemma of_uint_zeros (z : nat) (d : uint) :
  N.of_uint (Nat.iter z D0 d) = N.of_uint d.
Proof. induction z as [|z IH]; [done|]. simpl. exact IH. Qed.

Lemma app_D (d1 d2 : uint) :
  Decimal.app (D0 d1) d2 = D0 (Decimal.app d1 d2) ∧ Decimal.app (D1 d1) d2 = D1 (Decimal.app d1 d2) ∧
  Decimal.app (D2 d1) d2 = D2 (Decimal.app d1 d2) ∧ Decimal.app (D3 d1) d2 = D3 (Decimal.app d1 d2) ∧
  Decimal.app (D4 d1) d2 = D4 (Decimal.app d1 d2) ∧ Decimal.app (D5 d1) d2 = D5 (Decimal.app d1 d2) ∧
  Decimal.app (D6 d1) d2 = D6 (Decimal.app d1 d2) ∧ Decimal.app (D7 d1) d2 = D7 (Decimal.app d1 d2) ∧
  Decimal.app (D8 d1) d2 = D8 (Decimal.app d1 d2) ∧ Decimal.app (D9 d1) d2 = D9 (Decimal.app d1 d2).
Proof.
  repeat split; apply to_list_inj; rewrite app_spec; simpl;
    by rewrite app_spec.
Qed.

Lemma string_of_uint_app (d1 d2 : uint) :
  NilEmpty.string_of_uint (Decimal.app d1 d2) =
    NilEmpty.string_of_uint d1 +:+ NilEmpty.string_of_uint d2.
Proof.
    induction d1 as [|d1 IH|d1 IH|d1 IH|d1 IH|d1 IH|d1 IH|d1 IH|d1 IH|d1 IH|d1 IH];
    [by rewrite DecimalFacts.app_nil_l|..];
    destruct (app_D d1 d2) as (H0 & H1 & H2 & H3 & H4 & H5 & H6 & H7 & H8 & H9);
    rewrite ?H0, ?H1, ?H2, ?H3, ?H4, ?H5, ?H6, ?H7, ?H8, ?H9;
    simpl; by rewrite IH.
Qed.

Lemma string_of_uint_length (d : uint) :
  String.length (NilEmpty.string_of_uint d) = Decimal.nb_digits d.
Proof. induction d; simpl; by rewrite ?IHd. Qed.

Lemma zeros_uint (z : nat) :
  zeros z = NilEmpty.string_of_uint (Nat.iter z D0 Nil).
Proof. induction z as [|z IH]; [done|]. simpl. by rewrite IH. Qed.

Lemma to_uint_head (p : positive) (d : uint) : Pos.to_uint p ≠ D0 d.
Proof.
  intros Hd.
  assert (unorm (Pos.to_uint p) = Pos.to_uint p) as Hn.
  { rewrite <- (DecimalPos.Unsigned.to_of (Pos.to_uint p)).
    by rewrite DecimalPos.Unsigned.of_to. }
  rewrite Hd, unorm_D0 in Hn.
  assert (d = Nil ∨ d ≠ Nil) as [->|Hnil] by (destruct d; auto).
  - by apply (DecimalPos.Unsigned.to_uint_nonzero p).
  - pose proof (nb_digits_unorm d Hnil) as Hle.
    rewrite Hn in Hle. simpl in Hle. lia.
Qed.

Lemma of_uint_lower (d : uint) :
  (∀ d', d ≠ D0 d') → d ≠ Nil →
  (10 ^ N.of_nat (Decimal.nb_digits d - 1) ≤ N.of_uint d)%N.
Proof.
  intros Hhead Hnil.
  assert (∀ j t, d = Decimal.app j t → Decimal.nb_digits j = 1%nat →
            (1 ≤ N.of_uint j)%N →
            (10 ^ N.of_nat (Decimal.nb_digits d - 1) ≤ N.of_uint d)%N) as Hgen.
  { intros j t -> Hj Hone. rewrite of_uint_app.
    assert (Decimal.nb_digits (Decimal.app j t) = S (Decimal.nb_digits t)) as ->.
    { rewrite !nb_digits_spec, app_spec, List.length_app, <- !nb_digits_spec.
      lia. }
    replace (S (Decimal.nb_digits t) - 1)%nat with (Decimal.nb_digits t) by lia.
    nia. }
  destruct d as [|d|d|d|d|d|d|d|d|d|d]; [done|by destruct (Hhead d)|..].
  - apply (Hgen (D1 Nil) d); [|done|done].
    destruct (app_D Nil d) as (_ & -> & _). by rewrite DecimalFacts.app_nil_l.
  - apply (Hgen (D2 Nil) d); [|done|done].
    destruct (app_D Nil d) as (_ & _ & -> & _). by rewrite DecimalFacts.app_nil_l.
  - apply (Hgen (D3 Nil) d); [|done|done].
    destruct (app_D Nil d) as (_ & _ & _ & -> & _). by rewrite DecimalFacts.app_nil_l.
  - apply (Hgen (D4 Nil) d); [|done|done].
    destruct (app_D Nil d) as (_ & _ & _ & _ & -> & _). by rewrite DecimalFacts.app_nil_l.
  - apply (Hgen (D5 Nil) d); [|done|done].
    destruct (app_D Nil d) as (_ & _ & _ & _ & _ & -> & _). by rewrite DecimalFacts.app_nil_l.
  - apply (Hgen (D6 Nil) d); [|done|done].
    destruct (app_D Nil d) as (_ & _ & _ & _ & _ & _ & -> & _).
    by rewrite DecimalFacts.app_nil_l.
  - apply (Hgen (D7 Nil) d); [|done|done].
    destruct (app_D Nil d) as (_ & _ & _ & _ & _ & _ & _ & -> & _).
    by rewrite DecimalFacts.app_nil_l.
  - apply (Hgen (D8 Nil) d); [|done|done].
    destruct (app_D Nil d) as (_ & _ & _ & _ & _ & _ & _ & _ & -> & _).
    by rewrite DecimalFacts.app_nil_l.
  - apply (Hgen (D9 Nil) d); [|done|done].
    destruct (app_D Nil d) as (_ & _ & _ & _ & _ & _ & _ & _ & _ & ->).
    by rewrite DecimalFacts.app_nil_l.
Qed.

(** A number below [10^k] has at most [k] digits. *)
Lemma nb_digits_bound (n : N) (k : nat) :
  (0 < k)%nat → (n < 10 ^ N.of_nat k)%N →
  (Decimal.nb_digits (N.to_uint n) ≤ k)%nat.
Proof.
  intros Hk Hn. destruct n as [|p]; [simpl; lia|].
  pose proof (of_uint_lower (N.to_uint (Npos p))) as Hlow.
  rewrite DecimalN.Unsigned.of_to in Hlow.
  destruct (Nat.le_gt_cases (Decimal.nb_digits (N.to_uint (Npos p))) k)
    as [|Hgt]; [done|].
  assert (10 ^ N.of_nat k ≤
            10 ^ N.of_nat (Decimal.nb_digits (N.to_uint (Npos p)) - 1))%N.
  { apply N.pow_le_mono_r; lia. }
  assert (10 ^ N.of_nat (Decimal.nb_digits (N.to_uint (N.pos p)) - 1) ≤ N.pos p)%N.
  { apply Hlow.
    - intros d'. simpl. apply to_uint_head.
    - simpl. apply DecimalPos.Unsigned.to_uint_nonnil. }
  lia.
Qed.

End Digits.

Section Reading.

Lemma all_digits_uint (d : uint) : all_digits (NilEmpty.string_of_uint d) = true.
Proof. induction d; simpl; by rewrite ?IHd. Qed.

Lemma all_digits_app (s t : string) :
  all_digits (s +:+ t) = all_digits s && all_digits t.
Proof.
  induction s as [|a s IH]; [done|]. simpl. rewrite IH.
  by rewrite andb_assoc.
Qed.

Lemma is_digit_not_point (a : ascii) :
  is_digit a = true → Ascii.eqb a "."%char = false.
Proof.
  destruct a as [[] [] [] [] [] [] [] []]; try discriminate; reflexivity.
Qed.

Lemma split_point_digits (s : string) :
  all_digits s = true → split_point s = (s, None).
Proof.
  induction s as [|a s IH]; [done|]. simpl.
  intros [Ha Hs]%andb_prop. rewrite is_digit_not_point by done.
  by rewrite IH.
Qed.

Lemma split_point_point (s t : string) :
  all_digits s = true → split_point (s +:+ String "."%char t) = (s, Some t).
Proof.
  induction s as [|a s IH]; [done|]. simpl.
  intros [Ha Hs]%andb_prop. rewrite is_digit_not_point by done.
  by rewrite IH.
Qed.

Lemma append_nil_r (s : string) : s +:+ EmptyString = s.
Proof.
  induction s as [|a s IH]; [done|].
  change (String a (s +:+ EmptyString) = String a s). by rewrite IH.
Qed.

Lemma length_append (s t : string) :
  String.length (s +:+ t) = (String.length s + String.length t)%nat.
Proof.
  induction s as [|a s IH]; [done|].
  change (S (String.length (s +:+ t)) =
          S (String.length s + String.length t)). by rewrite IH.
Qed.

Lemma length_zeros (z : nat) : String.length (zeros z) = z.
Proof. induction z; simpl; auto. Qed.

Lemma digits_nonempty (n : Z) :
  ∃ a rest, digits n = String a rest ∧ is_digit a = true.
Proof.
  unfold digits.
  assert (N.to_uint (Z.to_N n) ≠ Nil) as Hnil.
  { destruct (Z.to_N n); [done|]. simpl.
    apply DecimalPos.Unsigned.to_uint_nonnil. }
  destruct (N.to_uint (Z.to_N n)); [done|..]; simpl; eauto.
Qed.

Lemma ParseFloat32_digit (neg : bool) (a : ascii) (rest : string) :
  is_digit a = true →
  ParseFloat32 ((if neg then "-" else "") +:+ String a rest) =
    parse_unsigned neg (String a rest).
Proof.
  intros Ha. unfold ParseFloat32.
  destruct a as [[] [] [] [] [] [] [] []]; try discriminate; by destruct neg.
Qed.

Lemma ParseFloat32_digit_app (neg : bool) (a : ascii) (rest t : string) :
  is_digit a = true →
  ParseFloat32 ((if neg then "-" else "") +:+ String a rest +:+ t) =
    parse_unsigned neg (String a rest +:+ t).
Proof. intros Ha. by apply (ParseFloat32_digit neg a (rest +:+ t)). Qed.

Lemma round_decimal_scaled (neg : bool) (c x : Z) :
  0 < c → 0 ≤ x → round_decimal neg (c * 10 ^ x) 0 = round_decimal neg c x.
Proof.
  intros Hc Hx. unfold round_decimal.
  assert (0 < 10 ^ x) by (apply Z.pow_pos_nonneg; lia).
  destruct c as [|p|p]; [lia| |lia].
  destruct (Zpos p * 10 ^ x) as [|q|q] eqn:Hq; [lia| |lia].
  rewrite (Z.max_l x 0), (Z.max_r (- x) 0) by lia.
  rewrite <- Hq. simpl Z.max. simpl (10 ^ 0). by rewrite Z.mul_1_r.
Qed.

(** What [fmtF] writes, [ParseFloat32] reads as the same decimal. *)
Lemma ParseFloat32_fmtF (neg : bool) (c x : Z) :
  0 < c →
  is_finite (round_decimal neg c x) = true →
  ParseFloat32 (fmtF neg c x) = Some (round_decimal neg c x).
Proof.
  intros Hc Hfin. unfold fmtF.
  destruct (0 <=? x) eqn:Hx; [apply Z.leb_le in Hx|apply Z.leb_gt in Hx].
  - assert (0 < c * 10 ^ x) as Hn
      by (assert (0 < 10 ^ x) by (apply Z.pow_pos_nonneg; lia); lia).
    destruct (digits_nonempty (c * 10 ^ x)) as (a & rest & Hd & Ha).
    rewrite Hd, ParseFloat32_digit by done. rewrite <- Hd.
    unfold parse_unsigned.
    rewrite split_point_digits by apply all_digits_uint.
    cbn [default]. rewrite append_nil_r.
    rewrite Hd at 1. cbn [String.length Nat.add].
    unfold digits. rewrite NilEmpty.usu, DecimalN.Unsigned.of_to.
    rewrite Z2N.id by lia. cbn [String.length Z.of_nat Z.opp].
    rewrite round_decimal_scaled by done. by rewrite Hfin.
  - set (k := Z.to_nat (- x)).
    assert (0 < k)%nat as Hk by lia.
    assert (10 ^ (- x) = Z.of_N (10 ^ N.of_nat k)) as Hpow.
    { rewrite N2Z.inj_pow. simpl Z.of_N. f_equal. lia. }
    assert (0 < 10 ^ (- x)) as Hp by (apply Z.pow_pos_nonneg; lia).
    set (p := 10 ^ (- x)) in *.
    pose proof (Z.mod_pos_bound c p Hp) as [Hr1 Hr2].
    pose proof (Z.div_pos c p ltac:(lia) Hp) as Hq.
    assert (Decimal.nb_digits (N.to_uint (Z.to_N (c mod p))) ≤ k)%nat as Hlen.
    { apply nb_digits_bound; [done|]. lia. }
    destruct (digits_nonempty (c / p)) as (a & rest & Hd & Ha).
    rewrite Hd, ParseFloat32_digit_app by done. rewrite <- Hd.
    unfold parse_unsigned.
    change ("." +:+ ?t) with (String "."%char t).
    rewrite split_point_point by apply all_digits_uint.
    cbn [default]. unfold id.
    assert (String.length (pad k (digits (c mod p))) = k) as Hpad.
    { unfold pad. rewrite length_append, length_zeros.
      unfold digits. rewrite string_of_uint_length. lia. }
    rewrite Hpad.
    destruct (String.length (digits (c / p)) + k)%nat as [|n] eqn:Hsum; [lia|].
    unfold pad, digits. rewrite zeros_uint, <- !string_of_uint_app.
    rewrite NilEmpty.usu, !of_uint_app, of_uint_zeros.
    rewrite !DecimalN.Unsigned.of_to.
    rewrite !nb_digits_spec, !app_spec, !List.length_app, <- !nb_digits_spec.
    rewrite nb_digits_iter_D0. cbn [Decimal.nb_digits].
    rewrite string_of_uint_length.
    replace (k - Decimal.nb_digits (N.to_uint (Z.to_N (c mod p))) + 0 +
             Decimal.nb_digits (N.to_uint (Z.to_N (c mod p))))%nat
      with k by lia.
    match goal with |- context [Z.of_N ?n] => replace (Z.of_N n) with c end.
    2:{ change (N.of_uint Nil) with 0%N.
        rewrite N2Z.inj_add, N2Z.inj_mul, <- Hpow, N.mul_0_l, N.add_0_l.
        rewrite !Z2N.id by lia. rewrite (Z.div_mod c p) at 1 by lia.
        lia. }
    replace (- Z.of_nat k) with x by lia. by rewrite Hfin.
Qed.

End Reading.

Lemma round_decimal_positive (neg s : bool) (c x : Z) (m : positive) (e : Z) :
  round_decimal neg c x = S754_finite s m e → 0 < c.
Proof. unfold round_decimal. destruct c; [discriminate|lia|discriminate]. Qed.

Lemma FormatFloat32_reads_back (f : float32) :
  valid_binary prec32 emax32 f = true →
  ParseFloat32 (convertFloat32ToString f) = Some f.
Proof.
  intros Hv.
  destruct f as [s|s| |neg m e];
    [destruct s; vm_compute; reflexivity
    |destruct s; vm_compute; reflexivity
    |vm_compute; reflexivity|].
  simpl in Hv.
  pose proof (written_decimal_reads_back neg m e Hv) as Hrb.
  cbv zeta in Hrb.
  unfold convertFloat32ToString, FormatFloat32.
  destruct (exact_decimal m e) as [c0 x0]. cbn [fst snd] in Hrb.
  destruct (shortest _ _ neg c0 x0 _) as [c x]. cbn [fst snd] in Hrb.
  destruct (trim (nb_digits c) c x) as [c' x']. cbn [fst snd] in Hrb.
  rewrite ParseFloat32_fmtF; [by rewrite Hrb| |by rewrite Hrb].
  by eapply round_decimal_positive.
Qed.

Lemma digits_shape (n : Z) :
  all_digits (digits n) = true ∧ digits n ≠ EmptyString.
Proof.
  split; [apply all_digits_uint|].
  destruct (digits_nonempty n) as (a & rest & -> & _). discriminate.
Qed.

Lemma fmtF_shape (neg : bool) (c x : Z) :
  ∃ i fr,
    fmtF neg c x = (if neg then "-" else "") +:+ i +:+ fr ∧
    all_digits i = true ∧ i ≠ EmptyString ∧
    (fr = EmptyString ∨
     ∃ d, fr = String "."%char d ∧ all_digits d = true ∧ d ≠ EmptyString).
Proof.
  unfold fmtF. destruct (0 <=? x).
  - exists (digits (c * 10 ^ x)), EmptyString.
    rewrite append_nil_r. destruct (digits_shape (c * 10 ^ x)). auto.
  - cbv zeta.
    exists (digits (c / 10 ^ (- x))),
      (String "."%char
         (pad (Z.to_nat (- x)) (digits (c mod 10 ^ (- x))))).
    destruct (digits_shape (c / 10 ^ (- x))) as [H1 H2].
    destruct (digits_shape (c mod 10 ^ (- x))) as [H3 H4].
    split; [done|]. split; [done|]. split; [done|]. right.
    eexists. split; [done|]. unfold pad. rewrite all_digits_app, H3.
    rewrite zeros_uint, all_digits_uint. split; [done|].
    intros Hnil. apply (f_equal String.length) in Hnil.
    rewrite length_append in Hnil.
    destruct (digits (c mod 10 ^ (- x))); [done|]. simpl in Hnil. lia.
Qed.

(** ** Every decimal literal rounds to a float32 *)

Section Valid.

Lemma Zdigits2_bounds (m : Z) :
  0 ≤ m → 0 ≤ Zdigits2 m ∧ m < 2 ^ Zdigits2 m ∧
          (0 < m → 2 ^ (Zdigits2 m - 1) ≤ m).
Proof.
  intros Hm. destruct m as [|p|p]; [simpl; lia| |lia].
  pose proof (digits2_pos_bounds p). simpl. lia.
Qed.

Lemma Zdigits2_mono (a b : Z) : 0 ≤ a ≤ b → Zdigits2 a ≤ Zdigits2 b.
Proof.
  intros [Ha Hab].
  destruct (Zdigits2_bounds a Ha) as (Ha0 & Ha1 & Ha2).
  destruct (Zdigits2_bounds b ltac:(lia)) as (Hb0 & Hb1 & Hb2).
  destruct (Z.eq_dec a 0) as [->|Hne]; [simpl; lia|].
  destruct (Z.le_gt_cases (Zdigits2 a) (Zdigits2 b)) as [|Hgt]; [done|].
  assert (2 ^ Zdigits2 b ≤ 2 ^ (Zdigits2 a - 1)) by (apply Z.pow_le_mono_r; lia).
  lia.
Qed.

(** The digits of a number shifted right. *)
Lemma Zdigits2_div_pow2 (m n : Z) :
  0 < m → 0 ≤ n → n < Zdigits2 m →
  0 < m / 2 ^ n ∧ Zdigits2 (m / 2 ^ n) = Zdigits2 m - n.
Proof.
  intros Hm Hn Hlt.
  destruct (Zdigits2_bounds m ltac:(lia)) as (_ & Hu & Hl). specialize (Hl Hm).
  assert (0 < 2 ^ n) as Hp by (apply Z.pow_pos_nonneg; lia).
  assert (2 ^ (Zdigits2 m - 1 - n) ≤ m / 2 ^ n) as Hlow.
  { apply Z.div_le_lower_bound; [done|].
    rewrite <- Z.pow_add_r by lia.
    replace (n + (Zdigits2 m - 1 - n)) with (Zdigits2 m - 1) by lia. done. }
  assert (m / 2 ^ n < 2 ^ (Zdigits2 m - n)) as Hup.
  { apply Z.div_lt_upper_bound; [done|].
    rewrite <- Z.pow_add_r by lia.
    replace (n + (Zdigits2 m - n)) with (Zdigits2 m) by lia. done. }
  assert (0 < 2 ^ (Zdigits2 m - 1 - n)) by (apply Z.pow_pos_nonneg; lia).
  split; [lia|].
  destruct (m / 2 ^ n) as [|q|q] eqn:Hq; [lia| |lia].
  simpl. apply digits2_unique.
  replace (Zdigits2 m - n - 1) with (Zdigits2 m - 1 - n) by lia. lia.
Qed.

Lemma shr_1_m (mrs : shr_record) :
  0 ≤ shr_m mrs → shr_m (shr_1 mrs) = shr_m mrs / 2.
Proof.
  destruct mrs as [m r s]. cbn [shr_m]. intros Hm.
  destruct m as [|[p|p|]|p]; cbn [shr_1 shr_m]; [done| | |done|lia].
  - apply (Z.div_unique _ _ _ 1); lia.
  - apply (Z.div_unique _ _ _ 0); lia.
Qed.

Lemma shr_iter_m (n : nat) (mrs : shr_record) :
  0 ≤ shr_m mrs →
  shr_m (Nat.iter n shr_1 mrs) = shr_m mrs / 2 ^ Z.of_nat n.
Proof.
  intros Hm. induction n as [|n IH].
  { simpl. by rewrite Z.div_1_r. }
  simpl Nat.iter. rewrite shr_1_m.
  - rewrite IH, Z.div_div by (try apply Z.pow_pos_nonneg; lia).
    rewrite Nat2Z.inj_succ, Z.pow_succ_r by lia. f_equal. lia.
  - rewrite IH. apply Z.div_pos; [lia|apply Z.pow_pos_nonneg; lia].
Qed.

Lemma shr_m_e (mrs : shr_record) (e n : Z) :
  0 ≤ shr_m mrs → 0 ≤ n →
  shr_m (shr mrs e n).1 = shr_m mrs / 2 ^ n ∧ (shr mrs e n).2 = e + n.
Proof.
  intros Hm Hn. unfold shr. destruct n as [|p|p]; [| |lia]; cbn [fst snd].
  - rewrite Z.div_1_r. lia.
  - rewrite iter_pos_nat, shr_iter_m by done.
    by rewrite positive_nat_Z.
Qed.

Lemma shr_record_of_loc_m (m : Z) (l : location) :
  shr_m (shr_record_of_loc m l) = m.
Proof. by destruct l as [|[]]. Qed.

(** One pass of [shr_fexp] on a number that has digits enough: the
    mantissa is cut to the precision, and when something is left it is in
    canonical position. *)
Lemma shr_fexp_pass (m e : Z) (l : location) :
  0 ≤ m → e ≤ fexp32 (Zdigits2 m + e) →
  shr_m (shr_fexp prec32 emax32 m e l).1 =
    m / 2 ^ (fexp32 (Zdigits2 m + e) - e) ∧
  (shr_fexp prec32 emax32 m e l).2 = fexp32 (Zdigits2 m + e) ∧
  (0 < m / 2 ^ (fexp32 (Zdigits2 m + e) - e) →
   fexp32 (Zdigits2 (m / 2 ^ (fexp32 (Zdigits2 m + e) - e)) +
           fexp32 (Zdigits2 m + e)) = fexp32 (Zdigits2 m + e)) ∧
  (m / 2 ^ (fexp32 (Zdigits2 m + e) - e) = 0 →
   fexp32 (Zdigits2 m + e) = -149).
Proof.
  intros Hm He. unfold shr_fexp. rewrite fexp32_eq.
  set (n := fexp32 (Zdigits2 m + e) - e).
  assert (0 ≤ n) as Hn by (unfold n; lia).
  destruct (shr_m_e (shr_record_of_loc m l) e n) as [H1 H2];
    [by rewrite shr_record_of_loc_m|done|].
  rewrite shr_record_of_loc_m in H1.
  split; [done|]. split; [unfold n in *; lia|].
  assert (0 < 2 ^ n) as Hp by (apply Z.pow_pos_nonneg; lia).
  destruct (Zdigits2_bounds m Hm) as (Hd0 & Hu & Hl).
  split.
  - intros Hpos.
    assert (0 < m) as Hm'.
    { destruct (Z.eq_dec m 0) as [->|]; [by rewrite Z.div_0_l in Hpos by lia|lia]. }
    assert (n < Zdigits2 m) as Hlt.
    { destruct (Z.lt_ge_cases n (Zdigits2 m)) as [|Hge]; [done|].
      assert (2 ^ Zdigits2 m ≤ 2 ^ n) by (apply Z.pow_le_mono_r; lia).
      rewrite Z.div_small in Hpos by lia. lia. }
    destruct (Zdigits2_div_pow2 m n Hm' Hn Hlt) as [_ ->].
    f_equal. unfold n. lia.
  - intros Hzero.
    assert (Zdigits2 m ≤ n) as Hle.
    { destruct (Z.le_gt_cases (Zdigits2 m) n) as [|Hgt]; [done|].
      destruct (Z.eq_dec m 0) as [->|Hne]; [simpl in *; lia|].
      destruct (Zdigits2_div_pow2 m n ltac:(lia) Hn Hgt) as [Hpos _]. lia. }
    unfold n, fexp32 in *. lia.
Qed.

Lemma round_nearest_even_range (m : Z) (l : location) :
  m ≤ round_nearest_even m l ≤ m + 1.
Proof. destruct l as [|[]]; simpl; try lia. destruct (Z.even m); lia. Qed.

Lemma fexp32_mono (a b : Z) : a ≤ b → fexp32 a ≤ fexp32 b.
Proof. unfold fexp32. lia. Qed.

(** Rounding gives a well-formed float whenever the number to round has
    digits enough. *)
Lemma binary_round_aux_valid (s : bool) (m e : Z) (l : location) :
  0 ≤ m → e ≤ fexp32 (Zdigits2 m + e) →
  valid_binary prec32 emax32 (binary_round_aux prec32 emax32 s m e l) = true.
Proof.
  intros Hm He. unfold binary_round_aux.
  destruct (shr_fexp_pass m e l Hm He) as (H1 & H2 & H3 & H4).
  destruct (shr_fexp prec32 emax32 m e l) as [mrs' e'].
  cbn [fst snd] in H1, H2. subst e'.
  set (E := fexp32 (Zdigits2 m + e)) in *.
  set (m' := m / 2 ^ (E - e)) in *.
  assert (0 ≤ m') as Hm'
    by (apply Z.div_pos; [lia|apply Z.pow_pos_nonneg; lia]).
  pose proof (round_nearest_even_range (shr_m mrs') (loc_of_shr_record mrs'))
    as Hr.
  set (m1 := round_nearest_even (shr_m mrs') (loc_of_shr_record mrs')) in *.
  rewrite H1 in Hr.
  assert (E ≤ fexp32 (Zdigits2 m1 + E)) as He1.
  { destruct (Z.eq_dec m' 0) as [Hz|Hnz].
    - rewrite (H4 Hz). unfold fexp32. lia.
    - rewrite <- (H3 ltac:(lia)) at 1. apply fexp32_mono.
      pose proof (Zdigits2_mono m' m1 ltac:(lia)). lia. }
  destruct (shr_fexp_pass m1 E loc_Exact ltac:(lia) He1) as (K1 & K2 & K3 & _).
  destruct (shr_fexp prec32 emax32 m1 E loc_Exact) as [mrs'' e''].
  cbn [fst snd] in K1, K2. subst e''.
  destruct (shr_m mrs'') as [|q|q] eqn:Hq; [done| |done].
  destruct (_ <=? _) eqn:Hle; [|done].
  cbn [valid_binary]. unfold bounded, canonical_mantissa.
  rewrite Hle, andb_true_r. apply Z.eqb_eq. rewrite fexp32_eq.
  specialize (K3 ltac:(lia)). rewrite <- K1 in K3. exact K3.
Qed.

(** The quotient computed by the division has digits enough. *)
Lemma SFdiv_core_digits (N D : positive) :
  0 ≤ (SFdiv_core_binary prec32 emax32 (Zpos N) 0 (Zpos D) 0).1.1 ∧
  (SFdiv_core_binary prec32 emax32 (Zpos N) 0 (Zpos D) 0).1.2 ≤
    fexp32 (Zdigits2 (SFdiv_core_binary prec32 emax32 (Zpos N) 0 (Zpos D) 0).1.1 +
            (SFdiv_core_binary prec32 emax32 (Zpos N) 0 (Zpos D) 0).1.2).
Proof.
  unfold SFdiv_core_binary. cbn [Zdigits2]. rewrite fexp32_eq.
  pose proof (digits2_pos_bounds N) as [HN1 HN2].
  pose proof (digits2_pos_bounds D) as [HD1 HD2].
  set (d1 := Zpos (digits2_pos N)) in *.
  set (d2 := Zpos (digits2_pos D)) in *.
  replace (d1 + 0 - (d2 + 0)) with (d1 - d2) by lia.
  replace (0 - 0) with 0 by lia.
  set (e' := Z.min (fexp32 (d1 - d2)) 0).
  replace (0 - e') with (- e') by lia.
  assert (e' ≤ 0) as He0 by (unfold e'; lia).
  assert (match - e' with
          | 0 => Zpos N
          | Zpos _ => Z.shiftl (Zpos N) (- e')
          | Zneg _ => 0
          end = Zpos N * 2 ^ (- e')) as ->.
  { destruct (- e') as [|p|p] eqn:Hs; [by rewrite Z.mul_1_r| |lia].
    by rewrite Z.shiftl_mul_pow2. }
  assert (0 < 2 ^ (- e')) as Hp by (apply Z.pow_pos_nonneg; lia).
  pose proof (Z_div_mod (Zpos N * 2 ^ (- e')) (Zpos D) ltac:(lia)) as Hdm.
  destruct (Z.div_eucl (Zpos N * 2 ^ (- e')) (Zpos D)) as [q r].
  destruct Hdm as [Hdm Hr]. cbn [fst snd].
  assert (0 ≤ q) as Hq by nia.
  split; [done|].
  destruct (Zdigits2_bounds q Hq) as (Hq0 & Hq1 & _).
  assert (d1 - 1 - e' < Zdigits2 q + d2) as Hlt.
  { apply pow2_lt_inv; [unfold d2; lia|].
    replace (d1 - 1 - e') with ((d1 - 1) + - e') by lia.
    rewrite !Z.pow_add_r by (unfold d1, d2; lia).
    assert (0 < 2 ^ Zdigits2 q) by (apply Z.pow_pos_nonneg; lia).
    nia. }
  transitivity (fexp32 (d1 - d2)); [unfold e'; lia|].
  apply fexp32_mono. lia.
Qed.

(** A decimal literal always rounds to a well-formed float. *)
Lemma round_decimal_valid (neg : bool) (c x : Z) :
  valid_binary prec32 emax32 (round_decimal neg c x) = true.
Proof.
  unfold round_decimal. destruct c as [|p|p]; [done| |done].
  unfold SFdiv.
  pose proof (SFdiv_core_digits (Z.to_pos (Zpos p * 10 ^ Z.max x 0))
                (Z.to_pos (10 ^ Z.max (- x) 0))) as [H1 H2].
  destruct (SFdiv_core_binary _ _ _ _ _ _) as [[q e] l].
  by apply binary_round_aux_valid.
Qed.

End Valid.

(** ** Rounding to the nearest float32 *)

Section Nearest.

Lemma new_location_loc (d r : Z) :
  0 < d → 0 ≤ r < d →
  new_location d r = if r =? 0 then loc_Exact else loc_Inexact (2 * r ?= d).
Proof.
  intros Hd Hr. unfold new_location, new_location_even, new_location_odd.
  destruct (Z.even d) eqn:He; [done|].
  destruct (r =? 0); [done|]. f_equal.
  assert (Z.odd d = true) as Ho by (by rewrite <- Z.negb_even, He).
  apply Z.odd_spec in Ho as [k ->].
  destruct (Z.compare_spec (2 * r + 1) (2 * k + 1)),
    (Z.compare_spec (2 * r) (2 * k + 1)); done || lia.
Qed.

Lemma round_nearest_even_rne (a b : Z) :
  0 < b → round_nearest_even (a / b) (loc_of a b) = rne a b.
Proof.
  intros Hb. unfold loc_of, rne.
  pose proof (Z.mod_pos_bound a b Hb) as Hr.
  destruct (Z.eqb_spec (a mod b) 0) as [Hz|Hz].
  - rewrite Hz. replace (2 * 0 ?= b) with Lt
      by (symmetry; apply Z.compare_lt_iff; lia). done.
  - cbn [round_nearest_even]. by destruct (2 * (a mod b) ?= b).
Qed.

Lemma loc_half (m b r : Z) (bit : bool) :
  0 < b → 0 ≤ r < b →
  loc_of_shr_record
    {| shr_m := m; shr_r := bit; shr_s := negb (r =? 0) |} =
    if (if bit then b else 0) + r =? 0 then loc_Exact
    else loc_Inexact (2 * ((if bit then b else 0) + r) ?= b * 2).
Proof.
  intros Hb Hr. destruct bit; destruct (Z.eqb_spec r 0) as [->|Hne];
    cbn [loc_of_shr_record negb].
  - destruct (Z.eqb_spec (b + 0) 0); [lia|].
    by replace (2 * (b + 0) ?= b * 2) with Eq
      by (symmetry; apply Z.compare_eq_iff; lia).
  - destruct (Z.eqb_spec (b + r) 0); [lia|].
    by replace (2 * (b + r) ?= b * 2) with Gt
      by (symmetry; apply Z.compare_gt_iff; lia).
  - done.
  - destruct (Z.eqb_spec (0 + r) 0); [lia|].
    by replace (2 * (0 + r) ?= b * 2) with Lt
      by (symmetry; apply Z.compare_lt_iff; lia).
Qed.

(** One shift to the right keeps track of where the number lies. *)
Lemma shr_1_loc (a b : Z) (mrs : shr_record) :
  0 ≤ a → 0 < b →
  shr_m mrs = a / b → loc_of_shr_record mrs = loc_of a b →
  shr_m (shr_1 mrs) = a / (b * 2) ∧
  loc_of_shr_record (shr_1 mrs) = loc_of a (b * 2).
Proof.
  intros Ha Hb Hm Hl. unfold loc_of in *.
  pose proof (Z.div_mod a b ltac:(lia)) as Hdm.
  pose proof (Z.mod_pos_bound a b Hb) as Hr.
  assert (0 ≤ a / b) as Hq by (apply Z.div_pos; lia).
  remember (a / b) as q eqn:Eq. remember (a mod b) as r eqn:Er.
  clear Eq Er.
  assert (orb (shr_r mrs) (shr_s mrs) = negb (r =? 0)) as Hs.
  { destruct mrs as [m [] []]; cbn [loc_of_shr_record shr_r shr_s orb] in *;
      by destruct (r =? 0). }
  assert (∀ q' (bit : bool),
            q = 2 * q' + (if bit then 1 else 0) →
            a / (b * 2) = q' ∧ a mod (b * 2) = (if bit then b else 0) + r)
    as Hsplit.
  { intros q' bit Hq'.
    assert (a = b * 2 * q' + ((if bit then b else 0) + r)) as Ha'
      by (destruct bit; lia).
    assert (0 ≤ (if bit then b else 0) + r < b * 2) as Hr'
      by (destruct bit; lia).
    split; symmetry.
    - apply (Z.div_unique_pos a (b * 2) q' _ Hr' Ha').
    - apply (Z.mod_unique_pos a (b * 2) q' _ Hr' Ha'). }
  destruct mrs as [m r0 s0]. cbn [shr_m shr_r shr_s] in *. subst m.
  destruct q as [|[p|p|]|p]; cbn [shr_1 shr_m]; rewrite Hs; [| | | |lia].
  - destruct (Hsplit 0 false) as [-> ->]; [done|].
    split; [done|]. by apply (loc_half _ b r false).
  - destruct (Hsplit (Zpos p) true) as [-> ->]; [lia|].
    split; [done|]. by apply (loc_half _ b r true).
  - destruct (Hsplit (Zpos p) false) as [-> ->]; [lia|].
    split; [done|]. by apply (loc_half _ b r false).
  - destruct (Hsplit 0 true) as [-> ->]; [done|].
    split; [done|]. by apply (loc_half _ b r true).
Qed.

Lemma shr_iter_loc (n : nat) (a b : Z) (mrs : shr_record) :
  0 ≤ a → 0 < b →
  shr_m mrs = a / b → loc_of_shr_record mrs = loc_of a b →
  shr_m (Nat.iter n shr_1 mrs) = a / (b * 2 ^ Z.of_nat n) ∧
  loc_of_shr_record (Nat.iter n shr_1 mrs) = loc_of a (b * 2 ^ Z.of_nat n).
Proof.
  intros Ha Hb Hm Hl. induction n as [|n [IH1 IH2]].
  { cbn [Nat.iter]. by rewrite Z.mul_1_r. }
  cbn [Nat.iter]. rewrite Nat2Z.inj_succ, Z.pow_succ_r by lia.
  replace (b * (2 * 2 ^ Z.of_nat n)) with (b * 2 ^ Z.of_nat n * 2) by lia.
  apply shr_1_loc; [done| |done..].
  apply Z.mul_pos_pos; [done|apply Z.pow_pos_nonneg; lia].
Qed.

Lemma loc_of_record (m : Z) (l : location) :
  loc_of_shr_record (shr_record_of_loc m l) = l.
Proof. by destruct l as [|[]]. Qed.

(** One pass of [shr_fexp] on [a / b]: the quotient of [a] by [b] times
    the power of two shifted out, and where the number lies. *)
Lemma shr_fexp_loc (a b e : Z) :
  0 ≤ a → 0 < b → e ≤ fexp32 (Zdigits2 (a / b) + e) →
  shr_m (shr_fexp prec32 emax32 (a / b) e (loc_of a b)).1 =
    a / (b * 2 ^ (fexp32 (Zdigits2 (a / b) + e) - e)) ∧
  loc_of_shr_record (shr_fexp prec32 emax32 (a / b) e (loc_of a b)).1 =
    loc_of a (b * 2 ^ (fexp32 (Zdigits2 (a / b) + e) - e)).
Proof.
  intros Ha Hb He. unfold shr_fexp, shr. rewrite fexp32_eq.
  destruct (fexp32 (Zdigits2 (a / b) + e) - e) as [|p|p] eqn:Hk; [| |lia];
    cbn [fst].
  - rewrite Z.mul_1_r, shr_record_of_loc_m, loc_of_record. done.
  - rewrite iter_pos_nat, <- (positive_nat_Z p).
    apply shr_iter_loc; [done..|apply shr_record_of_loc_m|apply loc_of_record].
Qed.

End Nearest.

Section Magnitude.

Lemma rne_range (a b : Z) : a / b ≤ rne a b ≤ a / b + 1.
Proof.
  unfold rne. destruct (_ ?= _); [destruct (Z.even _)|..]; lia.
Qed.

Lemma Zdigits2_le (m k : Z) : 0 ≤ m → 0 ≤ k → m < 2 ^ k → Zdigits2 m ≤ k.
Proof.
  intros Hm Hk Hlt.
  destruct (Zdigits2_bounds m Hm) as (Hd & _ & Hl).
  destruct (Z.eq_dec m 0) as [->|Hne]; [simpl; lia|].
  destruct (Z.le_gt_cases (Zdigits2 m) k) as [|Hgt]; [done|].
  assert (2 ^ k ≤ 2 ^ (Zdigits2 m - 1)) by (apply Z.pow_le_mono_r; lia).
  lia.
Qed.

Lemma mag_below (M e : Z) :
  0 ≤ M < 2 ^ 24 → -149 ≤ e ≤ 104 → M * 2 ^ (e + 149) < 2 ^ 277.
Proof.
  intros HM He.
  assert (0 < 2 ^ (e + 149)) as Hp by (apply Z.pow_pos_nonneg; lia).
  assert (2 ^ (e + 149) ≤ 2 ^ 253) as Hle by (apply Z.pow_le_mono_r; lia).
  replace (2 ^ 277) with (2 ^ 24 * 2 ^ 253) by (by rewrite <- Z.pow_add_r).
  apply Z.lt_le_trans with (2 ^ 24 * 2 ^ (e + 149)).
  - apply Z.mul_lt_mono_pos_r; lia.
  - apply Z.mul_le_mono_nonneg_l; lia.
Qed.

Lemma mag_above (M e : Z) :
  2 ^ 23 ≤ M → 105 ≤ e → 2 ^ 277 ≤ M * 2 ^ (e + 149).
Proof.
  intros HM He.
  assert (2 ^ 254 ≤ 2 ^ (e + 149)) as Hle by (apply Z.pow_le_mono_r; lia).
  replace (2 ^ 277) with (2 ^ 23 * 2 ^ 254) by (by rewrite <- Z.pow_add_r).
  apply Z.mul_le_mono_nonneg; lia.
Qed.

(** What [binary_round_aux] makes of [a / b * 2^e]: the nearest multiple
    of the last place, or infinity when that is out of range. *)
Lemma binary_round_aux_mag (s : bool) (a b e : Z) :
  0 ≤ a → 0 < b → e ≤ fexp32 (Zdigits2 (a / b) + e) →
  sign_is s (binary_round_aux prec32 emax32 s (a / b) e (loc_of a b)) ∧
  mag (binary_round_aux prec32 emax32 s (a / b) e (loc_of a b)) =
    Z.min (rne a (b * 2 ^ (fexp32 (Zdigits2 (a / b) + e) - e)) *
           2 ^ (fexp32 (Zdigits2 (a / b) + e) + 149))
      (2 ^ 277).
Proof.
  intros Ha Hb He. unfold binary_round_aux.
  assert (0 ≤ a / b) as Hq by (apply Z.div_pos; lia).
  destruct (shr_fexp_pass (a / b) e (loc_of a b) Hq He) as (H1 & H2 & H3 & H4).
  destruct (shr_fexp_loc a b e Ha Hb He) as [L1 L2].
  destruct (shr_fexp prec32 emax32 (a / b) e (loc_of a b)) as [mrs' e'].
  cbn [fst snd] in *. subst e'.
  remember (fexp32 (Zdigits2 (a / b) + e)) as E eqn:HE.
  assert (-149 ≤ E) as HE0 by (subst E; unfold fexp32; lia).
  assert (0 < b * 2 ^ (E - e)) as HB
    by (apply Z.mul_pos_pos; [done|apply Z.pow_pos_nonneg; lia]).
  remember (b * 2 ^ (E - e)) as B eqn:EB.
  rewrite L1, L2, round_nearest_even_rne by done.
  rewrite L1 in H1. rewrite <- H1 in H3, H4.
  clear L1 L2 mrs' HE EB He.
  assert (0 ≤ a / B) as Hm' by (apply Z.div_pos; lia).
  pose proof (rne_range a B) as Hr.
  remember (a / B) as m' eqn:Em'. remember (rne a B) as m1 eqn:Em1.
  clear Em' Em1 H1.
  destruct (Zdigits2_bounds m' Hm') as (Hd0' & Hu' & Hl').
  destruct (Zdigits2_bounds m1 ltac:(lia)) as (Hd0 & Hu & Hl).
  assert (fexp32 (Zdigits2 m1 + E) = E ∧ m1 < 2 ^ 24 ∨
          fexp32 (Zdigits2 m1 + E) = E + 1 ∧ m1 = 2 ^ 24) as Hcase.
  { destruct (Z.eq_dec m' 0) as [Hz|Hnz].
    - left. rewrite (H4 Hz) in *.
      assert (Zdigits2 m1 ≤ 1) by (apply Zdigits2_le; lia).
      split; [unfold fexp32; lia|lia].
    - specialize (H3 ltac:(lia)).
      assert (Zdigits2 m' ≤ 24) as Hd24 by (unfold fexp32 in H3; lia).
      assert (2 ^ Zdigits2 m' ≤ 2 ^ 24) by (apply Z.pow_le_mono_r; lia).
      pose proof (Zdigits2_mono m' m1 ltac:(lia)) as Hmono.
      destruct (Z.eq_dec m1 (2 ^ 24)) as [->|Hne].
      + right. split; [|done]. change (Zdigits2 (2 ^ 24)) with 25.
        unfold fexp32. lia.
      + left. assert (m1 < 2 ^ 24) as Hlt by lia. split; [|done].
        assert (Zdigits2 m1 ≤ 24) by (apply Zdigits2_le; lia).
        unfold fexp32 in *. lia. }
  assert (E ≤ fexp32 (Zdigits2 m1 + E)) as He1 by (destruct Hcase; lia).
  destruct (shr_fexp_pass m1 E loc_Exact ltac:(lia) He1) as (K1 & K2 & _).
  destruct (shr_fexp prec32 emax32 m1 E loc_Exact) as [mrs'' e''].
  cbn [fst snd] in K1, K2. subst e''. rewrite K1.
  assert (0 < 2 ^ (E + 149)) as HP by (apply Z.pow_pos_nonneg; lia).
  destruct Hcase as [[HE2 Hlt]|[HE2 ->]]; rewrite HE2.
  - replace (E - E) with 0 by lia. rewrite Z.div_1_r.
    destruct m1 as [|p|p]; [|clear Hu|lia].
    + cbn [sign_is mag]. split; [done|]. rewrite Z.mul_0_l. lia.
    + destruct (E <=? emax32 - prec32) eqn:Hle.
      * apply Z.leb_le in Hle. unfold emax32, prec32 in Hle.
        cbn [sign_is mag]. split; [done|].
        pose proof (mag_below (Zpos p) E ltac:(lia) ltac:(lia)). lia.
      * apply Z.leb_gt in Hle. unfold emax32, prec32 in Hle.
        cbn [sign_is mag]. split; [done|].
        assert (Zdigits2 (Zpos p) = 24) as Hd
          by (unfold fexp32 in HE2; lia).
        rewrite Hd in Hl. specialize (Hl ltac:(lia)).
        pose proof (mag_above (Zpos p) E ltac:(lia) ltac:(lia)). lia.
  - replace (E + 1 - E) with 1 by lia.
    change (2 ^ 24 / 2 ^ 1) with (Zpos (2 ^ 23)).
    destruct (E + 1 <=? emax32 - prec32) eqn:Hle.
    + apply Z.leb_le in Hle. unfold emax32, prec32 in Hle.
      cbn [sign_is mag]. split; [done|].
      replace (E + 1 + 149) with (1 + (E + 149)) by lia.
      rewrite Z.pow_add_r by lia.
      change (Zpos (2 ^ 23) * (2 ^ 1 * 2 ^ (E + 149)))
        with (2 ^ 23 * (2 * 2 ^ (E + 149))).
      pose proof (mag_below (2 ^ 23) (E + 1) ltac:(lia) ltac:(lia)) as Hb'.
      replace (E + 1 + 149) with (1 + (E + 149)) in Hb' by lia.
      rewrite Z.pow_add_r in Hb' by lia.
      change (2 ^ 24) with (2 ^ 23 * 2). change (2 ^ 1) with 2 in Hb'. lia.
    + apply Z.leb_gt in Hle. unfold emax32, prec32 in Hle.
      cbn [sign_is mag]. split; [done|].
      pose proof (mag_above (2 ^ 24) E ltac:(lia)) as Ha'.
      assert (2 ^ 253 ≤ 2 ^ (E + 149)) by (apply Z.pow_le_mono_r; lia).
      assert (2 ^ 277 = 2 ^ 24 * 2 ^ 253) by (by rewrite <- Z.pow_add_r).
      nia.
Qed.

End Magnitude.

Section Literal.

Lemma rne_scale (a b t : Z) : 0 < b → 0 < t → rne (a * t) (b * t) = rne a b.
Proof.
  intros Hb Ht. unfold rne.
  rewrite Z.div_mul_cancel_r by lia.
  rewrite Zmult_mod_distr_r.
  replace (2 * (a mod b * t) ?= b * t) with (2 * (a mod b) ?= b); [done|].
  destruct (Z.compare_spec (2 * (a mod b)) b);
    destruct (Z.compare_spec (2 * (a mod b * t)) (b * t)); done || nia.
Qed.

Lemma div_eucl_eq (a b : Z) : Z.div_eucl a b = (a / b, a mod b).
Proof. unfold Z.div, Z.modulo. by destruct (Z.div_eucl a b). Qed.

(** The division, before rounding: the quotient at the chosen exponent
    and where the exact value lies. *)
Lemma SFdiv_core_eq (N D : positive) :
  SFdiv_core_binary prec32 emax32 (Zpos N) 0 (Zpos D) 0 =
    (Zpos N *
       2 ^ (- Z.min (fexp32 (Zdigits2 (Zpos N) - Zdigits2 (Zpos D))) 0) /
     Zpos D,
     Z.min (fexp32 (Zdigits2 (Zpos N) - Zdigits2 (Zpos D))) 0,
     loc_of
       (Zpos N *
          2 ^ (- Z.min (fexp32 (Zdigits2 (Zpos N) - Zdigits2 (Zpos D))) 0))
       (Zpos D)).
Proof.
  unfold SFdiv_core_binary. rewrite fexp32_eq.
  replace (Zdigits2 (Zpos N) + 0 - (Zdigits2 (Zpos D) + 0))
    with (Zdigits2 (Zpos N) - Zdigits2 (Zpos D)) by lia.
  replace (0 - 0) with 0 by lia.
  remember (Z.min (fexp32 (Zdigits2 (Zpos N) - Zdigits2 (Zpos D))) 0) as e'
    eqn:He'.
  assert (e' ≤ 0) as He0 by lia. clear He'.
  replace (0 - e') with (- e') by lia.
  assert (match - e' with
          | 0 => Zpos N
          | Zpos _ => Z.shiftl (Zpos N) (- e')
          | Zneg _ => 0
          end = Zpos N * 2 ^ (- e')) as ->.
  { destruct (- e') as [|p|p] eqn:Hs; [by rewrite Z.mul_1_r| |lia].
    by rewrite Z.shiftl_mul_pow2. }
  rewrite div_eucl_eq. unfold loc_of.
  rewrite new_location_loc; [done|lia|].
  apply Z.mod_pos_bound. lia.
Qed.

(** The quotient of two positive integers, rounded to float32: the
    multiple of the last place nearest to it, ties to even, or infinity. *)
Lemma SFdiv_mag (s : bool) (N D : positive) :
  ∃ j,
    last_place (Zpos N * 2 ^ 149) (Zpos D) j ∧
    sign_is s
      (SFdiv prec32 emax32 (S754_finite s N 0) (S754_finite false D 0)) ∧
    mag (SFdiv prec32 emax32 (S754_finite s N 0) (S754_finite false D 0)) =
      Z.min (rne (Zpos N * 2 ^ 149) (Zpos D * 2 ^ j) * 2 ^ j) (2 ^ 277).
Proof.
  pose proof (SFdiv_core_digits N D) as [_ He].
  unfold SFdiv. rewrite xorb_false_r.
  rewrite SFdiv_core_eq in *. cbn [fst snd] in He.
  remember (Z.min (fexp32 (Zdigits2 (Zpos N) - Zdigits2 (Zpos D))) 0) as e'
    eqn:He'.
  assert (-149 ≤ e' ≤ 0) as He0 by (unfold fexp32 in He'; lia). clear He'.
  assert (0 < 2 ^ (- e')) as Hp by (apply Z.pow_pos_nonneg; lia).
  remember (Zpos N * 2 ^ (- e')) as A eqn:EA.
  assert (0 ≤ A) as HA by lia.
  destruct (binary_round_aux_mag s A (Zpos D) e' HA ltac:(lia) He)
    as [Hsign Hmag].
  assert (0 ≤ A / Zpos D) as Hq by (apply Z.div_pos; lia).
  destruct (Zdigits2_bounds (A / Zpos D) Hq) as (Hd0 & Hu & Hl).
  pose proof (Z.div_mod A (Zpos D) ltac:(lia)) as Hdm.
  pose proof (Z.mod_pos_bound A (Zpos D) ltac:(lia)) as Hr.
  remember (A / Zpos D) as q eqn:Eq. remember (A mod Zpos D) as r eqn:Er.
  remember (fexp32 (Zdigits2 q + e')) as E eqn:HE.
  assert (-149 ≤ E) as HE0 by (subst E; unfold fexp32; lia).
  assert (0 < 2 ^ (149 + e')) as Ht by (apply Z.pow_pos_nonneg; lia).
  assert (A * 2 ^ (149 + e') = Zpos N * 2 ^ 149) as HX.
  { subst A. rewrite <- Z.mul_assoc, <- Z.pow_add_r by lia.
    by replace (- e' + (149 + e')) with 149 by lia. }
  exists (E + 149). split; [|split; [done|]].
  - rewrite <- HX. split; [lia|]. split.
    + replace (E + 149 + 24) with ((E + 24 - e') + (149 + e')) by lia.
      assert (Zdigits2 q ≤ E + 24 - e') as Hd by (subst E; unfold fexp32; lia).
      assert (2 ^ Zdigits2 q ≤ 2 ^ (E + 24 - e')) as Hpw
        by (apply Z.pow_le_mono_r; lia).
      rewrite (Z.pow_add_r 2 (E + 24 - e') (149 + e')), Z.mul_assoc by lia.
      apply Z.mul_lt_mono_pos_r; [done|]. nia.
    + intros Hj.
      assert (Zdigits2 q = E + 24 - e') as Hd by (subst E; unfold fexp32 in *; lia).
      assert (0 < q) as Hq0.
      { destruct (Z.eq_dec q 0) as [->|]; [simpl in Hd; lia|lia]. }
      specialize (Hl Hq0). rewrite Hd in Hl.
      replace (E + 24 - e' - 1) with (E + 23 - e') in Hl by lia.
      replace (E + 149 + 23) with ((E + 23 - e') + (149 + e')) by lia.
      rewrite (Z.pow_add_r 2 (E + 23 - e') (149 + e')), Z.mul_assoc by lia.
      apply Z.mul_le_mono_nonneg_r; [lia|]. nia.
  - rewrite Hmag. f_equal. f_equal.
    rewrite <- HX.
    replace (Zpos D * 2 ^ (E + 149))
      with (Zpos D * 2 ^ (E - e') * 2 ^ (149 + e')).
    + symmetry. apply rne_scale; [|done].
      apply Z.mul_pos_pos; [lia|apply Z.pow_pos_nonneg; lia].
    + rewrite <- Z.mul_assoc, <- Z.pow_add_r by lia.
      by replace (E - e' + (149 + e')) with (E + 149) by lia.
Qed.

(** The same for a decimal literal. *)
Lemma round_decimal_mag (neg : bool) (c x : Z) :
  0 < c →
  ∃ j,
    last_place (c * 10 ^ Z.max x 0 * 2 ^ 149) (10 ^ Z.max (- x) 0) j ∧
    sign_is neg (round_decimal neg c x) ∧
    mag (round_decimal neg c x) =
      Z.min (rne (c * 10 ^ Z.max x 0 * 2 ^ 149) (10 ^ Z.max (- x) 0 * 2 ^ j) *
             2 ^ j)
        (2 ^ 277).
Proof.
  intros Hc. unfold round_decimal. destruct c as [|p|p]; [lia| |lia].
  assert (0 < 10 ^ Z.max x 0) by (apply Z.pow_pos_nonneg; lia).
  assert (0 < 10 ^ Z.max (- x) 0) by (apply Z.pow_pos_nonneg; lia).
  destruct (SFdiv_mag neg (Z.to_pos (Zpos p * 10 ^ Z.max x 0))
              (Z.to_pos (10 ^ Z.max (- x) 0))) as (j & Hj & Hs & Hm).
  rewrite !Z2Pos.id in Hj, Hm by lia.
  by exists j.
Qed.

End Literal.

Section Monotone.

Lemma rne_spec (a b : Z) :
  0 < b →
  (2 * rne a b - 1) * b ≤ 2 * a ≤ (2 * rne a b + 1) * b ∧
  (2 * a = (2 * rne a b - 1) * b ∨ 2 * a = (2 * rne a b + 1) * b →
   Z.even (rne a b) = true).
Proof.
  intros Hb. unfold rne.
  pose proof (Z.div_mod a b ltac:(lia)) as Hdm.
  pose proof (Z.mod_pos_bound a b Hb) as Hr.
  remember (a / b) as q eqn:Eq. remember (a mod b) as r eqn:Er.
  clear Eq Er. subst a.
  destruct (Z.compare_spec (2 * r) b) as [He|Hlt|Hgt].
  - destruct (Z.even q) eqn:Hev.
    + split; [nia|]. done.
    + split; [nia|]. intros _. rewrite Z.even_add, Hev. done.
  - split; [nia|]. intros [H|H]; nia.
  - split; [nia|]. intros [H|H]; nia.
Qed.

Lemma rne_mono (a b a' b' : Z) :
  0 < b → 0 < b' → a * b' ≤ a' * b → rne a b ≤ rne a' b'.
Proof.
  intros Hb Hb' Hle.
  destruct (rne_spec a b Hb) as [[H1 _] T1].
  destruct (rne_spec a' b' Hb') as [[_ H2] T2].
  remember (rne a b) as r eqn:Er. remember (rne a' b') as r' eqn:Er'.
  clear Er Er'.
  destruct (Z.le_gt_cases r r') as [|Hgt]; [done|exfalso].
  assert ((2 * r - 1) * (b * b') ≤ (2 * r' + 1) * (b * b')) as Hc.
  { apply Z.le_trans with (2 * a * b'); [nia|].
    apply Z.le_trans with (2 * a' * b); nia. }
  assert (0 < b * b') as Hbb by nia.
  assert (r = r' + 1) as -> by nia.
  assert (2 * a = (2 * (r' + 1) - 1) * b) as E1 by nia.
  assert (2 * a' = (2 * r' + 1) * b') as E2 by nia.
  specialize (T1 (or_introl E1)). specialize (T2 (or_intror E2)).
  rewrite Z.even_add, T2 in T1. done.
Qed.

Lemma rne_le_int (a b n : Z) : 0 < b → a ≤ n * b → rne a b ≤ n.
Proof.
  intros Hb Hle. destruct (rne_spec a b Hb) as [[H1 _] _]. nia.
Qed.

Lemma rne_ge_int (a b n : Z) : 0 < b → n * b ≤ a → n ≤ rne a b.
Proof.
  intros Hb Hle. destruct (rne_spec a b Hb) as [[_ H2] _]. nia.
Qed.

(** Rounding is monotone, also across a change of the last place. *)
Lemma nearest_mono (X D j X' D' j' : Z) :
  0 < D → 0 < D' →
  last_place X D j → last_place X' D' j' →
  X * D' ≤ X' * D →
  rne X (D * 2 ^ j) * 2 ^ j ≤ rne X' (D' * 2 ^ j') * 2 ^ j'.
Proof.
  intros HD HD' (Hj & Hu & Hl) (Hj' & Hu' & Hl') Hle.
  assert (0 < 2 ^ j) as Hp by (apply Z.pow_pos_nonneg; lia).
  assert (0 < 2 ^ j') as Hp' by (apply Z.pow_pos_nonneg; lia).
  assert (j ≤ j') as Hjj.
  { destruct (Z.le_gt_cases j j') as [|Hgt]; [done|exfalso].
    specialize (Hl ltac:(lia)).
    assert (2 ^ (j' + 24) ≤ 2 ^ (j + 23)) as Hpw
      by (apply Z.pow_le_mono_r; lia).
    assert (0 < 2 ^ (j' + 24)) by (apply Z.pow_pos_nonneg; lia).
    assert (X' * D < D * D' * 2 ^ (j + 23)) by nia.
    assert (D * D' * 2 ^ (j + 23) ≤ X * D') by nia.
    lia. }
  destruct (Z.eq_dec j j') as [<-|Hne].
  - apply Z.mul_le_mono_nonneg_r; [lia|].
    apply rne_mono; [nia..|]. nia.
  - specialize (Hl' ltac:(lia)).
    assert (rne X (D * 2 ^ j) ≤ 2 ^ 24) as H1.
    { apply rne_le_int; [nia|].
      rewrite Z.pow_add_r in Hu by lia. nia. }
    assert (2 ^ 23 ≤ rne X' (D' * 2 ^ j')) as H2.
    { apply rne_ge_int; [nia|].
      rewrite Z.pow_add_r in Hl' by lia. nia. }
    apply Z.le_trans with (2 ^ 24 * 2 ^ j); [nia|].
    apply Z.le_trans with (2 ^ 23 * 2 ^ j'); [|nia].
    rewrite <- !Z.pow_add_r by lia. apply Z.pow_le_mono_r; lia.
Qed.

(** A larger literal never rounds to a smaller float32. *)
Lemma round_decimal_mono (neg : bool) (c1 x1 c2 x2 : Z) :
  0 < c1 → 0 < c2 → dle c1 x1 c2 x2 →
  mag (round_decimal neg c1 x1) ≤ mag (round_decimal neg c2 x2).
Proof.
  intros H1 H2 Hle. unfold dle in Hle.
  destruct (round_decimal_mag neg c1 x1 H1) as (j1 & L1 & _ & ->).
  destruct (round_decimal_mag neg c2 x2 H2) as (j2 & L2 & _ & ->).
  assert (0 < 10 ^ Z.max (- x1) 0) by (apply Z.pow_pos_nonneg; lia).
  assert (0 < 10 ^ Z.max (- x2) 0) by (apply Z.pow_pos_nonneg; lia).
  apply Z.min_le_compat_r.
  apply nearest_mono; [done..|].
  assert (0 < 2 ^ 149) by (by apply Z.pow_pos_nonneg).
  nia.
Qed.

Lemma bounded_inv (m : positive) (e : Z) :
  bounded prec32 emax32 m e = true →
  fexp32 (Zpos (digits2_pos m) + e) = e ∧ -149 ≤ e ≤ 104 ∧ Zpos m < 2 ^ 24.
Proof.
  unfold bounded, canonical_mantissa. rewrite fexp32_eq.
  intros [Hc%Z.eqb_eq Hle%Z.leb_le]%andb_true_iff.
  unfold emax32, prec32 in Hle. split; [done|].
  pose proof (digits2_pos_bounds m) as [_ Hu].
  assert (Zpos (digits2_pos m) ≤ 24) by (unfold fexp32 in Hc; lia).
  assert (2 ^ Zpos (digits2_pos m) ≤ 2 ^ 24) by (apply Z.pow_le_mono_r; lia).
  unfold fexp32 in Hc. lia.
Qed.

(** A well-formed float32 is determined by its sign and its magnitude. *)
Lemma mag_inj (s : bool) (f g : float32) :
  valid_binary prec32 emax32 f = true →
  valid_binary prec32 emax32 g = true →
  sign_is s f → sign_is s g → mag f = mag g → f = g.
Proof.
  assert (∀ m e, bounded prec32 emax32 m e = true →
                 0 < Zpos m * 2 ^ (e + 149) < 2 ^ 277) as Hfin.
  { intros m e (_ & He & Hm)%bounded_inv.
    pose proof (mag_below (Zpos m) e ltac:(lia) He).
    assert (0 < 2 ^ (e + 149)) by (apply Z.pow_pos_nonneg; lia). nia. }
  intros Hf Hg Sf Sg Hm.
  destruct f as [sf|sf| |sf mf ef], g as [sg|sg| |sg mg eg];
    cbn [sign_is mag valid_binary] in *; try done; try congruence;
    try (specialize (Hfin _ _ Hf); lia); try (specialize (Hfin _ _ Hg); lia).
  subst sf sg.
  destruct (bounded_inv _ _ Hf) as (Cf & Ef & _).
  destruct (bounded_inv _ _ Hg) as (Cg & Eg & _).
  assert (Zpos (digits2_pos mf) + ef = Zpos (digits2_pos mg) + eg) as Hd.
  { pose proof (Zdigits2_mul_pow2 mf (ef + 149) ltac:(lia)) as D1.
    pose proof (Zdigits2_mul_pow2 mg (eg + 149) ltac:(lia)) as D2.
    rewrite Hm in D1. lia. }
  assert (ef = eg) as -> by (rewrite <- Cf, <- Cg, Hd; done).
  assert (0 < 2 ^ (eg + 149)) by (apply Z.pow_pos_nonneg; lia).
  f_equal. apply Z.mul_cancel_r in Hm; [by injection Hm|lia].
Qed.

(** Between two literals that round to [f], every literal rounds to
    [f]. *)
Lemma round_decimal_between (neg : bool) (c1 x1 c2 x2 c3 x3 : Z) :
  0 < c1 → 0 < c2 → 0 < c3 →
  dle c1 x1 c2 x2 → dle c2 x2 c3 x3 →
  round_decimal neg c3 x3 = round_decimal neg c1 x1 →
  round_decimal neg c2 x2 = round_decimal neg c1 x1.
Proof.
  intros H1 H2 H3 L12 L23 Heq.
  pose proof (round_decimal_mono neg _ _ _ _ H1 H2 L12) as M12.
  pose proof (round_decimal_mono neg _ _ _ _ H2 H3 L23) as M23.
  rewrite Heq in M23.
  destruct (round_decimal_mag neg c1 x1 H1) as (_ & _ & S1 & _).
  destruct (round_decimal_mag neg c2 x2 H2) as (_ & _ & S2 & _).
  apply (mag_inj neg); [apply round_decimal_valid..|done|done|lia].
Qed.

End Monotone.

Section Counting.

Lemma of_lu_upper (d : uint) :
  (DecimalPos.Unsigned.of_lu d < 10 ^ N.of_nat (Decimal.nb_digits d))%N.
Proof.
  induction d;
    cbn [DecimalPos.Unsigned.of_lu Decimal.nb_digits];
    unfold DecimalPos.Unsigned.hd;
    rewrite ?Nat2N.inj_succ, ?N.pow_succ_r'; [simpl; lia|lia..].
Qed.

Lemma of_uint_upper (d : uint) :
  (N.of_uint d < 10 ^ N.of_nat (Decimal.nb_digits d))%N.
Proof.
  unfold N.of_uint. rewrite DecimalPos.Unsigned.of_uint_alt.
  rewrite <- (nb_digits_rev d). apply of_lu_upper.
Qed.

(** A positive number of [n] digits lies between [10^(n-1)] and [10^n]. *)
Lemma nb_digits_range (c : Z) :
  0 < c →
  (1 ≤ nb_digits c)%nat ∧
  10 ^ (Z.of_nat (nb_digits c) - 1) ≤ c < 10 ^ Z.of_nat (nb_digits c).
Proof.
  intros Hc. unfold nb_digits.
  destruct c as [|p|p]; [lia| |lia]. cbn [Z.to_N].
  pose proof (of_uint_upper (N.to_uint (Npos p))) as Hup.
  pose proof (of_uint_lower (N.to_uint (Npos p))) as Hlow.
  rewrite DecimalN.Unsigned.of_to in Hup, Hlow.
  assert (10 ^ N.of_nat (Decimal.nb_digits (N.to_uint (N.pos p)) - 1) ≤ N.pos p)%N
    as Hlo.
  { apply Hlow.
    - intros d'. simpl. apply to_uint_head.
    - simpl. apply DecimalPos.Unsigned.to_uint_nonnil. }
  clear Hlow.
  remember (Decimal.nb_digits (N.to_uint (N.pos p))) as n eqn:En.
  assert (1 ≤ n)%nat as Hn.
  { destruct n; [|lia]. symmetry in En. apply nb_digits_0 in En.
    simpl in En. by apply DecimalPos.Unsigned.to_uint_nonnil in En. }
  split; [done|].
  apply N2Z.inj_le in Hlo. apply N2Z.inj_lt in Hup.
  rewrite N2Z.inj_pow, nat_N_Z in Hlo, Hup.
  rewrite Nat2Z.inj_sub in Hlo by done.
  change (Z.of_N 10) with 10 in *. change (Z.of_N (Npos p)) with (Zpos p) in *.
  change (Z.of_nat 1) with 1 in *. lia.
Qed.

Lemma pow10_pos (n : Z) : 0 ≤ n → 0 < 10 ^ n.
Proof. intros. by apply Z.pow_pos_nonneg. Qed.

Lemma pow10_lt_inv (a b : Z) : 0 ≤ b → 10 ^ a < 10 ^ b → a < b.
Proof.
  intros Hb Hlt. destruct (Z.lt_ge_cases a b) as [|Hge]; [done|].
  assert (10 ^ b ≤ 10 ^ a) by (apply Z.pow_le_mono_r; lia). lia.
Qed.

Lemma nb_digits_le (c : Z) (k : nat) :
  0 < c → c < 10 ^ Z.of_nat k → (nb_digits c ≤ k)%nat.
Proof.
  intros Hc Hlt. destruct (nb_digits_range c Hc) as (Hn & Hlo & _).
  assert (Z.of_nat (nb_digits c) - 1 < Z.of_nat k)
    by (apply pow10_lt_inv; lia).
  lia.
Qed.

Lemma nb_digits_mono (c d : Z) :
  0 < c → c ≤ d → (nb_digits c ≤ nb_digits d)%nat.
Proof.
  intros Hc Hle. apply nb_digits_le; [done|].
  destruct (nb_digits_range d ltac:(lia)) as (_ & _ & Hup). lia.
Qed.

(** The leading digits of a number: cutting [d] digits leaves as many
    digits less. *)
Lemma nb_digits_div (c d : Z) :
  0 < c → 0 ≤ d < Z.of_nat (nb_digits c) →
  10 ^ (Z.of_nat (nb_digits c) - d - 1) ≤ c / 10 ^ d <
    10 ^ (Z.of_nat (nb_digits c) - d).
Proof.
  intros Hc Hd. destruct (nb_digits_range c Hc) as (Hn & Hlo & Hup).
  pose proof (pow10_pos d ltac:(lia)) as Hp.
  split.
  - apply Z.div_le_lower_bound; [done|].
    rewrite <- Z.pow_add_r by lia.
    by replace (d + (Z.of_nat (nb_digits c) - d - 1))
      with (Z.of_nat (nb_digits c) - 1) by lia.
  - apply Z.div_lt_upper_bound; [done|].
    rewrite <- Z.pow_add_r by lia.
    by replace (d + (Z.of_nat (nb_digits c) - d))
      with (Z.of_nat (nb_digits c)) by lia.
Qed.

(** Trimming stops at a digit that is not zero. *)
Lemma trim_done (fuel : nat) (c x : Z) :
  0 < c < 10 ^ Z.of_nat fuel → (trim fuel c x).1 mod 10 ≠ 0.
Proof.
  revert c x. induction fuel as [|fuel IH]; intros c x Hc.
  { simpl in Hc. lia. }
  cbn [trim]. destruct (Z.eqb_spec (c mod 10) 0) as [Hz|Hnz]; [|done].
  apply IH.
  assert (c = 10 * (c / 10)) as Hdiv by (apply Z_div_exact_full_2; lia).
  rewrite Nat2Z.inj_succ, Z.pow_succ_r in Hc by lia. lia.
Qed.

Lemma trim_le (fuel : nat) (c x : Z) : 0 < c → 0 < (trim fuel c x).1 ≤ c.
Proof.
  intros Hc. destruct (trim_spec fuel c x Hc) as (H1 & H2 & H3).
  split; [done|].
  pose proof (pow10_pos ((trim fuel c x).2 - x) ltac:(lia)). nia.
Qed.

(** A power of ten trims to 1. *)
Lemma trim_pow10 (fuel : nat) (k x : Z) :
  0 ≤ k < Z.of_nat fuel → (trim fuel (10 ^ k) x).1 = 1.
Proof.
  intros Hk.
  pose proof (pow10_pos k ltac:(lia)) as Hp.
  assert (10 ^ k < 10 ^ Z.of_nat fuel) as Hlt
    by (apply Z.pow_lt_mono_r; lia).
  pose proof (trim_done fuel (10 ^ k) x ltac:(lia)) as Hnz.
  destruct (trim_spec fuel (10 ^ k) x Hp) as (H1 & H2 & H3).
  remember (trim fuel (10 ^ k) x) as t eqn:Et. clear Et.
  remember (t.2 - x) as j eqn:Ej.
  assert (0 ≤ j) as Hj by lia. clear Ej H2.
  destruct (Z.lt_trichotomy j k) as [Hlt'|[->|Hgt]].
  - exfalso. apply Hnz.
    replace k with (j + (Z.succ (k - j - 1))) in H3 by lia.
    rewrite Z.pow_add_r, Z.pow_succ_r in H3 by lia.
    pose proof (pow10_pos j Hj).
    assert (t.1 = 10 * 10 ^ (k - j - 1)) as -> by nia.
    by rewrite Z.mul_comm, Z_mod_mult.
  - pose proof (pow10_pos k ltac:(lia)). nia.
  - exfalso.
    replace j with (k + (Z.succ (j - k - 1))) in H3 by lia.
    rewrite Z.pow_add_r, Z.pow_succ_r in H3 by lia.
    pose proof (pow10_pos (j - k - 1) ltac:(lia)) as Hr.
    pose proof (pow10_pos k ltac:(lia)) as Hq.
    remember (10 ^ k) as q eqn:Eq. remember (10 ^ (j - k - 1)) as r eqn:Er.
    clear Eq Er.
    assert (q * 1 = q * (t.1 * (10 * r))) as Hc by lia.
    apply Z.mul_cancel_l in Hc; [nia|lia].
Qed.

End Counting.

Section Minimal.

Lemma pow10_norm (x t : Z) :
  t ≤ x →
  10 ^ (x - t) * 10 ^ Z.max (- x) 0 * 10 ^ Z.max t 0 =
    10 ^ Z.max x 0 * 10 ^ Z.max (- t) 0.
Proof. intros Ht. rewrite <- !Z.pow_add_r by lia. f_equal. lia. Qed.

(** Two decimals are compared at a common exponent. *)
Lemma dle_shift (c1 x1 c2 x2 t : Z) :
  t ≤ x1 → t ≤ x2 →
  c1 * 10 ^ (x1 - t) ≤ c2 * 10 ^ (x2 - t) → dle c1 x1 c2 x2.
Proof.
  intros H1 H2 Hle. unfold dle.
  pose proof (pow10_norm x1 t H1) as E1.
  pose proof (pow10_norm x2 t H2) as E2.
  pose proof (pow10_pos (Z.max (- x1) 0) ltac:(lia)) as Q1.
  pose proof (pow10_pos (Z.max (- x2) 0) ltac:(lia)) as Q2.
  pose proof (pow10_pos (Z.max t 0) ltac:(lia)) as Pt.
  pose proof (pow10_pos (Z.max (- t) 0) ltac:(lia)) as Qt.
  remember (10 ^ (x1 - t)) as a1. remember (10 ^ (x2 - t)) as a2.
  remember (10 ^ Z.max x1 0) as p1. remember (10 ^ Z.max x2 0) as p2.
  remember (10 ^ Z.max (- x1) 0) as q1. remember (10 ^ Z.max (- x2) 0) as q2.
  remember (10 ^ Z.max t 0) as pt. remember (10 ^ Z.max (- t) 0) as qt.
  apply (Z.mul_le_mono_pos_r _ _ qt); [done|].
  replace (c1 * p1 * q2 * qt) with (c1 * (p1 * qt) * q2) by ring.
  replace (c2 * p2 * q1 * qt) with (c2 * (p2 * qt) * q1) by ring.
  rewrite <- E1, <- E2.
  replace (c1 * (a1 * q1 * pt) * q2) with (c1 * a1 * (q1 * q2 * pt)) by ring.
  replace (c2 * (a2 * q2 * pt) * q1) with (c2 * a2 * (q1 * q2 * pt)) by ring.
  apply Z.mul_le_mono_nonneg_r; [|done].
  apply Z.lt_le_incl. repeat apply Z.mul_pos_pos; done.
Qed.

Lemma float32_eqb_refl (f : float32) : float32_eqb f f = true.
Proof.
  destruct f as [s|s| |s m e]; cbn [float32_eqb];
    rewrite ?Bool.eqb_reflx, ?Pos.eqb_refl, ?Z.eqb_refl; done.
Qed.

(** Trailing zeros do not change what a literal rounds to. *)
Lemma round_decimal_trim (fuel : nat) (neg : bool) (c x : Z) :
  0 < c →
  round_decimal neg (trim fuel c x).1 (trim fuel c x).2 = round_decimal neg c x.
Proof.
  intros Hc. destruct (trim_spec fuel c x Hc) as (H1 & H2 & H3).
  apply (round_decimal_between neg c x _ _ c x); [done..| | |done].
  - apply (dle_shift _ _ _ _ x); [lia..|].
    rewrite Z.sub_diag, Z.pow_0_r. lia.
  - apply (dle_shift _ _ _ _ x); [lia..|].
    rewrite Z.sub_diag, Z.pow_0_r. lia.
Qed.

Lemma reads_back_iff (f : float32) (neg : bool) (c x : Z) :
  0 < c → reads_back f neg c x = true ↔ round_decimal neg c x = f.
Proof.
  intros Hc. unfold reads_back.
  pose proof (round_decimal_trim (nb_digits c) neg c x Hc) as Ht.
  destruct (trim (nb_digits c) c x) as [c' x']. cbn [fst snd] in Ht.
  rewrite Ht. split; [apply float32_eqb_eq|].
  intros ->. apply float32_eqb_refl.
Qed.

Lemma candidate_inv (f : float32) (neg : bool) (c0 x0 drop c x : Z) :
  candidate f neg c0 x0 drop = Some (c, x) →
  x = x0 + drop ∧ (c = c0 / 10 ^ drop ∨ c = c0 / 10 ^ drop + 1).
Proof.
  unfold candidate.
  destruct (reads_back f neg (c0 / 10 ^ drop) (x0 + drop)),
           (reads_back f neg (c0 / 10 ^ drop + 1) (x0 + drop));
    try discriminate.
  - destruct (_ || _); intros [= <- <-]; auto.
  - intros [= <- <-]; auto.
  - intros [= <- <-]; auto.
Qed.

Lemma candidate_None (f : float32) (neg : bool) (c0 x0 drop : Z) :
  candidate f neg c0 x0 drop = None →
  reads_back f neg (c0 / 10 ^ drop) (x0 + drop) = false ∧
  reads_back f neg (c0 / 10 ^ drop + 1) (x0 + drop) = false.
Proof.
  unfold candidate.
  destruct (reads_back f neg (c0 / 10 ^ drop) (x0 + drop)),
           (reads_back f neg (c0 / 10 ^ drop + 1) (x0 + drop));
    try done.
Qed.

(** If any decimal of [n] digits rounds to [f], so does the exact decimal
    of [f] cut to [n] digits, rounded down or rounded up. *)
Lemma cut_reads_back (f : float32) (neg : bool) (c0 x0 drop c' x' : Z) :
  0 < c0 → round_decimal neg c0 x0 = f →
  0 ≤ drop < Z.of_nat (nb_digits c0) →
  0 < c' → Z.of_nat (nb_digits c') ≤ Z.of_nat (nb_digits c0) - drop →
  round_decimal neg c' x' = f →
  round_decimal neg (c0 / 10 ^ drop) (x0 + drop) = f ∨
  round_decimal neg (c0 / 10 ^ drop + 1) (x0 + drop) = f.
Proof.
  intros Hc0 Hf0 Hdrop Hc' Hn Hf'.
  pose proof (nb_digits_div c0 drop Hc0 Hdrop) as [Hlo Hhi].
  destruct (nb_digits_range c' Hc') as (Hn1 & _ & Hup').
  pose proof (pow10_pos drop ltac:(lia)) as Hp.
  pose proof (Z.div_mod c0 (10 ^ drop) ltac:(lia)) as Hdm.
  pose proof (Z.mod_pos_bound c0 (10 ^ drop) Hp) as Hr.
  pose proof (pow10_pos (Z.of_nat (nb_digits c0) - drop - 1) ltac:(lia)) as Hlo0.
  remember (c0 / 10 ^ drop) as lo eqn:Elo.
  remember (c0 mod 10 ^ drop) as r eqn:Er. clear Elo Er.
  assert (dle lo (x0 + drop) c0 x0) as Dlo.
  { apply (dle_shift _ _ _ _ x0); [lia..|].
    replace (x0 + drop - x0) with drop by lia.
    rewrite Z.sub_diag, Z.pow_0_r. nia. }
  assert (dle c0 x0 (lo + 1) (x0 + drop)) as Dhi.
  { apply (dle_shift _ _ _ _ x0); [lia..|].
    replace (x0 + drop - x0) with drop by lia.
    rewrite Z.sub_diag, Z.pow_0_r. nia. }
  assert (dle c' x' lo (x0 + drop) →
          round_decimal neg lo (x0 + drop) = f) as Hdown.
  { intros D. rewrite <- Hf'.
    apply (round_decimal_between neg c' x' _ _ c0 x0); [lia..|done|done|].
    by rewrite Hf0, Hf'. }
  destruct (Z.le_gt_cases (x0 + drop) x') as [Hx|Hx].
  - pose proof (pow10_pos (x' - (x0 + drop)) ltac:(lia)) as Hq.
    destruct (Z.le_gt_cases (c' * 10 ^ (x' - (x0 + drop))) lo) as [Hle|Hgt].
    + left. apply Hdown.
      apply (dle_shift _ _ _ _ (x0 + drop)); [lia..|].
      rewrite Z.sub_diag, Z.pow_0_r. lia.
    + right. rewrite <- Hf0.
      apply (round_decimal_between neg c0 x0 _ _ c' x'); [lia..|done| |].
      * apply (dle_shift _ _ _ _ (x0 + drop)); [lia..|].
        rewrite Z.sub_diag, Z.pow_0_r. lia.
      * by rewrite Hf0, Hf'.
  - left. apply Hdown.
    apply (dle_shift _ _ _ _ x'); [lia..|].
    rewrite Z.sub_diag, Z.pow_0_r.
    assert (10 ^ 1 ≤ 10 ^ (x0 + drop - x')) as Hten
      by (apply Z.pow_le_mono_r; lia).
    assert (10 ^ Z.of_nat (nb_digits c') ≤ 10 ^ (Z.of_nat (nb_digits c0) - drop))
      as Hpw by (apply Z.pow_le_mono_r; lia).
    replace (Z.of_nat (nb_digits c0) - drop)
      with (Z.succ (Z.of_nat (nb_digits c0) - drop - 1)) in Hpw by lia.
    rewrite Z.pow_succ_r in Hpw by lia.
    change (10 ^ 1) with 10 in Hten. nia.
Qed.

(** The search stops at the first cut that reads back. *)
Lemma shortest_inv (steps : nat) (f : float32) (neg : bool)
    (c0 x0 drop : Z) :
  (shortest steps f neg c0 x0 drop = (c0, x0) ∧
   ∀ d, drop - Z.of_nat steps < d ≤ drop → candidate f neg c0 x0 d = None) ∨
  (∃ d,
     drop - Z.of_nat steps < d ≤ drop ∧
     candidate f neg c0 x0 d = Some (shortest steps f neg c0 x0 drop) ∧
     ∀ d', d < d' ≤ drop → candidate f neg c0 x0 d' = None).
Proof.
  revert drop. induction steps as [|steps IH]; intros drop.
  { left. split; [done|]. intros d Hd. lia. }
  cbn [shortest].
  destruct (candidate f neg c0 x0 drop) as [r|] eqn:Hc.
  - right. exists drop. split; [lia|]. split; [done|]. intros d' Hd'. lia.
  - destruct (IH (drop - 1)) as [[Heq Hnone]|(d & Hd & Hcd & Hnone)].
    + left. split; [done|]. intros d Hd.
      destruct (Z.eq_dec d drop) as [->|]; [done|]. apply Hnone. lia.
    + right. exists d. split; [lia|]. split; [done|]. intros d' Hd'.
      destruct (Z.eq_dec d' drop) as [->|]; [done|]. apply Hnone. lia.
Qed.

Lemma exact_decimal_pos (m : positive) (e : Z) : 0 < (exact_decimal m e).1.
Proof.
  unfold exact_decimal. destruct (0 <=? e) eqn:He; cbn [fst].
  - apply Z.leb_le in He. apply Z.mul_pos_pos; [lia|].
    apply Z.pow_pos_nonneg; lia.
  - apply Z.leb_gt in He. apply Z.mul_pos_pos; [lia|].
    apply Z.pow_pos_nonneg; lia.
Qed.

(** No decimal that rounds to the number has fewer digits than the one
    [FormatFloat32] writes, and that one ends in no zero. *)
Lemma written_decimal_minimal (neg : bool) (m : positive) (e : Z) :
  bounded prec32 emax32 m e = true →
  let f := S754_finite neg m e in
  let c0 := (exact_decimal m e).1 in
  let x0 := (exact_decimal m e).2 in
  let n0 := nb_digits c0 in
  let d := shortest (n0 - 1) f neg c0 x0 (Z.of_nat n0 - 1) in
  let c := (trim (nb_digits d.1) d.1 d.2).1 in
  0 < c ∧ c mod 10 ≠ 0 ∧
  ∀ c' x', 0 < c' → round_decimal neg c' x' = f →
           (nb_digits c ≤ nb_digits c')%nat.
Proof.
  intros Hb f c0 x0 n0 d c.
  pose proof (exact_decimal_pos m e) as Hc0. fold c0 in Hc0.
  assert (round_decimal neg c0 x0 = f) as Hf0
    by apply (exact_decimal_reads_back neg m e 0 Hb).
  destruct (nb_digits_range c0 Hc0) as (Hn0 & Hlo0 & Hup0). fold n0 in Hn0, Hlo0, Hup0.
  assert (∀ t c' x',
            0 < t ≤ Z.of_nat n0 - 1 →
            0 < c' → Z.of_nat (nb_digits c') ≤ Z.of_nat n0 - t →
            round_decimal neg c' x' = f →
            candidate f neg c0 x0 t ≠ None) as Hcut.
  { intros t c' x' Ht Hc' Hn' Hf' Hnone.
    apply candidate_None in Hnone as [Hdown Hup].
    pose proof (nb_digits_div c0 t Hc0 ltac:(fold n0; lia)) as [Hlo _].
    fold n0 in Hlo.
    pose proof (pow10_pos (Z.of_nat n0 - t - 1) ltac:(lia)).
    destruct (cut_reads_back f neg c0 x0 t c' x' Hc0 Hf0 ltac:(fold n0; lia)
                Hc' Hn' Hf') as [Hrb|Hrb].
    - apply reads_back_iff in Hrb; [congruence|lia].
    - apply reads_back_iff in Hrb; [congruence|lia]. }
  assert (0 < d.1 ∧
          ∀ c' x', 0 < c' → round_decimal neg c' x' = f →
                   (nb_digits c ≤ nb_digits c')%nat) as [Hd1 Hmin].
  { destruct (shortest_inv (n0 - 1) f neg c0 x0 (Z.of_nat n0 - 1))
      as [[Heq Hnone]|(t & Ht & Hct & Hnone)]; fold d in Heq || fold d in Hct.
    - subst c. rewrite Heq. cbn [fst snd]. split; [done|].
      intros c' x' Hc' Hf'.
      destruct (trim_le (nb_digits c0) c0 x0 Hc0) as [Hp Hle].
      destruct (Nat.le_gt_cases n0 (nb_digits c')) as [Hge|Hlt].
      + etransitivity; [|exact Hge]. by apply nb_digits_mono.
      + exfalso.
        destruct (nb_digits_range c' Hc') as (Hn' & _).
        apply (Hcut (Z.of_nat n0 - Z.of_nat (nb_digits c')) c' x');
          [lia|done|lia|done|].
        apply Hnone. lia.
    - destruct d as [c1 x1]. apply candidate_inv in Hct as [-> Hc1].
      cbn [fst snd] in *.
      pose proof (nb_digits_div c0 t Hc0 ltac:(fold n0; lia)) as [Hlo Hhi].
      fold n0 in Hlo, Hhi.
      pose proof (pow10_pos (Z.of_nat n0 - t - 1) ltac:(lia)) as Hpp.
      assert (0 < c1) as Hc1p by (destruct Hc1 as [->| ->]; lia).
      split; [done|].
      assert (nb_digits c ≤ n0 - Z.to_nat t)%nat as Hshort.
      { subst c.
        destruct (trim_le (nb_digits c1) c1 (x0 + t) Hc1p) as [Hp Hle].
        destruct (Z.eq_dec c1 (10 ^ (Z.of_nat n0 - t))) as [Hpow|Hne].
        - rewrite Hpow at 2. rewrite trim_pow10; [change (nb_digits 1) with 1%nat; lia|].
          destruct (nb_digits_range c1 Hc1p) as (_ & _ & Hup1).
          rewrite Hpow in Hup1 at 1.
          apply pow10_lt_inv in Hup1; lia.
        - etransitivity; [by apply nb_digits_mono|].
          apply nb_digits_le; [done|].
          replace (Z.of_nat (n0 - Z.to_nat t)) with (Z.of_nat n0 - t) by lia.
          destruct Hc1 as [->| ->]; lia. }
      intros c' x' Hc' Hf'.
      destruct (Nat.le_gt_cases (n0 - Z.to_nat t) (nb_digits c')) as [Hge|Hlt];
        [lia|exfalso].
      destruct (nb_digits_range c' Hc') as (Hn' & _).
      apply (Hcut (Z.of_nat n0 - Z.of_nat (nb_digits c')) c' x');
        [lia|done|lia|done|].
      apply Hnone. lia. }
  split; [|split; [|done]].
  - by apply trim_le.
  - apply trim_done. destruct (nb_digits_range d.1 Hd1) as (_ & _ & Hup). lia.
Qed.

End Minimal.

(** * The claims *)

Lemma format_7_5 : convertFloat32ToString (round_decimal false 75 (-1)) = "7.5".
Proof. vm_compute. reflexivity. Qed.

(** C1.  A lookup that misses, whose provider answers address [A],
    resolvedAddress [B], stations [S1; S2] and temperature 7.5, and whose
    Redis commands all run, answers 200 with the string "7.5" formatted
    from the response; afterwards the store holds "7.5" with a time to live
    of one hour under each of [A], [B], [S1] and [S2]; Redis was read once,
    before the provider was called, and written four times. *)
Theorem miss_populates_all_aliases
    (r : Request) (w : World) (location : string) (status : Z)
    (body : json.text) (A B S1 S2 : string) :
  Values_Get (Query r) "location" = location →
  location ≠ EmptyString →
  store w !! location = None →
  clean 5 (faults w) →
  provider w (provider_url w location) = Response status (Bytes body) →
  json.Unmarshal body =
    inl (APIResponse.mk A B
           (CurrentConditions.mk (round_decimal false 75 (-1)) [S1; S2])) →
  ∃ w',
    weatherHandler r w = ({| StatusCode := StatusOK; Body := "7.5" |}, w') ∧
    convertFloat32ToString (round_decimal false 75 (-1)) = "7.5" ∧
    (∀ key, key ∈ [A; B; S1; S2] →
       store w' !! key = Some {| cached := "7.5"; ttl := time_Hour |}) ∧
    time_Hour = 60 * 60 * 1000000000 ∧
    calls w' =
      calls w ++
      [RedisGet location; HttpGet (provider_url w location);
       RedisSet A "7.5" time_Hour; RedisSet B "7.5" time_Hour;
       RedisSet S1 "7.5" time_Hour; RedisSet S2 "7.5" time_Hour].
Proof.
  pose proof format_7_5 as Hfmt.
  remember (round_decimal false 75 (-1)) as t eqn:Ht. clear Ht.
  intros Hq Hne Hmiss Hc Hp Hu. apply clean_S in Hc as [Hh Hc].
  pose proof (miss_lookup_clean r location w status body _ Hq Hne
                (or_intror (conj Hh Hmiss)) Hp Hu) as Hrun.
  rewrite Handle_locations_eq in Hrun. cbn [APIResponse.Address
    APIResponse.ResolvedAddress APIResponse.CurrentConditions
    CurrentConditions.Stations CurrentConditions.Temp length] in Hrun.
  rewrite Hfmt in Hrun. specialize (Hrun Hc).
  eexists. split; [exact Hrun|].
  split; [exact Hfmt|]. cbn [store calls]. split; [|split; [reflexivity|]].
  - intros key Hkey. by apply writes_lookup.
  - reflexivity.
Qed.

Lemma miss_populates_all_aliases_witness :
  ∃ w',
    weatherHandler (sample_request "London") (sample_world ∅ [] sample_reply) =
      ({| StatusCode := StatusOK; Body := "7.5" |}, w') ∧
    convertFloat32ToString (round_decimal false 75 (-1)) = "7.5" ∧
    (∀ key,
       key ∈ ["London"; "London, England, United Kingdom"; "EGLC"; "EGLL"] →
       store w' !! key = Some {| cached := "7.5"; ttl := time_Hour |}) ∧
    time_Hour = 60 * 60 * 1000000000 ∧
    calls w' =
      calls (sample_world ∅ [] sample_reply) ++
      [RedisGet "London";
       HttpGet (provider_url (sample_world ∅ [] sample_reply) "London");
       RedisSet "London" "7.5" time_Hour;
       RedisSet "London, England, United Kingdom" "7.5" time_Hour;
       RedisSet "EGLC" "7.5" time_Hour; RedisSet "EGLL" "7.5" time_Hour].
Proof.
  apply (miss_populates_all_aliases (sample_request "London")
           (sample_world ∅ [] sample_reply) "London" 200
           (json.Document sample_document)
           "London" "London, England, United Kingdom" "EGLC" "EGLL").
  - reflexivity.
  - discriminate.
  - reflexivity.
  - constructor.
  - reflexivity.
  - vm_compute. reflexivity.
Defined.

(** C2.  A lookup whose key is in the store, and whose [Get] runs, answers
    200 with exactly the stored string; the only call made is that [Get]
    (no provider call, no write) and the store, times to live included, is
    what it was. *)
Theorem cache_hit_short_circuits
    (r : Request) (w : World) (location : string) (e : entry) :
  Values_Get (Query r) "location" = location →
  location ≠ EmptyString →
  mjoin (head (faults w)) = None →
  store w !! location = Some e →
  weatherHandler r w =
    ({| StatusCode := StatusOK; Body := cached e |},
     {| store := store w; faults := tail (faults w); env := env w;
        provider := provider w;
        calls := calls w ++ [RedisGet location];
        logs := logs w |}).
Proof.
  intros Hq Hne Hf He. rewrite (weatherHandler_get r location) by done.
  by rewrite He.
Qed.

Lemma cache_hit_short_circuits_witness :
  weatherHandler (sample_request "London")
    (sample_world {[ "London" := {| cached := "11.25"; ttl := 42 |} ]} []
       sample_reply) =
    ({| StatusCode := StatusOK;
        Body := cached {| cached := "11.25"; ttl := 42 |} |},
     {| store :=
          store (sample_world {[ "London" := {| cached := "11.25"; ttl := 42 |} ]}
                   [] sample_reply);
        faults :=
          tail (faults (sample_world
                          {[ "London" := {| cached := "11.25"; ttl := 42 |} ]}
                          [] sample_reply));
        env :=
          env (sample_world {[ "London" := {| cached := "11.25"; ttl := 42 |} ]}
                 [] sample_reply);
        provider :=
          provider (sample_world
                      {[ "London" := {| cached := "11.25"; ttl := 42 |} ]}
                      [] sample_reply);
        calls :=
          calls (sample_world
                   {[ "London" := {| cached := "11.25"; ttl := 42 |} ]}
                   [] sample_reply) ++ [RedisGet "London"];
        logs :=
          logs (sample_world {[ "London" := {| cached := "11.25"; ttl := 42 |} ]}
                  [] sample_reply) |}).
Proof.
  apply (cache_hit_short_circuits (sample_request "London")
           (sample_world {[ "London" := {| cached := "11.25"; ttl := 42 |} ]} []
              sample_reply) "London" {| cached := "11.25"; ttl := 42 |}).
  - reflexivity.
  - discriminate.
  - reflexivity.
  - reflexivity.
Defined.

(** C7.  A lookup whose [Get] fails for a reason other than "not found",
    that is with an error that is not [redis.Nil], answers 500 with the
    error's text; the only call made is that [Get]: the provider is not
    called and nothing is written. *)
Theorem store_error_propagates
    (r : Request) (w : World) (location msg : string) :
  Values_Get (Query r) "location" = location →
  location ≠ EmptyString →
  head (faults w) = Some (Some msg) →
  redis_Error msg ≠ redis_Nil →
  weatherHandler r w =
    ({| StatusCode := StatusInternalServerError;
        Body := Error (redis_Error msg) |},
     {| store := store w; faults := tail (faults w); env := env w;
        provider := provider w;
        calls := calls w ++ [RedisGet location];
        logs := logs w ++ [Failure (redis_Error msg)] |}).
Proof.
  intros Hq Hne Hf Hnil. unfold weatherHandler. rewrite Hq.
  rewrite decide_False by by apply length_nonempty.
  io. unfold redis_Get, next_fault, record. cbn [faults store]. rewrite Hf.
  cbn [mjoin option_join].
  rewrite decide_False by congruence.
  reflexivity.
Qed.

Lemma store_error_propagates_witness :
  weatherHandler (sample_request "London")
    (sample_world ∅ [Some sample_error] sample_reply) =
    ({| StatusCode := StatusInternalServerError;
        Body := Error (redis_Error sample_error) |},
     {| store := store (sample_world ∅ [Some sample_error] sample_reply);
        faults :=
          tail (faults (sample_world ∅ [Some sample_error] sample_reply));
        env := env (sample_world ∅ [Some sample_error] sample_reply);
        provider :=
          provider (sample_world ∅ [Some sample_error] sample_reply);
        calls :=
          calls (sample_world ∅ [Some sample_error] sample_reply) ++
          [RedisGet "London"];
        logs :=
          logs (sample_world ∅ [Some sample_error] sample_reply) ++
          [Failure (redis_Error sample_error)] |}).
Proof.
  apply (store_error_propagates (sample_request "London")
           (sample_world ∅ [Some sample_error] sample_reply)
           "London" sample_error).
  - reflexivity.
  - discriminate.
  - reflexivity.
  - unfold sample_error, redis_Nil. discriminate.
Defined.

(** An error reply with the text of [redis.Nil] is [redis.Nil] to the
    handler: whatever the store holds under the key, the lookup goes on to
    the provider. *)
Lemma nil_reply_is_a_miss (r : Request) (w : World) (location : string) :
  Values_Get (Query r) "location" = location →
  location ≠ EmptyString →
  head (faults w) = Some (Some (Error redis_Nil)) →
  ∃ rest,
    calls (weatherHandler r w).2 =
      calls w ++
      RedisGet location :: HttpGet (provider_url w location) :: rest.
Proof.
  intros Hq Hne Hf. apply miss_lookup_calls; [done..|]. by left.
Qed.

(** C8.  A lookup whose location parameter is absent or empty answers 400
    and leaves the world as it was: no call to Redis, none to the
    provider. *)
Theorem empty_location_rejected (r : Request) (w : World) :
  Query r !! "location" = None ∨
  Values_Get (Query r) "location" = EmptyString →
  weatherHandler r w =
    ({| StatusCode := StatusBadRequest;
        Body := "missing location query parameter" |}, w).
Proof.
  intros H.
  assert (Values_Get (Query r) "location" = EmptyString) as Hv.
  { destruct H as [H|H]; [|done]. unfold Values_Get. by rewrite H. }
  unfold weatherHandler. by rewrite Hv.
Qed.

Lemma empty_location_rejected_witness :
  weatherHandler (sample_request "") (sample_world ∅ [] sample_reply) =
    ({| StatusCode := StatusBadRequest;
        Body := "missing location query parameter" |},
     sample_world ∅ [] sample_reply).
Proof.
  apply (empty_location_rejected (sample_request "")
           (sample_world ∅ [] sample_reply)).
  right. reflexivity.
Defined.

(** C3.  The alias sequence of a response is its address, its resolved
    address and then its stations as received: nothing is sorted and
    nothing is dropped, so its length is two plus the number of stations.
    When the writes run, [Handle] issues one [Set] per member in that
    order, a repeated alias being written again, and every alias then
    holds the formatted temperature. *)
Theorem alias_sequence
    (A B : string) (St : list string) (t : float32) (w : World) :
  clean (2 + length St) (faults w) →
  Handle_locations (APIResponse.mk A B (CurrentConditions.mk t St)) =
    A :: B :: St ∧
  length (Handle_locations (APIResponse.mk A B (CurrentConditions.mk t St))) =
    (2 + length St)%nat ∧
  (Handle (APIResponse.mk A B (CurrentConditions.mk t St)) w =
     (Ok (Weather.mk (A :: B :: St) t),
      {| store := writes (A :: B :: St) (convertFloat32ToString t) (store w);
         faults := drop (2 + length St) (faults w);
         env := env w; provider := provider w;
         calls :=
           calls w ++
           RedisSet A (convertFloat32ToString t) time_Hour ::
           RedisSet B (convertFloat32ToString t) time_Hour ::
           ((λ s, RedisSet s (convertFloat32ToString t) time_Hour) <$> St);
         logs := logs w |}) ∧
   ∀ key, key ∈ A :: B :: St →
     writes (A :: B :: St) (convertFloat32ToString t) (store w) !! key =
       Some {| cached := convertFloat32ToString t; ttl := time_Hour |}).
Proof.
  pose proof (Handle_locations_eq
                (APIResponse.mk A B (CurrentConditions.mk t St))) as Hl.
  cbn [APIResponse.Address APIResponse.ResolvedAddress
       APIResponse.CurrentConditions CurrentConditions.Stations] in Hl.
  intros Hc. split; [done|]. split; [by rewrite Hl|].
  split; [|intros key Hk; by apply writes_lookup].
  rewrite Handle_eq, Hl. cbv zeta.
  rewrite Handle_range_clean by done. done.
Qed.

Lemma alias_sequence_witness :
  Handle_locations
    (APIResponse.mk "Paris" "Paris"
       (CurrentConditions.mk (S754_zero false) ["LFPG"; "LFPB"; "LFPG"])) =
    "Paris" :: "Paris" :: ["LFPG"; "LFPB"; "LFPG"] ∧
  length
    (Handle_locations
       (APIResponse.mk "Paris" "Paris"
          (CurrentConditions.mk (S754_zero false) ["LFPG"; "LFPB"; "LFPG"]))) =
    (2 + length ["LFPG"; "LFPB"; "LFPG"])%nat ∧
  (Handle
     (APIResponse.mk "Paris" "Paris"
        (CurrentConditions.mk (S754_zero false) ["LFPG"; "LFPB"; "LFPG"]))
     (sample_world ∅ [] GetError) =
     (Ok (Weather.mk ("Paris" :: "Paris" :: ["LFPG"; "LFPB"; "LFPG"])
            (S754_zero false)),
      {| store :=
           writes ("Paris" :: "Paris" :: ["LFPG"; "LFPB"; "LFPG"])
             (convertFloat32ToString (S754_zero false))
             (store (sample_world ∅ [] GetError));
         faults :=
           drop (2 + length ["LFPG"; "LFPB"; "LFPG"])
             (faults (sample_world ∅ [] GetError));
         env := env (sample_world ∅ [] GetError);
         provider := provider (sample_world ∅ [] GetError);
         calls :=
           calls (sample_world ∅ [] GetError) ++
           RedisSet "Paris" (convertFloat32ToString (S754_zero false)) time_Hour ::
           RedisSet "Paris" (convertFloat32ToString (S754_zero false)) time_Hour ::
           ((λ s, RedisSet s (convertFloat32ToString (S754_zero false)) time_Hour)
              <$> ["LFPG"; "LFPB"; "LFPG"]);
         logs := logs (sample_world ∅ [] GetError) |}) ∧
   ∀ key, key ∈ "Paris" :: "Paris" :: ["LFPG"; "LFPB"; "LFPG"] →
     writes ("Paris" :: "Paris" :: ["LFPG"; "LFPB"; "LFPG"])
       (convertFloat32ToString (S754_zero false))
       (store (sample_world ∅ [] GetError)) !! key =
       Some {| cached := convertFloat32ToString (S754_zero false);
               ttl := time_Hour |}).
Proof.
  apply (alias_sequence "Paris" "Paris" ["LFPG"; "LFPB"; "LFPG"]
           (S754_zero false) (sample_world ∅ [] GetError)).
  constructor.
Defined.

(** C4.  A lookup that misses writes only under the aliases of the
    response it received: every other key keeps the entry it had, or stays
    absent, even when a write fails.  When the query string is none of the
    aliases, no entry is written under it: it is still absent afterwards,
    and the same lookup again reads Redis and calls the provider again. *)
Theorem no_cross_location_contamination
    (r : Request) (w : World) (location : string) (status : Z)
    (body : json.text) (A B : string) (St : list string) (t : float32) :
  Values_Get (Query r) "location" = location →
  location ≠ EmptyString →
  store w !! location = None →
  mjoin (head (faults w)) = None →
  provider w (provider_url w location) = Response status (Bytes body) →
  json.Unmarshal body = inl (APIResponse.mk A B (CurrentConditions.mk t St)) →
  (∀ Z, Z ∉ A :: B :: St →
     store (weatherHandler r w).2 !! Z = store w !! Z) ∧
  (location ∉ A :: B :: St →
   store (weatherHandler r w).2 !! location = None ∧
   (mjoin (head (faults (weatherHandler r w).2)) = None →
    ∃ rest,
      calls (weatherHandler r (weatherHandler r w).2).2 =
        calls (weatherHandler r w).2 ++
        RedisGet location :: HttpGet (provider_url w location) :: rest)).
Proof.
  intros Hq Hne Hmiss Hh Hp Hu.
  assert (∀ Z, Z ∉ A :: B :: St →
            store (weatherHandler r w).2 !! Z = store w !! Z) as Hframe.
  { intros Z HZ.
    apply (miss_lookup_frame r location w status body _ Hq Hne
             (or_intror (conj Hh Hmiss)) Hp Hu Z).
    by rewrite Handle_locations_eq. }
  split; [done|]. intros Hout.
  assert (store (weatherHandler r w).2 !! location = None) as Hstill.
  { by rewrite Hframe. }
  split; [done|]. intros Hh'.
  destruct (miss_lookup_calls r location Hq Hne _
              (or_intror (conj Hh' Hstill))) as [rest Hrest].
  exists rest. rewrite Hrest. unfold provider_url.
  destruct (weatherHandler_world r w) as [_ ->]. done.
Qed.

Lemma no_cross_location_contamination_witness :
  (∀ Z, Z ∉ "London" :: "London, England, United Kingdom" :: ["EGLC"; "EGLL"] →
     store (weatherHandler (sample_request "Londres")
              (sample_world ∅ [] sample_reply)).2 !! Z =
       store (sample_world ∅ [] sample_reply) !! Z) ∧
  store (weatherHandler (sample_request "Londres")
           (sample_world ∅ [] sample_reply)).2 !! "Londres" = None ∧
  ∃ rest,
    calls (weatherHandler (sample_request "Londres")
             (weatherHandler (sample_request "Londres")
                (sample_world ∅ [] sample_reply)).2).2 =
      calls (weatherHandler (sample_request "Londres")
               (sample_world ∅ [] sample_reply)).2 ++
      RedisGet "Londres" ::
      HttpGet (provider_url (sample_world ∅ [] sample_reply) "Londres") ::
      rest.
Proof.
  destruct (no_cross_location_contamination (sample_request "Londres")
              (sample_world ∅ [] sample_reply) "Londres" 200
              (json.Document sample_document)
              "London" "London, England, United Kingdom" ["EGLC"; "EGLL"]
              (round_decimal false 75 (-1)))
    as [Hframe Hquery].
  - reflexivity.
  - discriminate.
  - reflexivity.
  - reflexivity.
  - reflexivity.
  - vm_compute. reflexivity.
  - split; [exact Hframe|].
    destruct Hquery as [Hstill Hagain].
    + intros Hin. repeat (apply elem_of_cons in Hin as [Hin|Hin];
                          [discriminate|]).
      by apply elem_of_nil in Hin.
    + split; [exact Hstill|]. apply Hagain. vm_compute. reflexivity.
Defined.

(** C5.  The write loop is not atomic.  When the [k]-th write of a lookup
    that misses fails, the first [k - 1] writes stay in the store, the
    [k]-th is the last [Set] issued, [Handle] returns the Redis error, and
    the caller gets status 500 with the error's text and no temperature. *)
Theorem partial_writes_remain
    (r : Request) (w : World) (location : string) (status : Z)
    (body : json.text) (A B : string) (St : list string) (t : float32)
    (k : nat) (msg : string) :
  Values_Get (Query r) "location" = location →
  location ≠ EmptyString →
  store w !! location = None →
  provider w (provider_url w location) = Response status (Bytes body) →
  json.Unmarshal body = inl (APIResponse.mk A B (CurrentConditions.mk t St)) →
  (1 ≤ k ≤ 2 + length St)%nat →
  clean k (faults w) →
  faults w !! k = Some (Some msg) →
  weatherHandler r w =
    ({| StatusCode := StatusInternalServerError;
        Body := Error (redis_Error msg) |},
     {| store :=
          writes (take (k - 1) (A :: B :: St)) (convertFloat32ToString t)
            (store w);
        faults := drop (S k) (faults w);
        env := env w; provider := provider w;
        calls :=
          calls w ++
          RedisGet location :: HttpGet (provider_url w location) ::
          sets (take k (A :: B :: St)) (convertFloat32ToString t);
        logs := logs w ++ [Failure (redis_Error msg)] |}) ∧
  (∀ key, key ∈ take (k - 1) (A :: B :: St) →
     writes (take (k - 1) (A :: B :: St)) (convertFloat32ToString t) (store w)
       !! key =
       Some {| cached := convertFloat32ToString t; ttl := time_Hour |}) ∧
  (∀ w1, clean (k - 1) (faults w1) →
     faults w1 !! (k - 1)%nat = Some (Some msg) →
     (Handle (APIResponse.mk A B (CurrentConditions.mk t St)) w1).1 =
       Err (redis_Error msg)).
Proof.
  intros Hq Hne Hmiss Hp Hu Hk Hc Hf.
  pose proof (Handle_locations_eq
                (APIResponse.mk A B (CurrentConditions.mk t St))) as Hl.
  cbn [APIResponse.Address APIResponse.ResolvedAddress
       APIResponse.CurrentConditions CurrentConditions.Stations] in Hl.
  set (locs := A :: B :: St) in *.
  assert (length locs = (2 + length St)%nat) as Hlen by done.
  destruct (lookup_lt_is_Some_2 locs (k - 1)) as [key Hkey]; [lia|].
  assert (length (take (k - 1) locs) = (k - 1)%nat) as Htl.
  { rewrite length_take. lia. }
  assert (take k locs = take (k - 1) locs ++ [key]) as Htk.
  { replace k with (S (k - 1)) at 1 by lia. by apply take_S_r. }
  assert (locs = take (k - 1) locs ++ key :: drop (S (k - 1)) locs) as Hsplit.
  { symmetry. by apply take_drop_middle. }
  assert (mjoin (head (faults w)) = None ∧ clean (k - 1) (tail (faults w)))
    as [Hh Hc'].
  { apply clean_S. by replace (S (k - 1)) with k by lia. }
  split; [|split].
  - rewrite (miss_lookup_fault r location w status body _ Hq Hne
               (or_intror (conj Hh Hmiss)) Hp Hu
               (take (k - 1) locs) key (drop (S (k - 1)) locs) msg).
    + cbn [APIResponse.CurrentConditions CurrentConditions.Temp].
      rewrite Htl, Htk. by replace (S (S (k - 1))) with (S k) by lia.
    + by rewrite Hl.
    + by rewrite Htl.
    + rewrite Htl. by replace (S (k - 1)) with k by lia.
  - intros key' Hin. by apply writes_lookup.
  - intros w1 Hc1 Hf1. rewrite Handle_eq, Hl. cbv zeta.
    rewrite Hsplit.
    rewrite (Handle_range_fault _ _ _ _ _ msg); [done|by rewrite Htl..].
Qed.

Lemma partial_writes_remain_witness :
  weatherHandler (sample_request "London")
    (sample_world ∅ [None; None; None; Some "READONLY"] sample_reply) =
    ({| StatusCode := StatusInternalServerError;
        Body := Error (redis_Error "READONLY") |},
     {| store :=
          writes
            (take (3 - 1)
               ("London" :: "London, England, United Kingdom" ::
                ["EGLC"; "EGLL"]))
            (convertFloat32ToString (round_decimal false 75 (-1)))
            (store (sample_world ∅ [None; None; None; Some "READONLY"]
                      sample_reply));
        faults :=
          drop 4
            (faults (sample_world ∅ [None; None; None; Some "READONLY"]
                       sample_reply));
        env :=
          env (sample_world ∅ [None; None; None; Some "READONLY"] sample_reply);
        provider :=
          provider (sample_world ∅ [None; None; None; Some "READONLY"]
                      sample_reply);
        calls :=
          calls (sample_world ∅ [None; None; None; Some "READONLY"]
                   sample_reply) ++
          RedisGet "London" ::
          HttpGet
            (provider_url
               (sample_world ∅ [None; None; None; Some "READONLY"] sample_reply)
               "London") ::
          sets
            (take 3
               ("London" :: "London, England, United Kingdom" ::
                ["EGLC"; "EGLL"]))
            (convertFloat32ToString (round_decimal false 75 (-1)));
        logs :=
          logs (sample_world ∅ [None; None; None; Some "READONLY"]
                  sample_reply) ++ [Failure (redis_Error "READONLY")] |}) ∧
  (∀ key,
     key ∈ take (3 - 1)
             ("London" :: "London, England, United Kingdom" ::
              ["EGLC"; "EGLL"]) →
     writes
       (take (3 - 1)
          ("London" :: "London, England, United Kingdom" :: ["EGLC"; "EGLL"]))
       (convertFloat32ToString (round_decimal false 75 (-1)))
       (store (sample_world ∅ [None; None; None; Some "READONLY"] sample_reply))
       !! key =
       Some {| cached := convertFloat32ToString (round_decimal false 75 (-1));
               ttl := time_Hour |}) ∧
  (Handle
     (APIResponse.mk "London" "London, England, United Kingdom"
        (CurrentConditions.mk (round_decimal false 75 (-1))
           ["EGLC"; "EGLL"]))
     (sample_world ∅ [None; None; Some "READONLY"] sample_reply)).1 =
    Err (redis_Error "READONLY").
Proof.
  destruct (partial_writes_remain (sample_request "London")
           (sample_world ∅ [None; None; None; Some "READONLY"] sample_reply)
           "London" 200 (json.Document sample_document)
           "London" "London, England, United Kingdom" ["EGLC"; "EGLL"]
           (round_decimal false 75 (-1)) 3 "READONLY")
    as (Hrun & Hkept & Hhandle).
  - reflexivity.
  - discriminate.
  - reflexivity.
  - reflexivity.
  - vm_compute. reflexivity.
  - simpl. lia.
  - repeat constructor.
  - reflexivity.
  - split; [exact Hrun|]. split; [exact Hkept|].
    apply Hhandle; [repeat constructor|reflexivity].
Defined.

(** C6.  When the provider call fails, a lookup that misses answers 500
    and writes nothing: with [ErrAPIConnect] when [http.Get] fails, with
    [ErrAPIResponse] when the body cannot be read or cannot be decoded.
    The two errors, and their texts, differ.  The calls made are the [Get]
    and the request to the provider. *)
Theorem provider_failure_surfaces
    (r : Request) (w : World) (location : string) (err : error)
    (causes : list logged) :
  Values_Get (Query r) "location" = location →
  location ≠ EmptyString →
  store w !! location = None →
  mjoin (head (faults w)) = None →
  (provider w (provider_url w location) = GetError ∧
     err = ErrAPIConnect ∧ causes = []) ∨
  (∃ status,
     provider w (provider_url w location) = Response status Unreadable ∧
     err = ErrAPIResponse ∧ causes = [ReadFailure]) ∨
  (∃ status body c,
     provider w (provider_url w location) = Response status (Bytes body) ∧
     json.Unmarshal body = inr c ∧
     err = ErrAPIResponse ∧ causes = [DecodeFailure c]) →
  (callWeatherAPI location w).1 = Err err ∧
  weatherHandler r w =
    ({| StatusCode := StatusInternalServerError; Body := Error err |},
     {| store := store w; faults := tail (faults w); env := env w;
        provider := provider w;
        calls :=
          calls w ++ [RedisGet location; HttpGet (provider_url w location)];
        logs := logs w ++ causes ++ [Failure err] |}) ∧
  ErrAPIConnect ≠ ErrAPIResponse ∧
  Error ErrAPIConnect ≠ Error ErrAPIResponse.
Proof.
  intros Hq Hne Hmiss Hh Hcase. split; [|split; [|done]].
  - rewrite callWeatherAPI_eq.
    destruct Hcase as [(Hp & -> & _)|[(status & Hp & -> & _)|
      (status & body & c & Hp & Hu & -> & _)]]; rewrite Hp; [done..|].
    by rewrite Hu.
  - rewrite (weatherHandler_get r location) by done.
    rewrite Hmiss. cbv zeta. rewrite callWeatherAPI_eq.
    unfold provider_url in *. simpl.
    destruct Hcase as [(Hp & -> & ->)|[(status & Hp & -> & ->)|
      (status & body & c & Hp & Hu & -> & ->)]]; rewrite Hp; [| |rewrite Hu];
      unfold fail, log_Print, record; io; simpl;
      by rewrite <- !app_assoc.
Qed.

Lemma provider_failure_surfaces_witness :
  ((callWeatherAPI "London" (sample_world ∅ [] GetError)).1 =
     Err ErrAPIConnect ∧
   weatherHandler (sample_request "London") (sample_world ∅ [] GetError) =
     ({| StatusCode := StatusInternalServerError;
         Body := Error ErrAPIConnect |},
      {| store := store (sample_world ∅ [] GetError);
         faults := tail (faults (sample_world ∅ [] GetError));
         env := env (sample_world ∅ [] GetError);
         provider := provider (sample_world ∅ [] GetError);
         calls :=
           calls (sample_world ∅ [] GetError) ++
           [RedisGet "London";
            HttpGet (provider_url (sample_world ∅ [] GetError) "London")];
         logs :=
           logs (sample_world ∅ [] GetError) ++ [] ++ [Failure ErrAPIConnect] |}) ∧
   ErrAPIConnect ≠ ErrAPIResponse ∧
   Error ErrAPIConnect ≠ Error ErrAPIResponse) ∧
  ((callWeatherAPI "London"
      (sample_world ∅ [] (Response 200 (Bytes json.Malformed)))).1 =
     Err ErrAPIResponse ∧
   weatherHandler (sample_request "London")
     (sample_world ∅ [] (Response 200 (Bytes json.Malformed))) =
     ({| StatusCode := StatusInternalServerError;
         Body := Error ErrAPIResponse |},
      {| store :=
           store (sample_world ∅ [] (Response 200 (Bytes json.Malformed)));
         faults :=
           tail (faults
                   (sample_world ∅ [] (Response 200 (Bytes json.Malformed))));
         env := env (sample_world ∅ [] (Response 200 (Bytes json.Malformed)));
         provider :=
           provider (sample_world ∅ [] (Response 200 (Bytes json.Malformed)));
         calls :=
           calls (sample_world ∅ [] (Response 200 (Bytes json.Malformed))) ++
           [RedisGet "London";
            HttpGet
              (provider_url
                 (sample_world ∅ [] (Response 200 (Bytes json.Malformed)))
                 "London")];
         logs :=
           logs (sample_world ∅ [] (Response 200 (Bytes json.Malformed))) ++
           [DecodeFailure json.SyntaxError] ++ [Failure ErrAPIResponse] |}) ∧
   ErrAPIConnect ≠ ErrAPIResponse ∧
   Error ErrAPIConnect ≠ Error ErrAPIResponse).
Proof.
  split.
  - apply (provider_failure_surfaces (sample_request "London")
             (sample_world ∅ [] GetError) "London" ErrAPIConnect []).
    + reflexivity.
    + discriminate.
    + reflexivity.
    + reflexivity.
    + left. repeat split.
  - apply (provider_failure_surfaces (sample_request "London")
             (sample_world ∅ [] (Response 200 (Bytes json.Malformed)))
             "London" ErrAPIResponse [DecodeFailure json.SyntaxError]).
    + reflexivity.
    + discriminate.
    + reflexivity.
    + reflexivity.
    + right. right. exists 200, json.Malformed, json.SyntaxError.
      repeat split.
Defined.

Section Decoder.
Import json.

Lemma member_target_other (t : target) (key : string) (v : value) :
  names key "address" = false → names key "resolvedAddress" = false →
  names key "currentConditions" = false →
  member_target (Some t) (key, v) = Some t.
Proof. intros H1 H2 H3. unfold member_target. by rewrite H1, H2, H3. Qed.

Lemma object_bare (members : list (string * value)) (t : target) :
  absent "address" members → absent "resolvedAddress" members →
  absent "currentConditions" members →
  foldl member_target (Some t) members = Some t.
Proof.
  unfold absent. induction members as [|[key v] members IH]; [done|].
  rewrite !Forall_cons. cbn [foldl fst]. intros [H1 ?] [H2 ?] [H3 ?].
  rewrite member_target_other by assumption. apply IH; assumption.
Qed.

Lemma foldl_member_target_None (members : list (string * value)) :
  foldl member_target None members = None.
Proof. by induction members. Qed.

(** A field no member names keeps the value it had. *)
Lemma address_kept (members : list (string * value)) (t t' : target) :
  absent "address" members →
  foldl member_target (Some t) members = Some t' → address t' = address t.
Proof.
  unfold absent. revert t.
  induction members as [|[key v] members IH]; intros t; [by intros _ [= ->]|].
  rewrite Forall_cons. cbn [foldl fst]. intros [H1 Hrest].
  unfold member_target at 2. rewrite H1.
  destruct (names key "resolvedAddress"); [|destruct (names key "currentConditions")].
  - destruct (literal_string v _); [|by rewrite foldl_member_target_None].
    intros Hf. by rewrite (IH _ Hrest Hf).
  - destruct (object_conditions v _); [|by rewrite foldl_member_target_None].
    intros Hf. by rewrite (IH _ Hrest Hf).
  - by apply IH.
Qed.

Lemma resolvedAddress_kept (members : list (string * value)) (t t' : target) :
  absent "resolvedAddress" members →
  foldl member_target (Some t) members = Some t' →
  resolvedAddress t' = resolvedAddress t.
Proof.
  unfold absent. revert t.
  induction members as [|[key v] members IH]; intros t; [by intros _ [= ->]|].
  rewrite Forall_cons. cbn [foldl fst]. intros [H1 Hrest].
  unfold member_target at 2. rewrite H1.
  destruct (names key "address"); [|destruct (names key "currentConditions")].
  - destruct (literal_string v _); [|by rewrite foldl_member_target_None].
    intros Hf. by rewrite (IH _ Hrest Hf).
  - destruct (object_conditions v _); [|by rewrite foldl_member_target_None].
    intros Hf. by rewrite (IH _ Hrest Hf).
  - by apply IH.
Qed.

Lemma currentConditions_kept (members : list (string * value)) (t t' : target) :
  absent "currentConditions" members →
  foldl member_target (Some t) members = Some t' →
  currentConditions t' = currentConditions t.
Proof.
  unfold absent. revert t.
  induction members as [|[key v] members IH]; intros t; [by intros _ [= ->]|].
  rewrite Forall_cons. cbn [foldl fst]. intros [H1 Hrest].
  unfold member_target at 2. rewrite H1.
  destruct (names key "address"); [|destruct (names key "resolvedAddress")].
  - destruct (literal_string v _); [|by rewrite foldl_member_target_None].
    intros Hf. by rewrite (IH _ Hrest Hf).
  - destruct (literal_string v _); [|by rewrite foldl_member_target_None].
    intros Hf. by rewrite (IH _ Hrest Hf).
  - by apply IH.
Qed.

Lemma depth_JArray (items : list value) :
  depth (JArray items) = 1 + foldr (λ item d, Z.max (depth item) d) 0 items.
Proof. reflexivity. Qed.

Lemma depth_JObject (members : list (string * value)) :
  depth (JObject members) =
    1 + foldr (λ kv d, Z.max (depth kv.2) d) 0 members.
Proof. reflexivity. Qed.

Lemma Unmarshal_shallow (v : value) :
  depth v ≤ maxNestingDepth →
  Unmarshal (Document v) =
    match object_target v zero with
    | Some t => inl (loaded t)
    | None => inr UnmarshalTypeError
    end.
Proof. intros Hd%Z.ltb_ge. unfold Unmarshal. by rewrite Hd. Qed.

Lemma Unmarshal_deep (v : value) :
  maxNestingDepth < depth v → Unmarshal (Document v) = inr SyntaxError.
Proof. intros Hd%Z.ltb_lt. unfold Unmarshal. by rewrite Hd. Qed.

Lemma Unmarshal_bare (v : value) :
  bare v → depth v ≤ maxNestingDepth →
  Unmarshal (Document v) = inl zero_response.
Proof.
  intros Hbare Hd. rewrite Unmarshal_shallow by done.
  destruct Hbare as [->|(members & -> & H1 & H2 & H3)]; [done|].
  unfold object_target.
  rewrite object_bare; [reflexivity|assumption..].
Qed.
End Decoder.

Lemma bad_response_iff (location : string) (w : World) :
  (callWeatherAPI location w).1 = Err ErrAPIResponse ↔
  (∃ status,
     provider w (provider_url w location) = Response status Unreadable) ∨
  (∃ status body c,
     provider w (provider_url w location) = Response status (Bytes body) ∧
     json.Unmarshal body = inr c).
Proof.
  rewrite callWeatherAPI_eq. cbv zeta.
  destruct (provider w (provider_url w location)) as [|status [|body]].
  - simpl. split; [done|]. by intros [[? ?]|(? & ? & ? & ? & ?)].
  - simpl. split; [|done]. intros _. left. by eexists.
  - destruct (json.Unmarshal body) as [api|c] eqn:Hu; simpl.
    + split; [done|]. intros [[? ?]|(? & ? & ? & [= _ <-] & ?)]; congruence.
    + split; [|done]. intros _. right. by exists status, body, c.
Qed.

Lemma status_not_inspected (location : string) (w w' : World)
    (status status' : Z) (body : payload) :
  env w' = env w →
  provider w (provider_url w location) = Response status body →
  provider w' (provider_url w' location) = Response status' body →
  (callWeatherAPI location w').1 = (callWeatherAPI location w).1.
Proof.
  intros He Hp Hp'. rewrite !callWeatherAPI_eq. cbv zeta.
  rewrite Hp, Hp'. destruct body as [|data]; [done|].
  by destruct (json.Unmarshal data).
Qed.

Lemma format_zero : convertFloat32ToString (S754_zero false) = "0".
Proof. reflexivity. Qed.

(** C10, amended.  The provider call fails with [ErrAPIResponse] exactly
    when the body cannot be read or cannot be decoded; the status code
    plays no part; a field that no member names keeps its zero value.  So
    a reply of any status whose body is [null] or an object carrying none
    of the three fields, and nesting no deeper than the decoder allows, is
    a success: the lookup writes "0" under the empty key, twice, and
    answers 200 with "0". *)
Theorem bare_reply_answers_zero
    (r : Request) (w : World) (location : string) (status : Z)
    (v : json.value) :
  Values_Get (Query r) "location" = location →
  location ≠ EmptyString →
  store w !! location = None →
  clean 3 (faults w) →
  provider w (provider_url w location) =
    Response status (Bytes (json.Document v)) →
  bare v →
  json.depth v ≤ json.maxNestingDepth →
  json.Unmarshal (json.Document v) = inl zero_response ∧
  weatherHandler r w =
    ({| StatusCode := StatusOK; Body := "0" |},
     {| store := writes [EmptyString; EmptyString] "0" (store w);
        faults := drop 3 (faults w);
        env := env w; provider := provider w;
        calls :=
          calls w ++
          [RedisGet location; HttpGet (provider_url w location);
           RedisSet EmptyString "0" time_Hour;
           RedisSet EmptyString "0" time_Hour];
        logs := logs w |}) ∧
  writes [EmptyString; EmptyString] "0" (store w) !! EmptyString =
    Some {| cached := "0"; ttl := time_Hour |} ∧
  (∀ w0 location0,
     (callWeatherAPI location0 w0).1 = Err ErrAPIResponse ↔
     (∃ status0,
        provider w0 (provider_url w0 location0) =
          Response status0 Unreadable) ∨
     (∃ status0 body c,
        provider w0 (provider_url w0 location0) =
          Response status0 (Bytes body) ∧
        json.Unmarshal body = inr c)) ∧
  (∀ w0 w1 location0 status0 status1 body,
     env w1 = env w0 →
     provider w0 (provider_url w0 location0) = Response status0 body →
     provider w1 (provider_url w1 location0) = Response status1 body →
     (callWeatherAPI location0 w1).1 = (callWeatherAPI location0 w0).1) ∧
  (∀ members t,
     json.object_target (json.JObject members) json.zero = Some t →
     (absent "address" members → json.address t = EmptyString) ∧
     (absent "resolvedAddress" members →
      json.resolvedAddress t = EmptyString) ∧
     (absent "currentConditions" members →
      json.currentConditions t = json.currentConditions json.zero)).
Proof.
  intros Hq Hne Hmiss Hc Hp Hbare Hdepth.
  pose proof (Unmarshal_bare v Hbare Hdepth) as Hu.
  split; [done|]. split; [|split; [by apply writes_lookup; left|]].
  - apply clean_S in Hc as [Hh Hc].
    rewrite (miss_lookup_clean r location w status _ _ Hq Hne
               (or_intror (conj Hh Hmiss)) Hp Hu).
    + by rewrite Handle_locations_eq.
    + by rewrite Handle_locations_eq.
  - split; [intros; apply bad_response_iff|].
    split; [intros; by eapply status_not_inspected|].
    intros members t Ht. simpl in Ht. split_and!; intros Ha.
    + by rewrite (address_kept _ _ _ Ha Ht).
    + by rewrite (resolvedAddress_kept _ _ _ Ha Ht).
    + by rewrite (currentConditions_kept _ _ _ Ha Ht).
Qed.

Lemma bare_reply_answers_zero_witness :
  json.Unmarshal
    (json.Document
       (json.JObject
          [("errorCode", json.JNumber false 401 0);
           ("message", json.JString "No API key or session found.")])) =
    inl zero_response ∧
  weatherHandler (sample_request "London")
    (sample_world ∅ []
       (Response 401
          (Bytes
             (json.Document
                (json.JObject
                   [("errorCode", json.JNumber false 401 0);
                    ("message",
                     json.JString "No API key or session found.")]))))) =
    ({| StatusCode := StatusOK; Body := "0" |},
     {| store := writes [EmptyString; EmptyString] "0" ∅;
        faults := drop 3 [];
        env := {[ "VISUAL_CROSSING_API_KEY" := "secret" ]};
        provider :=
          λ _,
            Response 401
              (Bytes
                 (json.Document
                    (json.JObject
                       [("errorCode", json.JNumber false 401 0);
                        ("message",
                         json.JString "No API key or session found.")])));
        calls :=
          [] ++
          [RedisGet "London";
           HttpGet
             (timeline_url "London"
                (default EmptyString
                   (({[ "VISUAL_CROSSING_API_KEY" := "secret" ]}
                       : gmap string string) !! "VISUAL_CROSSING_API_KEY")));
           RedisSet EmptyString "0" time_Hour;
           RedisSet EmptyString "0" time_Hour];
        logs := [] |}).
Proof.
  destruct (bare_reply_answers_zero (sample_request "London")
              (sample_world ∅ []
                 (Response 401
                    (Bytes
                       (json.Document
                          (json.JObject
                             [("errorCode", json.JNumber false 401 0);
                              ("message",
                               json.JString "No API key or session found.")])))))
              "London" 401
              (json.JObject
                 [("errorCode", json.JNumber false 401 0);
                  ("message", json.JString "No API key or session found.")]))
    as (Hu & Hrun & _).
  - reflexivity.
  - discriminate.
  - reflexivity.
  - constructor.
  - reflexivity.
  - right. eexists. split; [reflexivity|].
    unfold absent. repeat split; repeat constructor.
  - vm_compute. discriminate.
  - split; [exact Hu|exact Hrun].
Defined.

(** C10 as it is written fails: the body [[]] is valid JSON, yet decoding
    it into the struct is a type error and the lookup answers 500. *)
Lemma valid_json_is_not_enough : ¬ every_valid_json_answers_zero.
Proof.
  intros H.
  destruct (H (sample_request "London")
              (sample_world ∅ []
                 (Response 200 (Bytes (json.Document (json.JArray [])))))
              "London" 200 (json.JArray []))
    as (w' & Hrun & _).
  - reflexivity.
  - discriminate.
  - reflexivity.
  - constructor.
  - reflexivity.
  - vm_compute in Hrun. discriminate Hrun.
Qed.

Lemma depth_nested (n : nat) (v : json.value) :
  0 ≤ json.depth v → json.depth (nested n v) = Z.of_nat n + json.depth v.
Proof.
  intros Hv. induction n as [|n IH]; [done|].
  cbn [nested]. rewrite depth_JArray. cbn [foldr]. rewrite IH. lia.
Qed.

(** The limit on nesting is needed: an object that carries none of the
    fields, but one of whose members nests too deep, is refused. *)
Lemma deep_document_is_refused (n : nat) (key : string) :
  json.maxNestingDepth ≤ Z.of_nat n →
  json.Unmarshal
    (json.Document (json.JObject [(key, nested n json.JNull)])) =
    inr json.SyntaxError.
Proof.
  intros Hn. apply Unmarshal_deep.
  rewrite depth_JObject. cbn [foldr snd]. rewrite depth_nested by done.
  change (json.depth json.JNull) with 0. lia.
Qed.

(** Valid JSON that does carry the fields is answered with its own
    temperature, not with "0". *)
Example sample_reply_answers_7_5 :
  (weatherHandler (sample_request "London")
     (sample_world ∅ [] sample_reply)).1 =
    {| StatusCode := StatusOK; Body := "7.5" |}.
Proof. vm_compute. reflexivity. Qed.

(** C9.  Every float32 is written so that reading the string back gives
    the value itself.  A finite one is written as a decimal in fixed-point
    notation, with no exponent, that rounds to it, ends in no needless
    zero and has the fewest digits of all the decimals that round to it.
    The temperatures 0, -3.25, 100, 7.5 and -0.1 read back to themselves;
    7.5 is written "7.5" and 12 is written "12". *)
Theorem temperature_format_round_trip (f : float32) :
  valid_binary prec32 emax32 f = true →
  ParseFloat32 (convertFloat32ToString f) = Some f ∧
  (is_finite f = true →
   ∃ (neg : bool) (c x : Z),
     convertFloat32ToString f = fmtF neg c x ∧
     round_decimal neg c x = f ∧
     0 ≤ c ∧ (c = 0 ∨ c mod 10 ≠ 0) ∧
     (∀ c' x', 0 < c' → round_decimal neg c' x' = f →
               (nb_digits c ≤ nb_digits c')%nat) ∧
     ∃ i fr,
       fmtF neg c x = (if neg then "-" else "") +:+ i +:+ fr ∧
       all_digits i = true ∧ i ≠ EmptyString ∧
       (fr = EmptyString ∨
        ∃ d, fr = String "."%char d ∧ all_digits d = true ∧
             d ≠ EmptyString)) ∧
  Forall
    (λ g, ParseFloat32 (convertFloat32ToString g) = Some g) representative ∧
  convertFloat32ToString <$> representative =
    ["0"; "-3.25"; "100"; "7.5"; "-0.1"] ∧
  convertFloat32ToString (round_decimal false 75 (-1)) = "7.5" ∧
  convertFloat32ToString (round_decimal false 12 0) = "12".
Proof.
  intros Hv. split; [by apply FormatFloat32_reads_back|]. split.
  - intros Hfin. destruct f as [s|s| |neg m e]; try discriminate.
    + exists s, 0, 0. split; [by destruct s|]. split; [done|].
      split; [done|]. split; [by left|]. split; [|apply fmtF_shape].
      intros c' x' Hc' _. destruct (nb_digits_range c' Hc') as [Hn _].
      exact Hn.
    + cbn [valid_binary] in Hv.
      pose proof (written_decimal_reads_back neg m e Hv) as Hrb.
      pose proof (written_decimal_minimal neg m e Hv) as Hmin.
      cbv zeta in Hrb, Hmin.
      unfold convertFloat32ToString, FormatFloat32.
      destruct (exact_decimal m e) as [c0 x0]. cbn [fst snd] in *.
      destruct (shortest _ _ neg c0 x0 _) as [c1 x1]. cbn [fst snd] in *.
      destruct (trim (nb_digits c1) c1 x1) as [c x]. cbn [fst snd] in *.
      destruct Hmin as (Hc & Hnz & Hmin).
      exists neg, c, x. split; [done|]. split; [done|]. split; [lia|].
      split; [by right|]. split; [done|]. apply fmtF_shape.
  - split; [|split; [|split]].
    + unfold representative. repeat constructor; vm_compute; reflexivity.
    + vm_compute. reflexivity.
    + vm_compute. reflexivity.
    + vm_compute. reflexivity.
Qed.

Lemma temperature_format_round_trip_witness :
  ParseFloat32 (convertFloat32ToString (round_decimal true 1 (-1))) =
    Some (round_decimal true 1 (-1)) ∧
  (∃ (neg : bool) (c x : Z),
     convertFloat32ToString (round_decimal true 1 (-1)) = fmtF neg c x ∧
     round_decimal neg c x = round_decimal true 1 (-1) ∧
     0 ≤ c ∧ (c = 0 ∨ c mod 10 ≠ 0) ∧
     (∀ c' x', 0 < c' → round_decimal neg c' x' = round_decimal true 1 (-1) →
               (nb_digits c ≤ nb_digits c')%nat) ∧
     ∃ i fr,
       fmtF neg c x = (if neg then "-" else "") +:+ i +:+ fr ∧
       all_digits i = true ∧ i ≠ EmptyString ∧
       (fr = EmptyString ∨
        ∃ d, fr = String "."%char d ∧ all_digits d = true ∧
             d ≠ EmptyString)) ∧
  Forall
    (λ g, ParseFloat32 (convertFloat32ToString g) = Some g) representative ∧
  convertFloat32ToString <$> representative =
    ["0"; "-3.25"; "100"; "7.5"; "-0.1"] ∧
  convertFloat32ToString (round_decimal false 75 (-1)) = "7.5" ∧
  convertFloat32ToString (round_decimal false 12 0) = "12".
Proof.
  destruct (temperature_format_round_trip (round_decimal true 1 (-1)))
    as (Hback & Hshort & Hrest).
  - vm_compute. reflexivity.
  - split; [exact Hback|]. split; [|exact Hrest].
    apply Hshort. vm_compute. reflexivity.
Defined.

(** * Further properties of the handler *)

(** Among the next [n] commands either all run or there is a first one
    that fails. *)
Lemma first_fault (n : nat) (fs : list (option string)) :
  clean n fs ∨
  ∃ k msg, (k < n)%nat ∧ clean k fs ∧ fs !! k = Some (Some msg).
Proof.
  revert fs. induction n as [|n IH]; intros fs; [left; apply clean_0|].
  destruct fs as [|[msg|] fs].
  - left. unfold clean. rewrite take_nil. constructor.
  - right. exists 0%nat, msg. split; [lia|]. split; [apply clean_0|done].
  - destruct (IH fs) as [Hc|(k & msg & Hk & Hc & Hf)].
    + left. apply clean_S. by split.
    + right. exists (S k), msg. split; [lia|]. split; [|done].
      apply clean_S. by split.
Qed.

Lemma clean_misses (w : World) (location : string) (n : nat) :
  store w !! location = None → clean (S n) (faults w) →
  misses w location ∧ clean n (tail (faults w)).
Proof. intros Hst [Hh Hc]%clean_S. split; [by right|done]. Qed.

(** What [Get] reports: [redis.Nil], a value, or another error. *)
Lemma Get_outcome (w : World) (location : string) :
  misses w location ∨
  (∃ e, mjoin (head (faults w)) = None ∧ store w !! location = Some e) ∨
  (∃ msg, head (faults w) = Some (Some msg) ∧ redis_Error msg ≠ redis_Nil).
Proof.
  unfold misses. destruct (head (faults w)) as [[msg|]|]; cbn [mjoin option_join].
  - destruct (decide (redis_Error msg = redis_Nil)) as [[= ->]|Hmsg].
    + by left; left.
    + right; right. by exists msg.
  - destruct (store w !! location) as [e|]; [right; left; by exists e|].
    left; by right.
  - destruct (store w !! location) as [e|]; [right; left; by exists e|].
    left; by right.
Qed.

(** Every run of the handler follows one of the six rules of [run]. *)
Lemma weatherHandler_run (r : Request) (w : World) :
  run r w (weatherHandler r w).1 (weatherHandler r w).2.
Proof.
  destruct (decide (Values_Get (Query r) "location" = EmptyString)) as [He|Hne].
  { unfold weatherHandler. rewrite He. simpl. by constructor. }
  destruct (Get_outcome w (Values_Get (Query r) "location"))
    as [Hmiss|[(e & Hrun & Hst)|(msg & Hh & Hmsg)]].
  2:{ rewrite (weatherHandler_get r _ eq_refl Hne w Hrun). cbv zeta.
      rewrite Hst. simpl. by apply run_hit. }
  2:{ rewrite (weatherHandler_fault r _ eq_refl Hne w msg Hh)
        by (intros ->; by apply Hmsg).
      simpl. by apply run_store_error. }
  destruct (provider w (provider_url w (Values_Get (Query r) "location")))
    as [|status [|body]] eqn:Hp.
  - rewrite (weatherHandler_miss r _ eq_refl Hne w Hmiss). cbv zeta.
    rewrite callWeatherAPI_eq. cbv zeta.
    unfold provider_url in *. simpl. rewrite Hp.
    unfold fail, log_Print, record. io. simpl. rewrite <- app_assoc. simpl.
    apply (run_provider_error r w ErrAPIConnect []); [done..|].
    left. unfold provider_url. by rewrite Hp.
  - rewrite (weatherHandler_miss r _ eq_refl Hne w Hmiss). cbv zeta.
    rewrite callWeatherAPI_eq. cbv zeta.
    unfold provider_url in *. simpl. rewrite Hp.
    unfold fail, log_Print, record. io. simpl. rewrite <- !app_assoc. simpl.
    apply (run_provider_error r w ErrAPIResponse [ReadFailure]); [done..|].
    right. left. exists status. unfold provider_url. by rewrite Hp.
  - destruct (json.Unmarshal body) as [api|c] eqn:Hu.
    2:{ rewrite (weatherHandler_miss r _ eq_refl Hne w Hmiss). cbv zeta.
        rewrite callWeatherAPI_eq. cbv zeta.
        unfold provider_url in *. simpl. rewrite Hp, Hu.
        unfold fail, log_Print, record. io. simpl. rewrite <- !app_assoc. simpl.
        apply (run_provider_error r w ErrAPIResponse [DecodeFailure c]);
          [done..|].
        right. right. exists status, body, c. unfold provider_url.
        by rewrite Hp. }
    destruct (first_fault (length (Handle_locations api)) (tail (faults w)))
      as [Hc|(k & msg & Hk & Hc & Hf)].
    + rewrite (miss_lookup_clean r _ w status body api eq_refl Hne Hmiss Hp Hu)
        by done.
      simpl. by apply (run_stored r w status body api).
    + destruct (lookup_lt_is_Some_2 (Handle_locations api) k Hk) as [key Hkey].
      rewrite (miss_lookup_fault r _ w status body api eq_refl Hne Hmiss Hp Hu
                 (take k (Handle_locations api)) key
                 (drop (S k) (Handle_locations api)) msg).
      * simpl. rewrite length_take, Nat.min_l by lia.
        rewrite <- (take_S_r _ _ _ Hkey).
        by apply (run_write_error r w status body api k msg).
      * symmetry. by apply take_drop_middle.
      * by rewrite length_take, Nat.min_l by lia.
      * rewrite length_take, Nat.min_l by lia. by rewrite <- lookup_tail_S.
Qed.

(** X1.  The calls a lookup makes are none, or the [Get] alone, or, when
    the [Get] reported [redis.Nil] and only then, the [Get], one request to
    the provider and then [Set]s; there are [Set]s only when the provider's
    answer was decoded, and they go to the first aliases of that answer, in
    order, with its temperature. *)
Theorem call_discipline (r : Request) (w : World) :
  calls (weatherHandler r w).2 = calls w ∨
  calls (weatherHandler r w).2 =
    calls w ++ [RedisGet (Values_Get (Query r) "location")] ∨
  (misses w (Values_Get (Query r) "location") ∧
   ∃ keys val,
     calls (weatherHandler r w).2 =
       calls w ++
       RedisGet (Values_Get (Query r) "location") ::
       HttpGet (provider_url w (Values_Get (Query r) "location")) ::
       sets keys val ∧
     (keys = [] ∨
      ∃ status body api,
        provider w (provider_url w (Values_Get (Query r) "location")) =
          Response status (Bytes body) ∧
        json.Unmarshal body = inl api ∧
        keys `prefix_of` Handle_locations api ∧
        val =
          convertFloat32ToString
            (CurrentConditions.Temp (APIResponse.CurrentConditions api)))).
Proof.
  pose proof (weatherHandler_run r w) as Hrun.
  destruct (weatherHandler r w) as [out w']. simpl in *.
  destruct Hrun as [He|msg Hne Hf Hnil|e Hne Hf Hst|err causes Hne Hm Hp
                    |status body api Hne Hm Hp Hu Hc
                    |status body api k msg Hne Hm Hp Hu Hk Hc Hf]; simpl.
  - by left.
  - right. by left.
  - right. by left.
  - right. right. split; [done|]. exists [], EmptyString. split; [done|by left].
  - right. right. split; [done|]. eexists _, _. split; [done|].
    right. by exists status, body, api.
  - right. right. split; [done|]. eexists _, _. split; [done|].
    right. exists status, body, api. split_and!; [done..| |done].
    apply prefix_take.
Qed.


(** X3.  The answer and the log agree: a 200 or a 400 logs nothing; a 500
    carries the text of an error, and that error is the last line the
    lookup logged. *)
Theorem failure_is_logged (r : Request) (w : World) :
  ((StatusCode (weatherHandler r w).1 = StatusOK ∨
    StatusCode (weatherHandler r w).1 = StatusBadRequest) ∧
   logs (weatherHandler r w).2 = logs w) ∨
  (StatusCode (weatherHandler r w).1 = StatusInternalServerError ∧
   ∃ causes err,
     logs (weatherHandler r w).2 = logs w ++ causes ++ [Failure err] ∧
     Body (weatherHandler r w).1 = Error err).
Proof.
  pose proof (weatherHandler_run r w) as Hrun.
  destruct (weatherHandler r w) as [out w']. simpl in *.
  destruct Hrun as [He|msg Hne Hf Hnil|e Hne Hf Hst|err causes Hne Hm Hp
                    |status body api Hne Hm Hp Hu Hc
                    |status body api k msg Hne Hm Hp Hu Hk Hc Hf]; simpl.
  - left. split; [by right|done].
  - right. split; [done|]. by exists [], (redis_Error msg).
  - left. split; [by left|done].
  - right. split; [done|]. by exists causes, err.
  - left. split; [by left|done].
  - right. split; [done|]. by exists [], (redis_Error msg).
Qed.

(** X4.  A lookup that finds nothing in the store and still answers 200
    has cached its answer under every alias: the provider's answer was
    decoded, the body is its formatted temperature, and the address, the
    resolved address and each station now hold that body for one hour. *)
Theorem ok_after_miss_is_cached (r : Request) (w : World) :
  store w !! Values_Get (Query r) "location" = None →
  StatusCode (weatherHandler r w).1 = StatusOK →
  ∃ status body api,
    provider w (provider_url w (Values_Get (Query r) "location")) =
      Response status (Bytes body) ∧
    json.Unmarshal body = inl api ∧
    Body (weatherHandler r w).1 =
      convertFloat32ToString
        (CurrentConditions.Temp (APIResponse.CurrentConditions api)) ∧
    ∀ key,
      key ∈ APIResponse.Address api :: APIResponse.ResolvedAddress api ::
            CurrentConditions.Stations (APIResponse.CurrentConditions api) →
      store (weatherHandler r w).2 !! key =
        Some {| cached := Body (weatherHandler r w).1; ttl := time_Hour |}.
Proof.
  intros Hmiss Hok.
  pose proof (weatherHandler_run r w) as Hrun.
  destruct (weatherHandler r w) as [out w']. simpl in *.
  destruct Hrun as [He|msg Hne Hf Hnil|e Hne Hf Hst|err causes Hne Hm Hp
                    |status body api Hne Hm Hp Hu Hc
                    |status body api k msg Hne Hm Hp Hu Hk Hc Hf];
    simpl in *; try discriminate Hok; [congruence|].
  exists status, body, api. split_and!; [done..|].
  intros key Hkey. apply writes_lookup. by rewrite Handle_locations_eq.
Qed.

Lemma ok_after_miss_is_cached_witness :
  ∃ status body api,
    provider (sample_world ∅ [] sample_reply)
      (provider_url (sample_world ∅ [] sample_reply)
         (Values_Get (Query (sample_request "Londres")) "location")) =
      Response status (Bytes body) ∧
    json.Unmarshal body = inl api ∧
    Body (weatherHandler (sample_request "Londres")
            (sample_world ∅ [] sample_reply)).1 =
      convertFloat32ToString
        (CurrentConditions.Temp (APIResponse.CurrentConditions api)) ∧
    ∀ key,
      key ∈ APIResponse.Address api :: APIResponse.ResolvedAddress api ::
            CurrentConditions.Stations (APIResponse.CurrentConditions api) →
      store (weatherHandler (sample_request "Londres")
               (sample_world ∅ [] sample_reply)).2 !! key =
        Some {| cached :=
                  Body (weatherHandler (sample_request "Londres")
                          (sample_world ∅ [] sample_reply)).1;
                ttl := time_Hour |}.
Proof.
  apply (ok_after_miss_is_cached (sample_request "Londres")
           (sample_world ∅ [] sample_reply)).
  - reflexivity.
  - vm_compute. reflexivity.
Defined.

Lemma clean_drop (a b : nat) (fs : list (option string)) :
  clean (a + b) fs → clean b (drop a fs).
Proof.
  revert fs. induction a as [|a IH]; intros fs; [done|].
  rewrite Nat.add_succ_l. intros [_ Hc]%clean_S.
  rewrite <- drop_tail. by apply IH.
Qed.

Lemma writes_twice (keys : list string) (val : string) (m : gmap string entry) :
  writes keys val (writes keys val m) = writes keys val m.
Proof.
  apply map_eq. intros key.
  destruct (decide (key ∈ keys)) as [Hin|Hout].
  - by rewrite !writes_lookup.
  - by rewrite !writes_frame.
Qed.

(** X5.  What a miss stores, a later lookup serves.  After a lookup that
    missed and stored the provider's answer, a lookup for any non-empty
    alias of that answer is answered 200 with the same temperature string
    by its [Get] alone: the provider is not asked again and the store is
    not written. *)
Theorem alias_is_served_from_cache
    (r r' : Request) (w : World) (status : Z) (body : json.text)
    (api : APIResponse.t) (alias : string) :
  Values_Get (Query r) "location" ≠ EmptyString →
  store w !! Values_Get (Query r) "location" = None →
  provider w (provider_url w (Values_Get (Query r) "location")) =
    Response status (Bytes body) →
  json.Unmarshal body = inl api →
  clean (S (length (Handle_locations api)) + 1) (faults w) →
  alias ∈ APIResponse.Address api :: APIResponse.ResolvedAddress api ::
          CurrentConditions.Stations (APIResponse.CurrentConditions api) →
  alias ≠ EmptyString →
  Values_Get (Query r') "location" = alias →
  (weatherHandler r' (weatherHandler r w).2).1 = (weatherHandler r w).1 ∧
  StatusCode (weatherHandler r w).1 = StatusOK ∧
  store (weatherHandler r' (weatherHandler r w).2).2 =
    store (weatherHandler r w).2 ∧
  calls (weatherHandler r' (weatherHandler r w).2).2 =
    calls (weatherHandler r w).2 ++ [RedisGet alias].
Proof.
  intros Hne Hmiss Hp Hu Hc Hin Hane Hq'.
  assert (clean (S (length (Handle_locations api))) (faults w)) as Hc1.
  { eapply clean_le; [|exact Hc]. lia. }
  apply clean_drop in Hc.
  destruct (clean_misses _ _ _ Hmiss Hc1) as [Hm Hc1'].
  rewrite (miss_lookup_clean r _ w status body api eq_refl Hne Hm Hp Hu Hc1').
  cbn [fst snd].
  match goal with |- context [weatherHandler r' ?w1] => set (w' := w1) end.
  assert (mjoin (head (faults w')) = None) as Hh.
  { apply clean_S in Hc as [Hh _]. exact Hh. }
  assert (store w' !! alias =
            Some {| cached :=
                      convertFloat32ToString
                        (CurrentConditions.Temp
                           (APIResponse.CurrentConditions api));
                    ttl := time_Hour |}) as Hst.
  { subst w'. cbn [store]. apply writes_lookup. by rewrite Handle_locations_eq. }
  rewrite (weatherHandler_get r' alias Hq' Hane w' Hh). cbv zeta.
  rewrite Hst. done.
Qed.

Lemma alias_is_served_from_cache_witness :
  (weatherHandler (sample_request "EGLL")
     (weatherHandler (sample_request "Londres")
        (sample_world ∅ [] sample_reply)).2).1 =
    (weatherHandler (sample_request "Londres")
       (sample_world ∅ [] sample_reply)).1 ∧
  StatusCode (weatherHandler (sample_request "Londres")
                (sample_world ∅ [] sample_reply)).1 = StatusOK ∧
  store (weatherHandler (sample_request "EGLL")
           (weatherHandler (sample_request "Londres")
              (sample_world ∅ [] sample_reply)).2).2 =
    store (weatherHandler (sample_request "Londres")
             (sample_world ∅ [] sample_reply)).2 ∧
  calls (weatherHandler (sample_request "EGLL")
           (weatherHandler (sample_request "Londres")
              (sample_world ∅ [] sample_reply)).2).2 =
    calls (weatherHandler (sample_request "Londres")
             (sample_world ∅ [] sample_reply)).2 ++ [RedisGet "EGLL"].
Proof.
  apply (alias_is_served_from_cache (sample_request "Londres")
           (sample_request "EGLL") (sample_world ∅ [] sample_reply) 200
           (json.Document sample_document)
           (APIResponse.mk "London" "London, England, United Kingdom"
              (CurrentConditions.mk (round_decimal false 75 (-1))
                 ["EGLC"; "EGLL"]))
           "EGLL").
  - discriminate.
  - reflexivity.
  - reflexivity.
  - vm_compute. reflexivity.
  - constructor.
  - cbn. repeat constructor.
  - discriminate.
  - reflexivity.
Defined.

(** X6.  A query string that is none of the provider's aliases is never
    cached, and asking again changes nothing more: the second lookup
    misses too, asks the provider again, gives the same answer and leaves
    the store exactly as the first lookup left it. *)
Theorem repeated_miss_is_idempotent
    (r : Request) (w : World) (status : Z) (body : json.text)
    (api : APIResponse.t) :
  Values_Get (Query r) "location" ≠ EmptyString →
  store w !! Values_Get (Query r) "location" = None →
  provider w (provider_url w (Values_Get (Query r) "location")) =
    Response status (Bytes body) →
  json.Unmarshal body = inl api →
  clean (S (length (Handle_locations api)) + S (length (Handle_locations api)))
    (faults w) →
  Values_Get (Query r) "location" ∉
    APIResponse.Address api :: APIResponse.ResolvedAddress api ::
    CurrentConditions.Stations (APIResponse.CurrentConditions api) →
  (weatherHandler r (weatherHandler r w).2).1 = (weatherHandler r w).1 ∧
  store (weatherHandler r (weatherHandler r w).2).2 =
    store (weatherHandler r w).2 ∧
  calls (weatherHandler r (weatherHandler r w).2).2 =
    calls (weatherHandler r w).2 ++
    RedisGet (Values_Get (Query r) "location") ::
    HttpGet (provider_url w (Values_Get (Query r) "location")) ::
    sets (Handle_locations api)
      (convertFloat32ToString
         (CurrentConditions.Temp (APIResponse.CurrentConditions api))).
Proof.
  intros Hne Hmiss Hp Hu Hc Hout.
  assert (clean (S (length (Handle_locations api))) (faults w)) as Hc1.
  { eapply clean_le; [|exact Hc]. lia. }
  apply clean_drop in Hc.
  destruct (clean_misses _ _ _ Hmiss Hc1) as [Hm Hc1'].
  rewrite (miss_lookup_clean r _ w status body api eq_refl Hne Hm Hp Hu Hc1').
  cbn [fst snd].
  match goal with |- context [weatherHandler r ?w1] => set (w' := w1) end.
  assert (store w' !! Values_Get (Query r) "location" = None) as Hmiss'.
  { subst w'. cbn [store]. rewrite writes_frame; [done|].
    by rewrite Handle_locations_eq. }
  destruct (clean_misses w' _ _ Hmiss' Hc) as [Hm' Hc'].
  rewrite (miss_lookup_clean r _ w' status body api eq_refl Hne Hm' Hp Hu Hc').
  subst w'. cbn [fst snd store calls faults]. by rewrite writes_twice.
Qed.

Lemma repeated_miss_is_idempotent_witness :
  (weatherHandler (sample_request "Londres")
     (weatherHandler (sample_request "Londres")
        (sample_world ∅ [] sample_reply)).2).1 =
    (weatherHandler (sample_request "Londres")
       (sample_world ∅ [] sample_reply)).1 ∧
  store (weatherHandler (sample_request "Londres")
           (weatherHandler (sample_request "Londres")
              (sample_world ∅ [] sample_reply)).2).2 =
    store (weatherHandler (sample_request "Londres")
             (sample_world ∅ [] sample_reply)).2 ∧
  calls (weatherHandler (sample_request "Londres")
           (weatherHandler (sample_request "Londres")
              (sample_world ∅ [] sample_reply)).2).2 =
    calls (weatherHandler (sample_request "Londres")
             (sample_world ∅ [] sample_reply)).2 ++
    RedisGet (Values_Get (Query (sample_request "Londres")) "location") ::
    HttpGet
      (provider_url (sample_world ∅ [] sample_reply)
         (Values_Get (Query (sample_request "Londres")) "location")) ::
    sets
      (Handle_locations
         (APIResponse.mk "London" "London, England, United Kingdom"
            (CurrentConditions.mk (round_decimal false 75 (-1))
               ["EGLC"; "EGLL"])))
      (convertFloat32ToString
         (CurrentConditions.Temp
            (APIResponse.CurrentConditions
               (APIResponse.mk "London" "London, England, United Kingdom"
                  (CurrentConditions.mk (round_decimal false 75 (-1))
                     ["EGLC"; "EGLL"]))))).
Proof.
  apply (repeated_miss_is_idempotent (sample_request "Londres")
           (sample_world ∅ [] sample_reply) 200
           (json.Document sample_document)
           (APIResponse.mk "London" "London, England, United Kingdom"
              (CurrentConditions.mk (round_decimal false 75 (-1))
                 ["EGLC"; "EGLL"]))).
  - discriminate.
  - reflexivity.
  - reflexivity.
  - vm_compute. reflexivity.
  - constructor.
  - cbn. intros Hin.
    repeat (apply elem_of_cons in Hin as [Hin|Hin]; [discriminate|]).
    by apply elem_of_nil in Hin.
Defined.

(** * Further properties of the decoder *)

Section Decoding.
Import json.

(** What holds of the zero value and of every number literal in range
    holds of the decoded temperature. *)
Section Admission.
Variable P : float32 → Prop.
Hypothesis P_literal :
  ∀ neg c x,
    is_finite (round_decimal neg c x) = true → P (round_decimal neg c x).

Lemma literal_float32_admits (v : value) (old f : float32) :
  P old → literal_float32 v old = Some f → P f.
Proof.
  intros Hold. destruct v; cbn [literal_float32]; try discriminate;
    [by intros [= <-]|].
  cbv zeta. destruct (is_finite _) eqn:Hf; [|discriminate].
  intros [= <-]. by apply P_literal.
Qed.

Lemma member_conditions_admits (members : list (string * value))
    (cc cc' : conditions) :
  P (temp cc) →
  foldl member_conditions (Some cc) members = Some cc' →
  P (temp cc').
Proof.
  revert cc. induction members as [|[key v] members IH]; intros cc Hcc.
  { by intros [= <-]. }
  cbn [foldl]. unfold member_conditions at 2.
  destruct (names key "temp").
  - destruct (literal_float32 v (temp cc)) as [f|] eqn:Hl.
    + apply IH. cbn [temp]. by eapply literal_float32_admits.
    + intros Hf. exfalso. clear -Hf. induction members; simpl in *; [done|auto].
  - destruct (names key "stations").
    + destruct (array v (stations cc)) as [s|].
      * by apply IH.
      * intros Hf. exfalso. clear -Hf.
        induction members; simpl in *; [done|auto].
    + by apply IH.
Qed.

Lemma member_target_admits (members : list (string * value)) (t t' : target) :
  P (temp (currentConditions t)) →
  foldl member_target (Some t) members = Some t' →
  P (temp (currentConditions t')).
Proof.
  revert t. induction members as [|[key v] members IH]; intros t Ht.
  { by intros [= <-]. }
  cbn [foldl]. unfold member_target at 2.
  destruct (names key "address");
    [|destruct (names key "resolvedAddress");
      [|destruct (names key "currentConditions")]].
  - destruct (literal_string v (address t));
      [by apply IH|by rewrite foldl_member_target_None].
  - destruct (literal_string v (resolvedAddress t));
      [by apply IH|by rewrite foldl_member_target_None].
  - destruct (object_conditions v (currentConditions t)) as [cc|] eqn:Hcc;
      [|by rewrite foldl_member_target_None].
    apply IH. cbn [currentConditions]. unfold object_conditions in Hcc.
    destruct v; try discriminate; [by injection Hcc as <-|].
    eapply member_conditions_admits; [|exact Hcc]. exact Ht.
  - by apply IH.
Qed.

Lemma Unmarshal_admits (data : text) (api : APIResponse.t) :
  P (S754_zero false) →
  Unmarshal data = inl api →
  P (CurrentConditions.Temp (APIResponse.CurrentConditions api)).
Proof.
  intros H0. unfold Unmarshal. destruct data as [|v]; [discriminate|].
  destruct (maxNestingDepth <? depth v); [discriminate|].
  destruct (object_target v zero) as [t|] eqn:Ht; [|discriminate].
  intros [= <-]. change (P (temp (currentConditions t))).
  unfold object_target in Ht.
  destruct v; try discriminate; [by injection Ht as <-|].
  eapply member_target_admits; [|exact Ht]. exact H0.
Qed.
End Admission.

(** X7.  A decoded temperature is a finite number: a document whose
    temperature is out of the range of float32 is refused, so no infinity
    and no NaN ever reaches [Handle]. *)
Theorem decoded_temperature_is_finite (data : text) (api : APIResponse.t) :
  Unmarshal data = inl api →
  is_finite (CurrentConditions.Temp (APIResponse.CurrentConditions api)) = true.
Proof.
  unfold Unmarshal. destruct data as [|v]; [discriminate|].
  destruct (maxNestingDepth <? depth v); [discriminate|].
  destruct (object_target v zero) as [t|] eqn:Ht; [|discriminate].
  intros [= <-]. change (is_finite (temp (currentConditions t)) = true).
  unfold object_target in Ht.
  destruct v; try discriminate; [by injection Ht as <-|].
  apply (member_target_admits (λ f, is_finite f = true) ltac:(auto)
           members zero t); [reflexivity|exact Ht].
Qed.

Lemma decoded_temperature_is_finite_witness :
  is_finite
    (CurrentConditions.Temp
       (APIResponse.CurrentConditions
          (APIResponse.mk "London" "London, England, United Kingdom"
             (CurrentConditions.mk (round_decimal false 75 (-1))
                ["EGLC"; "EGLL"])))) = true.
Proof.
  apply (decoded_temperature_is_finite (Document sample_document)).
  vm_compute. reflexivity.
Defined.

(** A number too large for float32 is a decoding failure. *)
Example huge_temperature_is_refused :
  Unmarshal
    (Document
       (JObject [("currentConditions", JObject [("temp", JNumber false 1 39)])]))
  = inr UnmarshalTypeError.
Proof. vm_compute. reflexivity. Qed.
End Decoding.

Section Documents.
Import json.






End Documents.

(** * Further properties of the temperature string *)

(** X10.  The temperature string is faithful: for every float32 value,
    reading back what [convertFloat32ToString] writes gives the value
    itself, sign of zero included. *)
Theorem format_then_parse (f : float32) :
  valid_binary prec32 emax32 f = true →
  ParseFloat32 (convertFloat32ToString f) = Some f.
Proof. apply FormatFloat32_reads_back. Qed.

Lemma format_then_parse_witness :
  ParseFloat32 (convertFloat32ToString (round_decimal true 1 (-1))) =
    Some (round_decimal true 1 (-1)).
Proof.
  apply (format_then_parse (round_decimal true 1 (-1))).
  vm_compute. reflexivity.
Defined.

(** X11.  Two different temperatures are never written alike. *)
Theorem temperature_string_is_injective (f g : float32) :
  valid_binary prec32 emax32 f = true →
  valid_binary prec32 emax32 g = true →
  convertFloat32ToString f = convertFloat32ToString g → f = g.
Proof.
  intros Hf Hg Heq.
  pose proof (FormatFloat32_reads_back f Hf) as Hpf.
  pose proof (FormatFloat32_reads_back g Hg) as Hpg.
  rewrite Heq, Hpg in Hpf. by injection Hpf.
Qed.

Lemma temperature_string_is_injective_witness :
  round_decimal false 75 (-1) = round_decimal false 750 (-2).
Proof.
  apply (temperature_string_is_injective (round_decimal false 75 (-1))
           (round_decimal false 750 (-2))); vm_compute; reflexivity.
Defined.

(** X12.  A finite temperature is written in plain fixed-point notation:
    an optional minus sign, one or more digits and, possibly, a point
    followed by one or more digits.  There is never an exponent. *)
Theorem fixed_point_notation (f : float32) :
  is_finite f = true →
  ∃ (neg : bool) (i fr : string),
    convertFloat32ToString f = (if neg then "-" else "") +:+ i +:+ fr ∧
    all_digits i = true ∧ i ≠ EmptyString ∧
    (fr = EmptyString ∨
     ∃ d, fr = String "."%char d ∧ all_digits d = true ∧ d ≠ EmptyString).
Proof.
  intros Hf. destruct f as [s|s| |s m e]; try discriminate.
  - exists s, "0", EmptyString. split; [by destruct s|]. auto.
  - unfold convertFloat32ToString, FormatFloat32.
    destruct (exact_decimal m e) as [c0 x0].
    destruct (shortest _ _ s c0 x0 _) as [c x].
    destruct (trim (nb_digits c) c x) as [c' x'].
    exists s. apply fmtF_shape.
Qed.

Lemma fixed_point_notation_witness :
  ∃ (neg : bool) (i fr : string),
    convertFloat32ToString (round_decimal true 325 (-2)) =
      (if neg then "-" else "") +:+ i +:+ fr ∧
    all_digits i = true ∧ i ≠ EmptyString ∧
    (fr = EmptyString ∨
     ∃ d, fr = String "."%char d ∧ all_digits d = true ∧ d ≠ EmptyString).
Proof.
  apply (fixed_point_notation (round_decimal true 325 (-2))).
  vm_compute. reflexivity.
Defined.

(** * Temperatures, from the provider to the store *)

Lemma Unmarshal_valid (data : json.text) (api : APIResponse.t) :
  json.Unmarshal data = inl api →
  valid_binary prec32 emax32
    (CurrentConditions.Temp (APIResponse.CurrentConditions api)) = true.
Proof.
  apply (Unmarshal_admits (λ f, valid_binary prec32 emax32 f = true));
    [intros; apply round_decimal_valid|reflexivity].
Qed.

Lemma Unmarshal_temperature (data : json.text) (api : APIResponse.t) :
  json.Unmarshal data = inl api →
  temperature
    (convertFloat32ToString
       (CurrentConditions.Temp (APIResponse.CurrentConditions api))).
Proof.
  intros Hu. eexists. split.
  - apply FormatFloat32_reads_back. by eapply Unmarshal_valid.
  - by apply (Unmarshal_admits (λ f, is_finite f = true) ltac:(auto) data).
Qed.

(** X13.  What the decoder accepts, the formatter writes faithfully: for
    every body that decodes, the string written for its temperature reads
    back as the decoded float32 itself. *)
Theorem decoded_temperature_reads_back (data : json.text) (api : APIResponse.t) :
  json.Unmarshal data = inl api →
  valid_binary prec32 emax32
    (CurrentConditions.Temp (APIResponse.CurrentConditions api)) = true ∧
  ParseFloat32
    (convertFloat32ToString
       (CurrentConditions.Temp (APIResponse.CurrentConditions api))) =
    Some (CurrentConditions.Temp (APIResponse.CurrentConditions api)).
Proof.
  intros Hu. pose proof (Unmarshal_valid data api Hu) as Hv.
  split; [exact Hv|]. by apply FormatFloat32_reads_back.
Qed.

Lemma decoded_temperature_reads_back_witness :
  valid_binary prec32 emax32
    (CurrentConditions.Temp
       (APIResponse.CurrentConditions
          (APIResponse.mk "London" "London, England, United Kingdom"
             (CurrentConditions.mk (round_decimal false 75 (-1))
                ["EGLC"; "EGLL"])))) = true ∧
  ParseFloat32
    (convertFloat32ToString
       (CurrentConditions.Temp
          (APIResponse.CurrentConditions
             (APIResponse.mk "London" "London, England, United Kingdom"
                (CurrentConditions.mk (round_decimal false 75 (-1))
                   ["EGLC"; "EGLL"]))))) =
    Some
      (CurrentConditions.Temp
         (APIResponse.CurrentConditions
            (APIResponse.mk "London" "London, England, United Kingdom"
               (CurrentConditions.mk (round_decimal false 75 (-1))
                  ["EGLC"; "EGLL"])))).
Proof.
  apply (decoded_temperature_reads_back (json.Document sample_document)).
  vm_compute. reflexivity.
Defined.

Lemma writes_well_formed (keys : list string) (val : string)
    (m : gmap string entry) :
  temperature val → well_formed m → well_formed (writes keys val m).
Proof.
  intros Hval Hm key e.
  destruct (decide (key ∈ keys)) as [Hin|Hout].
  - rewrite writes_lookup by done. by intros [= <-].
  - rewrite writes_frame by done. apply Hm.
Qed.

(** X14.  The store only ever holds temperatures: if every entry is a
    string that reads as a finite float32, kept for one hour, then so is
    every entry after a lookup, whatever the provider answers and whatever
    the Redis faults; and a body answered with status 200 is such a string
    too. *)
Theorem store_holds_temperatures (r : Request) (w : World) :
  well_formed (store w) →
  well_formed (store (weatherHandler r w).2) ∧
  (StatusCode (weatherHandler r w).1 = StatusOK →
   temperature (Body (weatherHandler r w).1)).
Proof.
  intros Hwf.
  pose proof (weatherHandler_run r w) as Hrun.
  destruct (weatherHandler r w) as [out w']. cbn [fst snd] in *.
  destruct Hrun as [He|msg Hne Hf Hnil|e Hne Hf Hst|err causes Hne Hm Hp
                    |status body api Hne Hm Hp Hu Hc
                    |status body api k msg Hne Hm Hp Hu Hk Hc Hf];
    cbn [store StatusCode Body].
  - split; [exact Hwf|discriminate].
  - split; [exact Hwf|discriminate].
  - split; [exact Hwf|]. intros _. by destruct (Hwf _ _ Hst).
  - split; [exact Hwf|discriminate].
  - pose proof (Unmarshal_temperature body api Hu) as Ht.
    split; [by apply writes_well_formed|done].
  - split; [|discriminate].
    apply writes_well_formed; [|exact Hwf]. by eapply Unmarshal_temperature.
Qed.

Lemma store_holds_temperatures_witness :
  well_formed
    (store
       (weatherHandler (sample_request "Londres")
          (sample_world {[ "London" := {| cached := "7"; ttl := time_Hour |} ]}
             [] sample_reply)).2) ∧
  temperature
    (Body
       (weatherHandler (sample_request "Londres")
          (sample_world {[ "London" := {| cached := "7"; ttl := time_Hour |} ]}
             [] sample_reply)).1).
Proof.
  destruct (store_holds_temperatures (sample_request "Londres")
              (sample_world
                 {[ "London" := {| cached := "7"; ttl := time_Hour |} ]}
                 [] sample_reply)) as [Hs Hb].
  - intros key e Hl. cbn [store sample_world] in Hl.
    apply lookup_singleton_Some in Hl as [_ <-]. split; [|reflexivity].
    exists (round_decimal false 7 0). split; vm_compute; reflexivity.
  - split; [exact Hs|]. apply Hb. vm_compute. reflexivity.
Defined.


